(** * skfuzzy.control.fuzzyvariable: fuzzy variables, terms, aggregation

    A shallow embedding of [src/skfuzzy/control/fuzzyvariable.py].

    - NumPy float arrays are lists of exact rationals ([Qc], canonical
      rationals with Leibniz equality); rounding is outside the embedding.
      Infinities and NaN, which decide what the range test of a
      registration lets through, are in the module [IEEE], which holds
      the registration over such numbers; on finite numbers the two
      registrations agree (lemma [setitem_of_store]).
    - [FuzzyVariableTerm] objects live in a heap (a list, the address of an
      object is its index, a new object is appended), because the code
      shares and mutates them: registration writes [parent_variable] on the
      caller's object, and the rule engine writes [membership_value].
    - [FuzzyVariable.terms], an [OrderedDict], is an association list from
      labels to heap addresses, in insertion order.
    - Methods are computations in a state-and-exception monad in which the
      state survives a raised exception, as in Python. *)

From stdpp Require Import base numbers list strings.
From Stdlib Require Import QArith Qcanon Sorted.

Open Scope Qc_scope.
#[local] Set Warnings "-clear-no-such-hyp".

(** ** Numbers and arrays *)

Definition qc (n : Z) (d : positive) : Qc := Q2Qc (n # d).

Definition Qcmin (x y : Qc) : Qc := if decide (x <= y) then x else y.
Definition Qcmax (x y : Qc) : Qc := if decide (x <= y) then y else x.

(** The spec's error taxonomy (section 7); [ArrayError] collects what NumPy
    itself raises, [AttributeError] is Python's own for an attribute that
    an object does not have, and [ReferenceError] the access to an object
    that does not exist, which no Python program can perform. *)
Inductive kind :=
| ValidationError | StateError | ShapeMismatchError | RangeError
| LookupError | ConfigError | DegenerateResultError | ArrayError
| AttributeError | ReferenceError.

(** One constructor per [raise] of the source (all are [ValueError] there),
    and those of the collaborators. *)
Inductive error :=
| LabelMismatch            (* l.149 "Term's label must match new key" *)
| AlreadyBound             (* l.151 "Term must not already have a parent" *)
| Locked                   (* l.159 "Cannot add adjectives after ..." *)
| LengthMismatch           (* l.165 "... must be equivalent in length ..." *)
| OutOfRange               (* l.171 "... contains values out of range" *)
| NoMemberships            (* l.183 "No terms have memberships ..." *)
| NoTerms                  (* l.193, l.203 "Set term membership function(s) first" *)
| NoSuchTerm (msg : string)(* l.135 "Membership function ... does not exist" *)
| MissingName              (* l.138 self.__name__ on an object without it *)
| EvenNames                (* l.279 "Must provide an odd number of names" *)
| BadNumber                (* l.282 "Only number = 3, 5, or 7 supported." *)
| ZeroSizeReduction        (* numpy: max or min of an empty array *)
| Broadcast                (* numpy: operands could not be broadcast *)
| ZeroArea                 (* defuzz: total area is zero *)
| UnknownStrategy          (* defuzz: unrecognized mode *)
| NullReference.

Definition kind_of (e : error) : kind :=
  match e with
  | LabelMismatch | AlreadyBound => ValidationError
  | Locked | NoMemberships | NoTerms => StateError
  | LengthMismatch => ShapeMismatchError
  | OutOfRange => RangeError
  | NoSuchTerm _ => LookupError
  | MissingName => AttributeError
  | EvenNames | BadNumber | UnknownStrategy => ConfigError
  | ZeroArea => DegenerateResultError
  | ZeroSizeReduction | Broadcast => ArrayError
  | NullReference => ReferenceError
  end.

Inductive result (A : Type) :=
| Ok (a : A)
| Err (e : error).
Arguments Ok {A} a.
Arguments Err {A} e.

(** [ndarray.max()] and [ndarray.min()]: a zero-size array has no maximum. *)
Definition np_max (a : list Qc) : result Qc :=
  match a with
  | [] => Err ZeroSizeReduction
  | x :: xs => Ok (foldl Qcmax x xs)
  end.

Definition np_min (a : list Qc) : result Qc :=
  match a with
  | [] => Err ZeroSizeReduction
  | x :: xs => Ok (foldl Qcmin x xs)
  end.

Definition np_zeros_like (a : list Qc) : list Qc := map (fun _ => 0) a.

(** [np.minimum(cut, mf)] with a scalar [cut]. *)
Definition np_minimum (cut : Qc) (a : list Qc) : list Qc := map (Qcmin cut) a.

(** [np.maximum(out, a, out)]: elementwise, in place in [out]; [a] must have
    the length of [out] or be broadcast from length one. *)
Definition np_maximum (out a : list Qc) : result (list Qc) :=
  if decide (length a = length out) then Ok (zip_with Qcmax out a)
  else match a with
       | [x] => Ok (map (fun o => Qcmax o x) out)
       | _ => Err Broadcast
       end.

(** ** Data model *)

Record FuzzyVariableTerm := mkTerm {
  label : string;
  mf : list Qc;
  parent_variable : option nat;      (* the [_id] of the parent variable *)
  membership_value : option Qc
}.

(** [__name__] is read by [__getitem__] and [__repr__]; no code of this file
    sets it: an object built by [FuzzyVariable.__init__] has none, the
    subclasses (Antecedent, Consequent), which live in another file, set
    it on theirs. *)
Record FuzzyVariable := mkVar {
  universe : list Qc;
  var_label : string;
  defuzzify_method : string;
  terms : list (string * nat);       (* OrderedDict: label -> term object *)
  _id : nat;
  _crisp_value_accessed : bool;
  __name__ : option string
}.

Record store := mkStore {
  heap : list FuzzyVariableTerm;
  self : FuzzyVariable
}.

Global Instance error_eq_dec : EqDecision error.
Proof. solve_decision. Defined.
Global Instance kind_eq_dec : EqDecision kind.
Proof. solve_decision. Defined.
Global Instance result_eq_dec {A} `{EqDecision A} : EqDecision (result A).
Proof. solve_decision. Defined.
Global Instance FuzzyVariableTerm_eq_dec : EqDecision FuzzyVariableTerm.
Proof. solve_decision. Defined.
Global Instance FuzzyVariable_eq_dec : EqDecision FuzzyVariable.
Proof. solve_decision. Defined.
Global Instance store_eq_dec : EqDecision store.
Proof. solve_decision. Defined.

Definition with_parent (p : option nat) (t : FuzzyVariableTerm) :=
  mkTerm (label t) (mf t) p (membership_value t).
Definition with_membership (d : option Qc) (t : FuzzyVariableTerm) :=
  mkTerm (label t) (mf t) (parent_variable t) d.
Definition with_terms (ts : list (string * nat)) (v : FuzzyVariable) :=
  mkVar (universe v) (var_label v) (defuzzify_method v) ts (_id v)
        (_crisp_value_accessed v) (__name__ v).
Definition with_accessed (b : bool) (v : FuzzyVariable) :=
  mkVar (universe v) (var_label v) (defuzzify_method v) (terms v) (_id v)
        b (__name__ v).

(** ** OrderedDict *)

Fixpoint od_get {V} (k : string) (d : list (string * V)) : option V :=
  match d with
  | [] => None
  | (k', v) :: d' => if decide (k' = k) then Some v else od_get k d'
  end.

(** [d[k] = v]: an existing key keeps its position, a new key goes last. *)
Fixpoint od_set {V} (k : string) (v : V) (d : list (string * V)) : list (string * V) :=
  match d with
  | [] => [(k, v)]
  | (k', v') :: d' =>
      if decide (k' = k) then (k, v) :: d' else (k', v') :: od_set k v d'
  end.

Definition od_keys {V} (d : list (string * V)) : list string := d.*1.

Definition od_mem {V} (k : string) (d : list (string * V)) : bool :=
  bool_decide (k ∈ od_keys d).

(** ** The monad: state that survives exceptions *)

Definition M (A : Type) : Type := store -> result A * store.

Definition ret {A} (a : A) : M A := fun s => (Ok a, s).
Definition raise {A} (e : error) : M A := fun s => (Err e, s).
Definition bind {A B} (m : M A) (k : A -> M B) : M B :=
  fun s => match m s with
           | (Ok a, s') => k a s'
           | (Err e, s') => (Err e, s')
           end.
Definition lift {A} (r : result A) : M A := fun s => (r, s).

Notation "x <~ m ;; k" := (bind m (fun x => k))
  (at level 100, m at next level, right associativity).
Notation "m ;;; k" := (bind m (fun _ => k))
  (at level 100, right associativity).

Definition get_self : M FuzzyVariable := fun s => (Ok (self s), s).
Definition put_self (v : FuzzyVariable) : M unit :=
  fun s => (Ok tt, mkStore (heap s) v).

(** Reading and writing a term object through a reference. *)
Definition deref (a : nat) : M FuzzyVariableTerm :=
  fun s => match heap s !! a with
           | Some t => (Ok t, s)
           | None => (Err NullReference, s)
           end.
Definition assign (a : nat) (t : FuzzyVariableTerm) : M unit :=
  fun s => (Ok tt, mkStore (<[a := t]> (heap s)) (self s)).

Fixpoint for_each {A} (l : list A) (body : A -> M unit) : M unit :=
  match l with
  | [] => ret tt
  | x :: l' => body x ;;; for_each l' body
  end.

(** ** FuzzyVariableTerm *)

(** [FuzzyVariableTerm(label, membership_function)], l.25-30. *)
Definition new_term (lbl : string) (membership_function : list Qc) : M nat :=
  fun s => (Ok (length (heap s)),
            mkStore (heap s ++ [mkTerm lbl membership_function None None])
                    (self s)).

(** The rule engine's write [term.membership_value = d]. *)
Definition set_membership_value (a : nat) (d : option Qc) : M unit :=
  t <~ deref a ;; assign a (with_membership d t).

(** ** FuzzyVariable *)

(** [FuzzyVariable.__init__], l.72-108; [id] is [id(self)]. *)
Definition init (id : nat) (univ : list Qc) (lbl : string)
    (method : string) : result FuzzyVariable :=
  Ok (mkVar univ lbl method [] id false None).

(** The loop of l.125-134. *)
Fixpoint options_loop (i0 i1 i : Z) (keys : list string) (options : string)
    : string :=
  match keys with
  | [] => options
  | available_key :: keys' =>
      options_loop i0 i1 (i + 1) keys'
        (if decide (i = i1) then options +:+ "'" +:+ available_key +:+ "', or "
         else if decide (i = i0) then options +:+ "'" +:+ available_key +:+ "'."
         else options +:+ "'" +:+ available_key +:+ "'; ")
  end.

Definition options_of (keys : list string) : string :=
  options_loop (Z.of_nat (length keys) - 1) (Z.of_nat (length keys) - 2) 0
               keys "".

Definition newline : string := String (Ascii.ascii_of_nat 10) EmptyString.

Definition missing_message (key name : string) (v : FuzzyVariable) : string :=
  "Membership function '" +:+ key +:+ "' does not exist for "
  +:+ name +:+ " " +:+ var_label v +:+ "." +:+ newline
  +:+ "Available options: " +:+ options_of (od_keys (terms v)).

(** [FuzzyVariable.__getitem__], l.116-138: the term object of a label.
    The arguments of [format], among them [self.__name__], are evaluated
    before the ValueError is built. *)
Definition getitem (key : string) : M nat :=
  v <~ get_self ;;
  match od_get key (terms v) with
  | Some a => ret a
  | None =>
      match __name__ v with
      | Some name => raise (NoSuchTerm (missing_message key name v))
      | None => raise MissingName
      end
  end.

(** What is assigned in [variable[key] = item]. *)
Inductive item :=
| Curve (membership_function : list Qc)   (* anything else: np.asarray(item) *)
| TermObj (a : nat).                      (* isinstance(item, FuzzyVariableTerm) *)

Definition upper_bound : Qc := 1 + qc 1 1000000.
Definition lower_bound : Qc := 0 - qc 1 1000000.

(** [FuzzyVariable.__setitem__], l.140-176, on curves of finite numbers;
    [IEEE.setitem] is the same method on curves that may hold an infinity
    or a NaN. *)
Definition setitem (key : string) (it : item) : M unit :=
  a <~ match it with
       | TermObj a =>
           t <~ deref a ;;
           if decide (label t = key) then
             match parent_variable t with
             | None => ret a
             | Some _ => raise AlreadyBound
             end
           else raise LabelMismatch
       | Curve c => new_term key c
       end ;;
  v <~ get_self ;;
  if _crisp_value_accessed v then raise Locked else
  t <~ deref a ;;
  if decide (length (mf t) = length (universe v)) then
    mx <~ lift (np_max (mf t)) ;;
    if decide (upper_bound < mx) then raise OutOfRange else
    mn <~ lift (np_min (mf t)) ;;
    if decide (mn < lower_bound) then raise OutOfRange else
    assign a (with_parent (Some (_id v)) t) ;;;
    v' <~ get_self ;;
    put_self (with_terms (od_set key a (terms v')) v')
  else raise LengthMismatch.

(** [FuzzyVariable._find_crisp_value], l.200-217. The loop of l.210-215
    carries [output_mf] (updated in place by [np.maximum]) and the dict
    [cut_mfs]. *)
Fixpoint find_loop (items : list (string * nat)) (output_mf : list Qc)
    (cut_mfs : list (string * list Qc))
    : M (list Qc * list (string * list Qc)) :=
  match items with
  | [] => ret (output_mf, cut_mfs)
  | (lbl, a) :: items' =>
      term <~ deref a ;;
      match membership_value term with
      | None => find_loop items' output_mf cut_mfs
      | Some cut =>
          let cut_mfs' := od_set lbl (np_minimum cut (mf term)) cut_mfs in
          out <~ lift (np_maximum output_mf (np_minimum cut (mf term))) ;;
          find_loop items' out cut_mfs'
      end
  end.

Definition _find_crisp_value : M (list Qc * list (string * list Qc)) :=
  v <~ get_self ;;
  if decide (length (od_keys (terms v)) = 0%nat) then raise NoTerms else
  find_loop (terms v) (np_zeros_like (universe v)) [].

(** ** automf helpers *)

Definition lower_ascii (c : Ascii.ascii) : Ascii.ascii :=
  let n := Ascii.nat_of_ascii c in
  if decide (65 <= n <= 90)%nat then Ascii.ascii_of_nat (n + 32) else c.

Fixpoint lower (s : string) : string :=
  match s with
  | EmptyString => EmptyString
  | String c s' => String (lower_ascii c) (lower s')
  end.

(** Every [step]-th element, from the first. *)
Fixpoint stride {A} (fuel step : nat) (l : list A) : list A :=
  match fuel, l with
  | S fuel', x :: _ => x :: stride fuel' step (drop step l)
  | _, _ => []
  end.

(** [l[start:stop:step]] for non-negative bounds and a positive step. *)
Definition py_slice {A} (start stop step : nat) (l : list A) : list A :=
  let window := take (stop - start) (drop start l) in
  stride (length window) step window.

(** [np.linspace(start, stop, num)]. *)
Definition np_linspace (start stop : Qc) (num : nat) : list Qc :=
  match num with
  | 1%nat => [start]
  | _ => map (fun i : nat =>
                start + Q2Qc (inject_Z (Z.of_nat i))
                        * ((stop - start) / Q2Qc (inject_Z (Z.of_nat (num - 1)))))
             (seq 0 num)
  end.

(** A NumPy division: dividing by zero raises nothing there, it answers
    [inf] or [nan]; [None] stands for such a non-finite number. *)
Definition np_divide (x y : Qc) : option Qc :=
  if decide (y = 0) then None else Some (x / y).

Definition abc : Type := option Qc * Qc * option Qc.

Record automf_args := mkArgs {
  number : Z;
  variable_type : string;
  names : option (list string);
  invert : bool
}.

Definition quality_names : list string :=
  ["dismal"; "poor"; "mediocre"; "average"; "decent"; "good"; "excellent"].
Definition quant_names : list string :=
  ["lowest"; "lower"; "low"; "average"; "high"; "higher"; "highest"].

(** l.275-307: the names and the number of terms, or an error. *)
Definition automf_names (args : automf_args) : result (list string * Z) :=
  match names args with
  | Some ns =>
      let number := Z.of_nat (length ns) in
      if decide (number `mod` 2 = 1)%Z then Ok (ns, number) else Err EvenNames
  | None =>
      let number := number args in
      if decide (number ∈ [3; 5; 7]%Z) then
        let ns := if decide (lower (variable_type args) = "quality")
                  then quality_names else quant_names in
        let ns := if decide (number = 3)%Z then
                    if decide (lower (variable_type args) = "quality")
                    then py_slice 1 6 2 ns else py_slice 2 5 1 ns
                  else ns in
        let ns := if decide (number = 5)%Z then py_slice 1 6 1 ns else ns in
        Ok (ns, number)
      else Err BadNumber
  end.

(** l.312-317. *)
Definition automf_abcs (lo hi : Qc) (number : Z) : list abc :=
  let universe_range := hi - lo in
  let width := np_divide universe_range
                 (Q2Qc (inject_Z (number - 1)) / Q2Qc (inject_Z 2)) in
  let widths := replicate (Z.to_nat number) width in
  let centers := np_linspace lo hi (Z.to_nat number) in
  zip_with (fun c w => ((fun w => c - w / Q2Qc (inject_Z 2)) <$> w, c,
                        (fun w => c + w / Q2Qc (inject_Z 2)) <$> w))
           centers widths.

Section Collaborators.

(** Functions of the package that this file imports and that live in other
    files: [skfuzzy.defuzz], which can raise, [skfuzzy.interp_membership]
    and [skfuzzy.membership.trimf], which the spec (4.4, 6) has return for
    every input. *)
Variable defuzz : list Qc -> list Qc -> string -> result Qc.
Variable interp_membership : list Qc -> list Qc -> Qc -> Qc.
Variable trimf : list Qc -> abc -> list Qc.

(** The [crisp_value] property, l.178-187. *)
Definition crisp_value : M Qc :=
  r <~ _find_crisp_value ;;
  if decide (length r.2 = 0%nat) then raise NoMemberships else
  v <~ get_self ;;
  put_self (with_accessed true v) ;;;
  v <~ get_self ;;
  lift (defuzz (universe v) r.1 (defuzzify_method v)).

(** The [crisp_value] setter, l.189-198, against an interpolation primitive
    that returns on every input (section 4.4 of the spec);
    [crisp_value_set_raising] is the same setter against a primitive that
    may raise. *)
Definition crisp_value_set (value : Qc) : M unit :=
  v <~ get_self ;;
  if decide (length (terms v) = 0%nat) then raise NoTerms else
  for_each (terms v) (fun '(_, adj) =>
    t <~ deref adj ;;
    assign adj (with_membership
                  (Some (interp_membership (universe v) (mf t) value)) t)) ;;;
  v <~ get_self ;;
  put_self (with_accessed true v).

(** [_NotGenerator.__getitem__], l.96-107. *)
Definition not_getitem (key : string) : M nat :=
  let lbl := "NOT-" +:+ key in
  v <~ get_self ;;
  if od_mem lbl (terms v) then getitem lbl else
  pos <~ getitem key ;;
  posterm <~ deref pos ;;
  negterm <~ new_term lbl (map (fun x => 1 - x) (mf posterm)) ;;
  match membership_value posterm with
  | Some d => set_membership_value negterm (Some (1 - d))
  | None => ret tt
  end ;;;
  setitem lbl (TermObj negterm) ;;;
  ret negterm.

(** [FuzzyVariable.automf], l.225-324. *)
Definition automf (args : automf_args) : M unit :=
  nn <~ lift (automf_names args) ;;
  let ns := if invert args then reverse nn.1 else nn.1 in
  v <~ get_self ;;
  lo <~ lift (np_min (universe v)) ;;
  hi <~ lift (np_max (universe v)) ;;
  let abcs := automf_abcs lo hi nn.2 in
  put_self (with_terms [] v) ;;;
  for_each (zip ns abcs) (fun '(name, abc) =>
    v <~ get_self ;;
    setitem name (Curve (trimf (universe v) abc))).

(** ** Programs against one variable *)

Inductive op :=
| NewTerm (lbl : string) (membership_function : list Qc)
| SetMembership (a : nat) (d : option Qc)
| SetItem (key : string) (it : item)
| GetItem (key : string)
| NotGetItem (key : string)
| ReadCrisp
| WriteCrisp (value : Qc)
| Automf (args : automf_args).

(** The store after one operation, whether it returned or raised. *)
Definition exec (o : op) (s : store) : store :=
  match o with
  | NewTerm lbl c => (new_term lbl c s).2
  | SetMembership a d => (set_membership_value a d s).2
  | SetItem key it => (setitem key it s).2
  | GetItem key => (getitem key s).2
  | NotGetItem key => (not_getitem key s).2
  | ReadCrisp => (crisp_value s).2
  | WriteCrisp x => (crisp_value_set x s).2
  | Automf args => (automf args s).2
  end.

Definition exec_all (os : list op) (s : store) : store :=
  foldl (fun s o => exec o s) s os.

End Collaborators.

(** ** The collaborators, from the spec *)

(** Modelled from the spec: [skfuzzy.interp_membership] is not under src/.
    Section 4.4: piecewise-linear interpolation of the curve [ys] over the
    grid [xs] at [x]; outside the grid the boundary sample is taken. The
    grid is read as increasing; on an empty grid the model answers 0. *)
Fixpoint interp_from (xs ys : list Qc) (x : Qc) : Qc :=
  match xs, ys with
  | x0 :: xs', y0 :: ys' =>
      match xs', ys' with
      | x1 :: _, y1 :: _ =>
          if decide (x < x1)
          then y0 + (x - x0) * ((y1 - y0) / (x1 - x0))
          else interp_from xs' ys' x
      | _, _ => y0
      end
  | _, _ => 0
  end.

Definition linear_interp (xs ys : list Qc) (x : Qc) : Qc :=
  match xs, ys with
  | x0 :: _, y0 :: _ => if decide (x <= x0) then y0 else interp_from xs ys x
  | _, _ => 0
  end.

Definition Qcsum (l : list Qc) : Qc := foldr Qcplus 0 l.

(** The universe points whose membership is [top]. *)
Definition points_at (top : Qc) (u m : list Qc) : list Qc :=
  (filter (fun p => p.2 = top) (zip u m)).*1.

(** The first universe point at which twice the accumulated membership
    reaches [total]. *)
Fixpoint half_point (total acc : Qc) (u m : list Qc) : result Qc :=
  match u, m with
  | x :: u', y :: m' =>
      if decide (total <= Q2Qc (inject_Z 2) * (acc + y)) then Ok x
      else half_point total (acc + y) u' m'
  | _, _ => Err ZeroSizeReduction
  end.

(** Modelled from the spec: [skfuzzy.defuzz] is not under src/. Section
    4.5, step 2: centroid is [sum (u*m) / sum m], an error when [sum m] is
    zero (section 7, DegenerateResultError); mean, smallest and largest of
    maximum are the mean, smallest and largest universe point among the
    samples at the curve's maximum; bisector is read on the samples as the
    first point where the accumulated membership reaches half of the
    total. A name outside the enumerated set is a ConfigError (section 6).
    The names of the maximum strategies are the package's. *)
Definition defuzz_spec (u m : list Qc) (mode : string) : result Qc :=
  if decide (mode = "centroid") then
    if decide (Qcsum m = 0) then Err ZeroArea
    else Ok (Qcsum (zip_with Qcmult u m) / Qcsum m)
  else if decide (mode = "bisector") then
    if decide (Qcsum m = 0) then Err ZeroArea
    else half_point (Qcsum m) 0 u m
  else if decide (mode = "mom") then
    match np_max m with
    | Ok top => Ok (Qcsum (points_at top u m)
                    / Q2Qc (inject_Z (Z.of_nat (length (points_at top u m)))))
    | Err e => Err e
    end
  else if decide (mode = "som") then
    match np_max m with
    | Ok top => np_min (points_at top u m)
    | Err e => Err e
    end
  else if decide (mode = "lom") then
    match np_max m with
    | Ok top => np_max (points_at top u m)
    | Err e => Err e
    end
  else Err UnknownStrategy.

(** Modelled from the spec: [skfuzzy.membership.trimf] is not under src/.
    Section 6 asks only for a curve of the universe's length with values
    in [0,1]; this is the triangle with feet [a], [c] and peak [b], a side
    whose foot is not finite being flat at 0. *)
Definition trimf_spec (u : list Qc) (p : abc) : list Qc :=
  map (fun x =>
         if decide (x = p.1.2) then 1
         else if decide (x < p.1.2) then
           match p.1.1 with
           | Some a => if decide (a < x) then (x - a) / (p.1.2 - a) else 0
           | None => 0
           end
         else
           match p.2 with
           | Some c => if decide (x < c) then (c - x) / (c - p.1.2) else 0
           | None => 0
           end) u.

(** ** Specification-side definitions *)

Definition quote (k : string) : string := "'" +:+ k +:+ "'".

(** The enumeration of section 4.2, in the spec's words: the labels joined
    with "; ", with ", or " before the last one, and a final period. *)
Fixpoint options_spec (keys : list string) : string :=
  match keys with
  | [] => ""
  | k :: rest =>
      match rest with
      | [] => quote k +:+ "."
      | [last] => quote k +:+ ", or " +:+ quote last +:+ "."
      | _ => quote k +:+ "; " +:+ options_spec rest
      end
  end.

(** A curve that registration accepts on a universe of [n] samples. *)
Definition in_range (c : list Qc) : Prop :=
  Forall (fun x => lower_bound <= x /\ x <= upper_bound) c.

Definition registered (s : store) (lbl : string) (t : FuzzyVariableTerm) : Prop :=
  exists a, od_get lbl (terms (self s)) = Some a /\ heap s !! a = Some t.

(** The invariant of a store built through the methods: every entry of
    [terms] refers to a term object, whose curve has the length of the
    universe, is not empty and lies in the accepted range. *)
Definition wf (s : store) : Prop :=
  Forall (fun e => exists t, heap s !! e.2 = Some t
                     /\ length (mf t) = length (universe (self s))
                     /\ mf t <> []
                     /\ in_range (mf t))
         (terms (self s)).

(** The term object that a registration goes on to check, once the item
    has passed l.147-155: a fresh object for a raw curve, the caller's
    object for a pre-built term with the right label and no parent; [h] is
    the heap at that point. *)
Inductive presents (s : store) (key : string)
    : item -> nat -> FuzzyVariableTerm -> list FuzzyVariableTerm -> Prop :=
| presents_curve c :
    presents s key (Curve c) (length (heap s)) (mkTerm key c None None)
             (heap s ++ [mkTerm key c None None])
| presents_term a t :
    heap s !! a = Some t -> label t = key -> parent_variable t = None ->
    presents s key (TermObj a) a t (heap s).

(** The checks of l.157-172 on the presented term, in the order of the
    code: the error raised, if any. *)
Definition check (v : FuzzyVariable) (t : FuzzyVariableTerm) : option error :=
  if _crisp_value_accessed v then Some Locked
  else if decide (length (mf t) = length (universe v)) then
    match np_max (mf t), np_min (mf t) with
    | Ok mx, Ok mn =>
        if decide (upper_bound < mx) then Some OutOfRange
        else if decide (mn < lower_bound) then Some OutOfRange
        else None
    | Err e, _ | _, Err e => Some e
    end
  else Some LengthMismatch.

(** No term object of [h] is lost or has its label or curve changed. *)
Definition keeps_curves (h h' : list FuzzyVariableTerm) : Prop :=
  forall a t, h !! a = Some t ->
    exists t', h' !! a = Some t' /\ mf t' = mf t /\ label t' = label t.

(** How a store may change under the methods: term objects keep label and
    curve, the universe is fixed, a locked variable stays locked, and the
    invariant is kept. *)
Definition evolves (s s' : store) : Prop :=
  keeps_curves (heap s) (heap s')
  /\ universe (self s') = universe (self s)
  /\ (_crisp_value_accessed (self s) = true ->
      _crisp_value_accessed (self s') = true)
  /\ (wf s -> wf s').

Definition evolving {A} (m : M A) : Prop := forall s, evolves s (m s).2.

(** The heap after the loop of l.195-197: [f] applied to the object of
    every entry, in order. *)
Fixpoint fan_out (f : FuzzyVariableTerm -> FuzzyVariableTerm)
    (items : list (string * nat)) (h : list FuzzyVariableTerm)
    : list FuzzyVariableTerm :=
  match items with
  | [] => h
  | e :: items' =>
      fan_out f items' (match h !! e.2 with
                        | Some t => <[e.2 := f t]> h
                        | None => h
                        end)
  end.

(** The cut curves, in the spec's words (4.5, step 1): for exactly the
    terms with a defined degree, the elementwise minimum of the degree and
    the term's curve; in the order of the terms. *)
Definition rows_of (h : list FuzzyVariableTerm) (items : list (string * nat))
    : list (list Qc) :=
  omap (fun e : string * nat =>
          match h !! e.2 with
          | Some t => (fun d => map (Qcmin d) (mf t)) <$> membership_value t
          | None => None
          end) items.

Definition cut_rows (s : store) : list (list Qc) :=
  rows_of (heap s) (terms (self s)).

(** The values of the cut curves at the sample of index [i]. *)
Definition cut_column (s : store) (i : nat) : list Qc :=
  (fun row => nth i row 0) <$> cut_rows s.

(** Some registered term has a defined degree. *)
Definition has_degree (s : store) : Prop :=
  exists e t d, e ∈ terms (self s) /\ heap s !! e.2 = Some t
                /\ membership_value t = Some d.

(** ** Closed stores for the examples *)

(** [v0] stands for a Consequent, whose class sets [__name__]. *)

Definition u3 : list Qc := [0; 1; qc 2 1].
Definition v0 : FuzzyVariable :=
  mkVar u3 "tip" "centroid" [] 7 false (Some "Consequent").
Definition s0 : store := mkStore [] v0.

Definition abc_store : store :=
  mkStore [mkTerm "a" [0; 0; 0] (Some 7%nat) None;
           mkTerm "b" [0; 1; 0] (Some 7%nat) None;
           mkTerm "c" [1; 1; 1] (Some 7%nat) None]
          (with_terms [("a", 0%nat); ("b", 1%nat); ("c", 2%nat)] v0).

(** [abc_store] after the write [crisp_value = 1], then with a detached
    term object "hi" created by the caller. *)
Definition written_store : store :=
  (crisp_value_set linear_interp 1 abc_store).2.

Definition written_detached : store :=
  (new_term "hi" [0; 0; 1] written_store).2.

(** A variable whose only curve is identically zero, with a degree set by
    the rule engine. *)
Definition zero_store : store :=
  mkStore [mkTerm "z" [0; 0; 0] (Some 7%nat) (Some 1)]
          (with_terms [("z", 0%nat)] v0).

(** A variable whose only curve dips to -1/2000000, inside the tolerance of
    the range check, registered through [setitem], with degree 1 set by
    the rule engine. *)
Definition tiny_store : store :=
  exec_all defuzz_spec linear_interp trimf_spec
    [SetItem "t" (Curve [qc (-1) 2000000; qc 1 2; 1]);
     SetMembership 0 (Some 1)] s0.

(** A variable on which the caller has registered a term of its own under
    the label "NOT-a". *)
Definition shadow_store : store :=
  exec_all defuzz_spec linear_interp trimf_spec
    [SetItem "a" (Curve [0; 0; 0]); SetItem "NOT-a" (Curve [0; 0; 0])] s0.

(** ** The elementary changes of a store *)

(** Every method changes the store by a sequence of these steps: a new
    detached term object; a degree written on an object; a registration,
    which binds an unbound object that passes the checks and stores it under
    its label; the lock; the clearing of the term mapping. *)
Inductive mutates : store -> store -> Prop :=
| mut_refl s : mutates s s
| mut_trans s1 s2 s3 : mutates s1 s2 -> mutates s2 s3 -> mutates s1 s3
| mut_alloc s lbl c :
    mutates s (mkStore (heap s ++ [mkTerm lbl c None None]) (self s))
| mut_degree s a t d :
    heap s !! a = Some t ->
    mutates s (mkStore (<[a := with_membership d t]> (heap s)) (self s))
| mut_register s a t :
    heap s !! a = Some t -> parent_variable t = None ->
    check (self s) t = None ->
    mutates s (mkStore (<[a := with_parent (Some (_id (self s))) t]> (heap s))
                       (with_terms (od_set (label t) a (terms (self s)))
                                   (self s)))
| mut_lock s : mutates s (mkStore (heap s) (with_accessed true (self s)))
| mut_clear s : mutates s (mkStore (heap s) (with_terms [] (self s))).

Definition mutating {A} (m : M A) : Prop := forall s, mutates s (m s).2.

(** The term mapping of a store is consistent: every entry refers to an
    object that carries the entry's label and is bound to this variable,
    no label occurs twice and no object is stored under two labels. *)
Definition bound (s : store) : Prop :=
  (forall k a, (k, a) ∈ terms (self s) ->
     exists t, heap s !! a = Some t /\ label t = k
               /\ parent_variable t = Some (_id (self s)))
  /\ NoDup (terms (self s)).*1
  /\ NoDup (terms (self s)).*2.

(** [FuzzyVariableTerm.full_label], l.32-37, on a term object; [label_of]
    gives the label of the Variable object with a given [_id]; [None] is
    the ValueError of l.36. *)
Definition full_label (label_of : nat -> string) (t : FuzzyVariableTerm)
    : option string :=
  match parent_variable t with
  | None => None
  | Some p => Some (label_of p +:+ "[" +:+ label t +:+ "]")
  end.

(** A variable on an empty universe. *)
Definition empty_store : store :=
  mkStore [] (mkVar [] "none" "centroid" [] 9 false (Some "Antecedent")).

(** A short program: two registrations, a degree written by the rule
    engine, a negation, a write and a read of the crisp value, automf. *)
Definition session : list op :=
  [SetItem "lo" (Curve [1; qc 1 2; 0]);
   SetItem "hi" (Curve [0; qc 1 2; 1]);
   SetMembership 0 (Some (qc 1 3));
   NotGetItem "lo";
   WriteCrisp 1;
   ReadCrisp;
   Automf (mkArgs 3 "quality" None false)].

(** A curve builder that answers the constant curve 1, for the examples. *)
Definition flat_curve (u : list Qc) (p : abc) : list Qc := map (fun _ => 1) u.

(** The operations that access the crisp value. *)
Definition locking (o : op) : bool :=
  match o with
  | ReadCrisp | WriteCrisp _ => true
  | _ => false
  end.

(** A computation that leaves the lock flag as it is. *)
Definition keeps_lock {A} (m : M A) : Prop :=
  forall s, _crisp_value_accessed (self (m s).2) = _crisp_value_accessed (self s).

(** * Registration over floating-point numbers *)

(** The arrays of the program hold float64 numbers, which may be infinite
    or NaN; the checks of [__setitem__] compare them (l.164, l.170), and a
    comparison with a NaN is false.  [IEEE] holds the constructor of
    [FuzzyVariableTerm] and [__setitem__] over such numbers, with the
    attributes they read or write.  On finite numbers, which are read
    exactly as above, it is [setitem]. *)
Module IEEE.

Inductive float :=
| Fin (q : Qc)
| PInf
| NInf
| NaN.

Global Instance float_eq_dec : EqDecision float.
Proof. solve_decision. Defined.

(** [x < y] and [x <= y]: false as soon as one side is a NaN. *)
Definition lt (x y : float) : bool :=
  match x, y with
  | NaN, _ | _, NaN => false
  | Fin a, Fin b => bool_decide (a < b)
  | NInf, NInf => false
  | NInf, _ => true
  | PInf, _ => false
  | Fin _, PInf => true
  | Fin _, NInf => false
  end.

Definition le (x y : float) : bool :=
  match x, y with
  | NaN, _ | _, NaN => false
  | Fin a, Fin b => bool_decide (a <= b)
  | NInf, _ => true
  | _, PInf => true
  | PInf, _ => false
  | Fin _, NInf => false
  end.

(** The step of [ndarray.max()] and [ndarray.min()]: a NaN propagates. *)
Definition max2 (x y : float) : float :=
  match x, y with
  | NaN, _ | _, NaN => NaN
  | _, _ => if le x y then y else x
  end.

Definition min2 (x y : float) : float :=
  match x, y with
  | NaN, _ | _, NaN => NaN
  | _, _ => if le x y then x else y
  end.

Definition np_max (a : list float) : result float :=
  match a with
  | [] => Err ZeroSizeReduction
  | x :: xs => Ok (foldl max2 x xs)
  end.

Definition np_min (a : list float) : result float :=
  match a with
  | [] => Err ZeroSizeReduction
  | x :: xs => Ok (foldl min2 x xs)
  end.

Record FuzzyVariableTerm := mkTerm {
  label : string;
  mf : list float;
  parent_variable : option nat;
  membership_value : option float
}.

Record FuzzyVariable := mkVar {
  universe : list float;
  terms : list (string * nat);
  _id : nat;
  _crisp_value_accessed : bool
}.

Record store := mkStore {
  heap : list FuzzyVariableTerm;
  self : FuzzyVariable
}.

Definition with_parent (p : option nat) (t : FuzzyVariableTerm) : FuzzyVariableTerm :=
  mkTerm (label t) (mf t) p (membership_value t).

Definition with_terms (d : list (string * nat)) (v : FuzzyVariable) : FuzzyVariable :=
  mkVar (universe v) d (_id v) (_crisp_value_accessed v).

Definition with_accessed (b : bool) (v : FuzzyVariable) : FuzzyVariable :=
  mkVar (universe v) (terms v) (_id v) b.

(** [FuzzyVariableTerm(label, membership_function)], l.25-30. *)
Definition new_term (lbl : string) (membership_function : list float)
    (s : store) : nat * store :=
  (length (heap s),
   mkStore (heap s ++ [mkTerm lbl membership_function None None]) (self s)).

Inductive item :=
| Curve (membership_function : list float)
| TermObj (a : nat).

(** [FuzzyVariable.__setitem__], l.140-176, with the store passed along:
    the item becomes a term object (l.147-154), then come the lock
    (l.157), the shape (l.164) and the range (l.170), then the binding and
    the insertion (l.175-176). *)
Definition setitem (key : string) (it : item) (s : store) : result unit * store :=
  match
    match it with
    | TermObj a =>
        match heap s !! a with
        | Some t =>
            if decide (label t = key) then
              match parent_variable t with
              | None => (Ok a, s)
              | Some _ => (Err AlreadyBound, s)
              end
            else (Err LabelMismatch, s)
        | None => (Err NullReference, s)
        end
    | Curve c => let '(a, s1) := new_term key c s in (Ok a, s1)
    end
  with
  | (Err e, s1) => (Err e, s1)
  | (Ok a, s1) =>
      let v := self s1 in
      if _crisp_value_accessed v then (Err Locked, s1) else
      match heap s1 !! a with
      | None => (Err NullReference, s1)
      | Some t =>
          if decide (length (mf t) = length (universe v)) then
            match np_max (mf t) with
            | Err e => (Err e, s1)
            | Ok mx =>
                if lt (Fin upper_bound) mx then (Err OutOfRange, s1) else
                match np_min (mf t) with
                | Err e => (Err e, s1)
                | Ok mn =>
                    if lt mn (Fin lower_bound) then (Err OutOfRange, s1) else
                    (Ok tt,
                     mkStore (<[a := with_parent (Some (_id v)) t]> (heap s1))
                             (with_terms (od_set key a (terms v)) v))
                end
            end
          else (Err LengthMismatch, s1)
      end
  end.

(** What this file does to the term mapping, the flag and the term
    objects' curves: the construction of a term, a registration, the
    clearing of l.320 and the setting of the flag of l.186 and l.198. *)
Inductive op :=
| NewTerm (lbl : string) (membership_function : list float)
| SetItem (key : string) (it : item)
| ClearTerms
| Access.

Definition exec (o : op) (s : store) : store :=
  match o with
  | NewTerm lbl c => (new_term lbl c s).2
  | SetItem key it => (setitem key it s).2
  | ClearTerms => mkStore (heap s) (with_terms [] (self s))
  | Access => mkStore (heap s) (with_accessed true (self s))
  end.

Definition exec_all (os : list op) (s : store) : store :=
  foldl (fun s o => exec o s) s os.

(** A sample in the accepted range: a finite number of
    [0 - 1e-6, 1 + 1e-6]. *)
Definition within (x : float) : Prop :=
  match x with
  | Fin q => lower_bound <= q /\ q <= upper_bound
  | _ => False
  end.

(** A curve the test of l.170 lets through. *)
Definition passes (c : list float) : Prop := NaN ∈ c \/ Forall within c.

Definition registered (s : store) (lbl : string) (t : FuzzyVariableTerm) : Prop :=
  exists a, od_get lbl (terms (self s)) = Some a /\ heap s !! a = Some t.

(** The term object that a registration goes on to check, and the heap at
    that point. *)
Inductive presents (s : store) (key : string)
    : item -> nat -> FuzzyVariableTerm -> list FuzzyVariableTerm -> Prop :=
| presents_curve c :
    presents s key (Curve c) (length (heap s)) (mkTerm key c None None)
             (heap s ++ [mkTerm key c None None])
| presents_term a t :
    heap s !! a = Some t -> label t = key -> parent_variable t = None ->
    presents s key (TermObj a) a t (heap s).

(** The checks of l.157-172 on the presented term, in the order of the
    code: the error raised, if any. *)
Definition check (v : FuzzyVariable) (t : FuzzyVariableTerm) : option error :=
  if _crisp_value_accessed v then Some Locked
  else if decide (length (mf t) = length (universe v)) then
    match np_max (mf t) with
    | Err e => Some e
    | Ok mx =>
        if lt (Fin upper_bound) mx then Some OutOfRange else
        match np_min (mf t) with
        | Err e => Some e
        | Ok mn => if lt mn (Fin lower_bound) then Some OutOfRange else None
        end
    end
  else Some LengthMismatch.

(** Every entry of [terms] refers to a term object whose curve has the
    length of the universe, is not empty and passes the test of l.170. *)
Definition wf (s : store) : Prop :=
  Forall (fun e => exists t, heap s !! e.2 = Some t
                     /\ length (mf t) = length (universe (self s))
                     /\ mf t <> []
                     /\ passes (mf t))
         (terms (self s)).

(** A new variable over the universe 0, 1, 2, and the same once locked. *)
Definition s0 : store :=
  mkStore [] (mkVar [Fin 0; Fin 1; Fin (qc 2 1)] [] 7 false).


End IEEE.

(** The finite numbers among the floats: a store of the first part, seen
    through the attributes that a registration reads or writes. *)
Definition of_term (t : FuzzyVariableTerm) : IEEE.FuzzyVariableTerm :=
  IEEE.mkTerm (label t) (IEEE.Fin <$> mf t) (parent_variable t)
              (IEEE.Fin <$> membership_value t).

Definition of_var (v : FuzzyVariable) : IEEE.FuzzyVariable :=
  IEEE.mkVar (IEEE.Fin <$> universe v) (terms v) (_id v)
             (_crisp_value_accessed v).

Definition of_store (s : store) : IEEE.store :=
  IEEE.mkStore (of_term <$> heap s) (of_var (self s)).

Definition of_item (it : item) : IEEE.item :=
  match it with
  | Curve c => IEEE.Curve (IEEE.Fin <$> c)
  | TermObj a => IEEE.TermObj a
  end.

(** ** The setter against a primitive that may raise *)

(** The [crisp_value] setter, l.189-198, read against an interpolation
    primitive that may raise: an exception of [interp_membership] leaves
    the loop of l.195-197 at that term, before its assignment and before
    l.198. *)
Definition crisp_value_set_raising
    (interp_membership : list Qc -> list Qc -> Qc -> result Qc)
    (value : Qc) : M unit :=
  v <~ get_self ;;
  if decide (length (terms v) = 0%nat) then raise NoTerms else
  for_each (terms v) (fun '(_, adj) =>
    t <~ deref adj ;;
    d <~ lift (interp_membership (universe v) (mf t) value) ;;
    assign adj (with_membership (Some d) t)) ;;;
  v <~ get_self ;;
  put_self (with_accessed true v).

(** The number a call of the primitive returned. *)
Definition value_of (r : result Qc) : Qc :=
  match r with
  | Ok q => q
  | Err _ => 0
  end.

(** A universe with a repeated sample, which the constructor accepts, and
    one curve registered on it. *)
Definition dup_store : store :=
  exec_all defuzz_spec linear_interp trimf_spec
    [SetItem "ramp" (Curve [0; qc 3 10; qc 7 10; 1])]
    (mkStore [] (mkVar [0; 1; 1; qc 2 1] "tip" "centroid" [] 7 false
                       (Some "Consequent"))).

(** A variable as [FuzzyVariable.__init__] leaves it. *)
Definition bare_variable : FuzzyVariable :=
  mkVar u3 "tip" "centroid" [] 7 false None.

(** ** Tactics *)

(** Closed decidable goals, by evaluation. *)
Ltac by_compute :=
  match goal with
  | |- ?P => apply (bool_decide_eq_true_1 P); vm_compute; reflexivity
  end.

Ltac unfold_m :=
  unfold bind, ret, raise, lift, get_self, put_self, deref, assign,
    new_term in *.

(** * Properties *)

(** ** Sanity checks on closed inputs *)

Example ex_set_ok :
  setitem "lo" (Curve [1; qc 1 2; 0]) s0
  = (Ok tt, mkStore [mkTerm "lo" [1; qc 1 2; 0] (Some 7%nat) None]
                    (with_terms [("lo", 0%nat)] v0)).
Proof. by_compute. Qed.

Example ex_set_range :
  (setitem "lo" (Curve [1; qc 3 2; 0]) s0).1 = Err OutOfRange.
Proof. by_compute. Qed.

Example ex_names3 :
  automf_names (mkArgs 3 "Quality" None false) = Ok (["poor"; "average"; "good"], 3%Z).
Proof. by_compute. Qed.

Example ex_names3q :
  automf_names (mkArgs 3 "quant" None false) = Ok (["low"; "average"; "high"], 3%Z).
Proof. by_compute. Qed.

Example ex_names5 :
  automf_names (mkArgs 5 "quality" None false)
  = Ok (["poor"; "mediocre"; "average"; "decent"; "good"], 5%Z).
Proof. by_compute. Qed.

Example ex_automf :
  (automf trimf_spec (mkArgs 3 "quality" None false) s0).2
  = mkStore [mkTerm "poor" [1; 0; 0] (Some 7%nat) None;
             mkTerm "average" [0; 1; 0] (Some 7%nat) None;
             mkTerm "good" [0; 0; 1] (Some 7%nat) None]
            (with_terms [("poor", 0%nat); ("average", 1%nat); ("good", 2%nat)] v0).
Proof. by_compute. Qed.

Example ex_interp :
  linear_interp u3 [1; qc 1 2; 0] (qc 3 2) = qc 1 4.
Proof. by_compute. Qed.

(** ** Construction *)

(** C9 (as amended): constructing a Variable never fails, whatever the
    defuzzification strategy name; the name is stored as given, the
    Variable starts with no terms and unlocked. *)
Theorem init_accepts_any_method (id : nat) (univ : list Qc)
    (lbl method : string) :
  exists v, init id univ lbl method = Ok v
    /\ defuzzify_method v = method /\ universe v = univ /\ var_label v = lbl
    /\ terms v = [] /\ _crisp_value_accessed v = false.
Proof. eexists. split; [reflexivity|]. by simpl. Qed.

(** C9, counterexample: the strategy name "no-such-strategy" is in no
    enumerated set, and construction does not raise a ConfigError. *)
Lemma init_unknown_method_no_error :
  defuzz_spec u3 [0; 1; 0] "no-such-strategy" = Err UnknownStrategy
  /\ ~ exists e, init 7 u3 "tip" "no-such-strategy" = Err e
               /\ kind_of e = ConfigError.
Proof. split; [by_compute|]. intros (e & H & _). discriminate H. Qed.

(** ** Lookup *)

Lemma append_cons (x : Ascii.ascii) (a b : string) :
  String x a +:+ b = String x (a +:+ b).
Proof. reflexivity. Qed.

Lemma append_assoc (a b c : string) : (a +:+ b) +:+ c = a +:+ b +:+ c.
Proof. induction a as [|x a IH]; [done|]. rewrite !append_cons. by f_equal. Qed.

Lemma append_nil_r (a : string) : a +:+ "" = a.
Proof. induction a as [|x a IH]; [done|]. rewrite append_cons. by f_equal. Qed.

Lemma append_nil_l (a : string) : "" +:+ a = a.
Proof. done. Qed.

Lemma options_loop_spec (n : Z) (keys : list string) (i : Z) (acc : string) :
  (i + Z.of_nat (length keys) = n)%Z ->
  options_loop (n - 1) (n - 2) i keys acc = acc +:+ options_spec keys.
Proof.
  revert i acc. induction keys as [|k rest IH]; intros i acc Hn.
  - cbn [options_loop options_spec]. by rewrite append_nil_r.
  - cbn [options_loop]. rewrite IH by (simpl in Hn; lia).
    destruct rest as [|k2 [|k3 rest]]; simpl in Hn.
    + rewrite decide_False by lia. rewrite decide_True by lia.
      cbn [options_spec]. unfold quote.
      by rewrite append_nil_r, !append_assoc.
    + rewrite decide_True by lia.
      cbn [options_spec]. unfold quote. rewrite !append_assoc. done.
    + rewrite decide_False by lia. rewrite decide_False by lia.
      change (options_spec (k :: k2 :: k3 :: rest))
        with (quote k +:+ "; " +:+ options_spec (k2 :: k3 :: rest)).
      unfold quote. rewrite !append_assoc. done.
Qed.

Lemma options_of_spec (keys : list string) : options_of keys = options_spec keys.
Proof. unfold options_of. rewrite options_loop_spec by lia. done. Qed.

(** C6 (as amended): on a Variable that has a [__name__] (the objects of
    the subclasses Antecedent and Consequent have one, an object built by
    FuzzyVariable's own constructor has none), looking up a label that is
    not registered raises the lookup error and changes nothing; its message
    ends with the enumeration of the registered labels in insertion order,
    joined with "; ", with ", or " before the last one and a final period;
    with terms a, b, c the enumeration is 'a'; 'b', or 'c'. *)
Theorem getitem_missing_message (s : store) (key name : string) :
  __name__ (self s) = Some name ->
  od_get key (terms (self s)) = None ->
  exists msg,
    getitem key s = (Err (NoSuchTerm msg), s)
    /\ kind_of (NoSuchTerm msg) = LookupError
    /\ msg = "Membership function '" +:+ key +:+ "' does not exist for "
             +:+ name +:+ " " +:+ var_label (self s) +:+ "."
             +:+ newline +:+ "Available options: "
             +:+ options_spec (od_keys (terms (self s)))
    /\ options_spec ["a"; "b"; "c"] = "'a'; 'b', or 'c'.".
Proof.
  intros Hname Hnone. eexists. split; [|split; [done|split; [|done]]].
  - unfold getitem, bind, get_self, raise. rewrite Hnone, Hname. reflexivity.
  - unfold missing_message. by rewrite options_of_spec.
Qed.

Lemma getitem_missing_message_witness :
  __name__ (self abc_store) = Some "Consequent"
  /\ od_get "d" (terms (self abc_store)) = None
  /\ exists msg, getitem "d" abc_store = (Err (NoSuchTerm msg), abc_store)
       /\ msg = "Membership function 'd' does not exist for Consequent tip."
                +:+ newline +:+ "Available options: 'a'; 'b', or 'c'.".
Proof.
  split; [reflexivity|]. split; [reflexivity|].
  destruct (getitem_missing_message abc_store "d" "Consequent" eq_refl eq_refl)
    as (msg & H & _ & Hm & _).
  exists msg. split; [exact H|]. rewrite Hm. reflexivity.
Defined.

(** C6, counterexample: a Variable built by FuzzyVariable's constructor has
    no [__name__]; the lookup of a label that is not registered raises the
    AttributeError of l.138 before any message exists, not a lookup
    error. *)
Lemma getitem_missing_without_name :
  init 7 u3 "tip" "centroid" = Ok bare_variable
  /\ od_get "a" (terms bare_variable) = None
  /\ getitem "a" (mkStore [] bare_variable)
     = (Err MissingName, mkStore [] bare_variable)
  /\ kind_of MissingName <> LookupError.
Proof.
  split; [reflexivity|]. split; [reflexivity|]. split; [reflexivity|].
  discriminate.
Qed.

(** ** Arrays *)

Lemma Qcmax_ge_l (x y : Qc) : x <= Qcmax x y.
Proof. unfold Qcmax. case_decide; [done|apply Qcle_refl]. Qed.

Lemma Qcmax_ge_r (x y : Qc) : y <= Qcmax x y.
Proof.
  unfold Qcmax. case_decide; [apply Qcle_refl|].
  by apply Qclt_le_weak, Qcnot_le_lt.
Qed.

Lemma Qcmin_le_l (x y : Qc) : Qcmin x y <= x.
Proof.
  unfold Qcmin. case_decide; [apply Qcle_refl|].
  by apply Qclt_le_weak, Qcnot_le_lt.
Qed.

Lemma Qcmin_le_r (x y : Qc) : Qcmin x y <= y.
Proof. unfold Qcmin. case_decide; [done|apply Qcle_refl]. Qed.

Lemma foldl_max_bounds (xs : list Qc) (x : Qc) :
  Forall (fun y => y <= foldl Qcmax x xs) (x :: xs).
Proof.
  revert x. induction xs as [|y xs IH]; intros x.
  - constructor; [apply Qcle_refl|constructor].
  - simpl. specialize (IH (Qcmax x y)). inversion IH as [|? ? H1 H2]; subst.
    constructor; [|constructor; [|done]].
    + eapply Qcle_trans; [apply Qcmax_ge_l|exact H1].
    + eapply Qcle_trans; [apply Qcmax_ge_r|exact H1].
Qed.

Lemma foldl_min_bounds (xs : list Qc) (x : Qc) :
  Forall (fun y => foldl Qcmin x xs <= y) (x :: xs).
Proof.
  revert x. induction xs as [|y xs IH]; intros x.
  - constructor; [apply Qcle_refl|constructor].
  - simpl. specialize (IH (Qcmin x y)). inversion IH as [|? ? H1 H2]; subst.
    constructor; [|constructor; [|done]].
    + eapply Qcle_trans; [exact H1|apply Qcmin_le_l].
    + eapply Qcle_trans; [exact H1|apply Qcmin_le_r].
Qed.

Lemma foldl_max_elem (xs : list Qc) (x : Qc) : foldl Qcmax x xs ∈ x :: xs.
Proof.
  revert x. induction xs as [|y xs IH]; intros x; [by apply list_elem_of_here|].
  simpl. specialize (IH (Qcmax x y)). apply elem_of_cons in IH as [IH|IH].
  - rewrite IH. unfold Qcmax. case_decide; [by apply list_elem_of_further, list_elem_of_here|by apply list_elem_of_here].
  - by do 2 apply list_elem_of_further.
Qed.

Lemma foldl_min_elem (xs : list Qc) (x : Qc) : foldl Qcmin x xs ∈ x :: xs.
Proof.
  revert x. induction xs as [|y xs IH]; intros x; [by apply list_elem_of_here|].
  simpl. specialize (IH (Qcmin x y)). apply elem_of_cons in IH as [IH|IH].
  - rewrite IH. unfold Qcmin. case_decide; [by apply list_elem_of_here|by apply list_elem_of_further, list_elem_of_here].
  - by do 2 apply list_elem_of_further.
Qed.

(** The range test of l.170 passes exactly on the curves [in_range]. *)
Lemma range_test (c : list Qc) (mx mn : Qc) :
  np_max c = Ok mx -> np_min c = Ok mn ->
  (~ upper_bound < mx /\ ~ mn < lower_bound) <-> in_range c.
Proof.
  destruct c as [|x xs]; [done|]. simpl. intros [= <-] [= <-].
  pose proof (foldl_max_bounds xs x) as Hmax.
  pose proof (foldl_min_bounds xs x) as Hmin.
  pose proof (foldl_max_elem xs x) as Emax.
  pose proof (foldl_min_elem xs x) as Emin.
  unfold in_range. rewrite !Forall_forall in *. split.
  - intros [H1 H2] y Hy. split.
    + eapply Qcle_trans; [|apply Hmin, Hy]. by apply Qcnot_lt_le.
    + eapply Qcle_trans; [apply Hmax, Hy|]. by apply Qcnot_lt_le.
  - intros H. split; apply Qcle_not_lt.
    + by apply (H _ Emax).
    + by apply (H _ Emin).
Qed.

(** ** Registration *)

Lemma presents_lookup s key it a t h :
  presents s key it a t h -> h !! a = Some t /\ heap s `prefix_of` h.
Proof.
  destruct 1 as [c|a t Ha Hl Hp].
  - split; [|by apply prefix_app_r].
    rewrite lookup_app_r by lia. by rewrite Nat.sub_diag.
  - done.
Qed.

(** What [setitem] evaluates to on an item that passes l.147-155. *)
Lemma setitem_presents s key it a t h :
  presents s key it a t h ->
  setitem key it s =
    match check (self s) t with
    | Some e => (Err e, mkStore h (self s))
    | None => (Ok tt, mkStore (<[a := with_parent (Some (_id (self s))) t]> h)
                              (with_terms (od_set key a (terms (self s))) (self s)))
    end.
Proof.
  intros Hp. pose proof (presents_lookup _ _ _ _ _ _ Hp) as [Hlook _].
  unfold setitem, check. destruct Hp as [c|a t Ha Hl Hpar]; unfold_m.
  - cbn [heap self].
    destruct (_crisp_value_accessed (self s)); [done|].
    cbv beta. cbn [heap self]. rewrite Hlook. cbn [mf].
    case_decide; [|done].
    destruct (np_max c) as [mx|e] eqn:Hmax; [|done].
    destruct (np_min c) as [mn|e] eqn:Hmin.
    + repeat case_decide; done.
    + destruct c; discriminate.
  - destruct s as [hp v]. cbn [heap self] in *.
    rewrite Ha. rewrite decide_True by done. rewrite Hpar. cbn [heap self].
    destruct (_crisp_value_accessed v); [done|].
    cbv beta. cbn [heap self]. rewrite Ha. case_decide; [|done].
    destruct (np_max (mf t)) as [mx|e] eqn:Hmax; [|done].
    destruct (np_min (mf t)) as [mn|e] eqn:Hmin.
    + repeat case_decide; done.
    + destruct (mf t); discriminate.
Qed.

(** What [setitem] evaluates to on a pre-built term that fails l.148-151. *)
Lemma setitem_invalid s key a t :
  heap s !! a = Some t ->
  label t <> key \/ parent_variable t <> None ->
  setitem key (TermObj a) s =
    (Err (if decide (label t = key) then AlreadyBound else LabelMismatch), s).
Proof.
  intros Ha Hbad. unfold setitem. unfold_m. rewrite Ha.
  case_decide; [|done]. destruct (parent_variable t); [done|naive_solver].
Qed.

Lemma check_None v t :
  check v t = None <->
  _crisp_value_accessed v = false /\ length (mf t) = length (universe v)
  /\ mf t <> [] /\ in_range (mf t).
Proof.
  unfold check. destruct (_crisp_value_accessed v); [naive_solver|].
  case_decide as Hlen; [|naive_solver].
  destruct (mf t) as [|x xs] eqn:Hmf; [naive_solver|].
  pose proof (range_test (x :: xs) _ _ eq_refl eq_refl) as Hr.
  cbn [np_max np_min]. repeat case_decide; naive_solver.
Qed.

(** Every way a registration can evaluate. *)
Lemma setitem_cases s key it :
  (exists a, it = TermObj a /\ heap s !! a = None
     /\ setitem key it s = (Err NullReference, s))
  \/ (exists a t, it = TermObj a /\ heap s !! a = Some t
       /\ (label t <> key \/ parent_variable t <> None)
       /\ setitem key it s =
            (Err (if decide (label t = key) then AlreadyBound else LabelMismatch), s))
  \/ (exists a t h, presents s key it a t h).
Proof.
  destruct it as [c|a].
  - right; right. eexists _, _, _. constructor.
  - destruct (heap s !! a) as [t|] eqn:Ha.
    + destruct (decide (label t = key)) as [Hl|Hl].
      * destruct (parent_variable t) as [p|] eqn:Hp.
        -- right; left. exists a, t. split; [done|]. split; [done|].
           split; [right; congruence|].
           rewrite (setitem_invalid s key a t Ha) by (right; congruence).
           done.
        -- right; right. exists a, t, (heap s). by constructor.
      * right; left. exists a, t. split; [done|]. split; [done|].
        split; [by left|]. by rewrite (setitem_invalid s key a t Ha) by (by left).
    + left. exists a. split; [done|]. split; [done|].
      unfold setitem. unfold_m. by rewrite Ha.
Qed.

(** ** How the store evolves *)

Lemma keeps_curves_refl h : keeps_curves h h.
Proof. intros a t Ha. by exists t. Qed.

Lemma keeps_curves_trans h1 h2 h3 :
  keeps_curves h1 h2 -> keeps_curves h2 h3 -> keeps_curves h1 h3.
Proof.
  intros H12 H23 a t Ha.
  destruct (H12 a t Ha) as (t2 & H2 & Hm2 & Hl2).
  destruct (H23 a t2 H2) as (t3 & H3 & Hm3 & Hl3).
  exists t3. split; [done|]. split; congruence.
Qed.

Lemma keeps_curves_prefix h h' : h `prefix_of` h' -> keeps_curves h h'.
Proof. intros Hp a t Ha. exists t. split; [|done]. by eapply prefix_lookup_Some. Qed.

Lemma keeps_curves_insert h a t t' :
  h !! a = Some t -> mf t' = mf t -> label t' = label t ->
  keeps_curves h (<[a := t']> h).
Proof.
  intros Ha Hm Hl b u Hb. destruct (decide (a = b)) as [->|Hne].
  - exists t'. rewrite list_lookup_insert_eq by (by eapply lookup_lt_Some).
    split; [done|]. split; congruence.
  - exists u. by rewrite list_lookup_insert_ne.
Qed.

Lemma wf_keeps s s' :
  keeps_curves (heap s) (heap s') ->
  universe (self s') = universe (self s) ->
  terms (self s') = terms (self s) ->
  wf s -> wf s'.
Proof.
  unfold wf. intros Hk Hu Ht Hwf. rewrite Ht, Hu.
  eapply Forall_impl; [exact Hwf|]. intros e (t & Ha & Hlen & Hne & Hr).
  destruct (Hk _ _ Ha) as (t' & Ha' & Hm & _). exists t'. by rewrite Hm.
Qed.

Lemma evolves_refl s : evolves s s.
Proof. split; [apply keeps_curves_refl|done]. Qed.

Lemma evolves_trans s1 s2 s3 : evolves s1 s2 -> evolves s2 s3 -> evolves s1 s3.
Proof.
  intros (K1 & U1 & L1 & W1) (K2 & U2 & L2 & W2).
  split; [by eapply keeps_curves_trans|]. split; [congruence|]. split; auto.
Qed.

(** A change of the heap alone, or of the lock alone. *)
Lemma evolves_heap s h :
  keeps_curves (heap s) h -> evolves s (mkStore h (self s)).
Proof.
  intros Hk. split; [done|]. split; [done|]. split; [done|].
  by apply wf_keeps.
Qed.

Lemma evolves_accessed s :
  evolves s (mkStore (heap s) (with_accessed true (self s))).
Proof.
  split; [apply keeps_curves_refl|]. split; [done|]. split; [done|].
  apply wf_keeps; [apply keeps_curves_refl|done|done].
Qed.

Lemma evolving_ret {A} (a : A) : evolving (ret a).
Proof. intros s. apply evolves_refl. Qed.

Lemma evolving_raise {A} e : evolving (@raise A e).
Proof. intros s. apply evolves_refl. Qed.

Lemma evolving_lift {A} (r : result A) : evolving (lift r).
Proof. intros s. apply evolves_refl. Qed.

Lemma evolving_get_self : evolving get_self.
Proof. intros s. apply evolves_refl. Qed.

Lemma evolving_deref a : evolving (deref a).
Proof. intros s. unfold deref. case_match; apply evolves_refl. Qed.

Lemma evolving_bind {A B} (m : M A) (k : A -> M B) :
  evolving m -> (forall a, evolving (k a)) -> evolving (bind m k).
Proof.
  intros Hm Hk s. unfold bind. specialize (Hm s).
  destruct (m s) as [[a|e] s1]; [|done].
  eapply evolves_trans; [exact Hm|apply Hk].
Qed.

Lemma evolving_for_each {A} (l : list A) (body : A -> M unit) :
  (forall x, evolving (body x)) -> evolving (for_each l body).
Proof.
  intros Hb. induction l as [|x l IH]; [apply evolving_ret|].
  apply evolving_bind; [apply Hb|done].
Qed.

Lemma evolving_new_term lbl c : evolving (new_term lbl c).
Proof. intros s. apply evolves_heap, keeps_curves_prefix. by apply prefix_app_r. Qed.

Lemma evolving_set_membership_value a d : evolving (set_membership_value a d).
Proof.
  intros s. unfold set_membership_value, bind, deref, assign.
  destruct (heap s !! a) as [t|] eqn:Ha; [|apply evolves_refl].
  apply evolves_heap. by eapply keeps_curves_insert.
Qed.

Lemma evolving_getitem key : evolving (getitem key).
Proof.
  intros s. unfold getitem, bind, get_self.
  repeat case_match; apply evolves_refl.
Qed.

Lemma od_set_elem {V} k (v : V) d e :
  e ∈ od_set k v d -> e = (k, v) \/ e ∈ d.
Proof.
  induction d as [|[k' v'] d IH]; simpl.
  - intros ->%list_elem_of_singleton. by left.
  - case_decide; intros [->|He]%elem_of_cons.
    + by left.
    + right. by apply list_elem_of_further.
    + right. apply list_elem_of_here.
    + destruct (IH He) as [->|Hd]; [by left|right; by apply list_elem_of_further].
Qed.

Lemma evolving_setitem key it : evolving (setitem key it).
Proof.
  intros s.
  destruct (setitem_cases s key it)
    as [(a & _ & _ & ->)|[(a & t & _ & _ & _ & ->)|(a & t & h & Hp)]];
    [apply evolves_refl..|].
  rewrite (setitem_presents _ _ _ _ _ _ Hp).
  destruct (presents_lookup _ _ _ _ _ _ Hp) as [Ha Hpre].
  destruct (check (self s) t) as [e|] eqn:Hc; cbn [snd].
  - apply evolves_heap. by apply keeps_curves_prefix.
  - apply check_None in Hc as (Hlock & Hlen & Hne & Hr).
    assert (keeps_curves (heap s)
              (<[a:=with_parent (Some (_id (self s))) t]> h)) as Hk.
    { eapply keeps_curves_trans; [by apply keeps_curves_prefix|].
      by eapply keeps_curves_insert. }
    split; [done|]. split; [done|]. split; [by rewrite Hlock|].
    intros Hwf. unfold wf. cbn [heap self with_terms terms universe].
    apply Forall_forall. intros e [->|He]%od_set_elem.
    + exists (with_parent (Some (_id (self s))) t). split; [|done].
      cbn [snd]. apply list_lookup_insert_eq. by eapply lookup_lt_Some.
    + unfold wf in Hwf. rewrite Forall_forall in Hwf.
      destruct (Hwf e He) as (t0 & H0 & Hlen0 & Hne0 & Hr0).
      destruct (Hk _ _ H0) as (t1 & H1 & Hm1 & _).
      exists t1. by rewrite Hm1.
Qed.

(** ** Reading and writing the crisp value *)

Lemma find_loop_state items out cuts s :
  (find_loop items out cuts s).2 = s.
Proof.
  revert out cuts. induction items as [|[lbl a] items IH]; intros out cuts; [done|].
  cbn [find_loop]. unfold bind, deref, lift.
  destruct (heap s !! a) as [t|]; [|done].
  destruct (membership_value t) as [cut|]; [|apply IH].
  destruct (np_maximum out (np_minimum cut (mf t))); [apply IH|done].
Qed.

Lemma find_crisp_value_state s : _find_crisp_value s = ((_find_crisp_value s).1, s).
Proof.
  unfold _find_crisp_value, bind, get_self, raise. case_decide; [done|].
  pose proof (find_loop_state (terms (self s))
                (np_zeros_like (universe (self s))) [] s) as Hst.
  destruct (find_loop _ _ _ s) as [r s']. simpl in *. by subst.
Qed.

Section CrispValue.

Variable defuzz : list Qc -> list Qc -> string -> result Qc.
Variable interp_membership : list Qc -> list Qc -> Qc -> Qc.
Variable trimf : list Qc -> abc -> list Qc.

(** The read, step by step: aggregation, the test of l.182, the lock of
    l.186, then [defuzz]. *)
Lemma crisp_value_eval s :
  crisp_value defuzz s =
    match (_find_crisp_value s).1 with
    | Err e => (Err e, s)
    | Ok r =>
        if decide (length r.2 = 0%nat) then (Err NoMemberships, s)
        else (defuzz (universe (self s)) r.1 (defuzzify_method (self s)),
              mkStore (heap s) (with_accessed true (self s)))
    end.
Proof.
  unfold crisp_value, bind. rewrite find_crisp_value_state.
  destruct (_find_crisp_value s).1 as [r|e]; [|done]. cbn [fst snd].
  case_decide; [reflexivity|]. unfold_m. cbn [heap self].
  by destruct (defuzz _ _ _).
Qed.

Lemma evolving_crisp_value : evolving (crisp_value defuzz).
Proof.
  intros s. rewrite crisp_value_eval.
  destruct (_find_crisp_value s).1 as [r|e]; [|apply evolves_refl].
  case_decide; [apply evolves_refl|apply evolves_accessed].
Qed.

Lemma evolving_store_membership adj (f : FuzzyVariableTerm -> option Qc) :
  evolving (t <~ deref adj ;; assign adj (with_membership (f t) t)).
Proof.
  intros s. unfold bind, deref, assign.
  destruct (heap s !! adj) as [t|] eqn:Ha; [|apply evolves_refl].
  apply evolves_heap. by eapply keeps_curves_insert.
Qed.

Lemma evolving_mark_accessed :
  evolving (v <~ get_self ;; put_self (with_accessed true v)).
Proof. intros s. apply evolves_accessed. Qed.

Lemma evolving_crisp_value_set x : evolving (crisp_value_set interp_membership x).
Proof.
  unfold crisp_value_set. apply evolving_bind; [apply evolving_get_self|].
  intros v. case_decide; [apply evolving_raise|].
  apply evolving_bind; [|intros _; apply evolving_mark_accessed].
  apply evolving_for_each. intros [lbl adj].
  apply (evolving_store_membership adj
           (fun t => Some (interp_membership (universe v) (mf t) x))).
Qed.

Lemma evolving_not_getitem key : evolving (not_getitem key).
Proof.
  unfold not_getitem. apply evolving_bind; [apply evolving_get_self|].
  intros v. case_match; [apply evolving_getitem|].
  apply evolving_bind; [apply evolving_getitem|]. intros pos.
  apply evolving_bind; [apply evolving_deref|]. intros posterm.
  apply evolving_bind; [apply evolving_new_term|]. intros negterm.
  apply evolving_bind.
  { case_match; [apply evolving_set_membership_value|apply evolving_ret]. }
  intros _. apply evolving_bind; [apply evolving_setitem|].
  intros _. apply evolving_ret.
Qed.

Lemma evolves_clear s : evolves s (mkStore (heap s) (with_terms [] (self s))).
Proof.
  split; [apply keeps_curves_refl|]. split; [done|]. split; [done|].
  intros _. by apply Forall_nil.
Qed.

(** [automf], step by step: the argument checks, the limits of the
    universe, the clearing of l.320, then the loop of l.323. *)
Lemma automf_eval args s :
  automf trimf args s =
    match automf_names args with
    | Err e => (Err e, s)
    | Ok nn =>
        match np_min (universe (self s)), np_max (universe (self s)) with
        | Ok lo, Ok hi =>
            for_each (zip (if invert args then reverse nn.1 else nn.1)
                          (automf_abcs lo hi nn.2))
              (fun '(name, abc) =>
                 v <~ get_self ;;
                 setitem name (Curve (trimf (universe v) abc)))
              (mkStore (heap s) (with_terms [] (self s)))
        | Err e, _ | _, Err e => (Err e, s)
        end
    end.
Proof.
  unfold automf. unfold bind at 1. unfold lift at 1.
  destruct (automf_names args) as [nn|e]; [|done].
  unfold bind at 1. unfold get_self at 1.
  unfold bind at 1. unfold lift at 1.
  destruct (np_min (universe (self s))) as [lo|e] eqn:Hmin.
  - unfold bind at 1. unfold lift at 1.
    destruct (np_max (universe (self s))) as [hi|e]; [|done].
    unfold bind at 1. unfold put_self at 1. done.
  - destruct (universe (self s)); [|done]. simpl in *. congruence.
Qed.

Lemma evolving_automf args : evolving (automf trimf args).
Proof.
  intros s. rewrite automf_eval.
  destruct (automf_names args) as [nn|e]; [|apply evolves_refl].
  destruct (np_min (universe (self s))) as [lo|e]; [|apply evolves_refl].
  destruct (np_max (universe (self s))) as [hi|e]; [|apply evolves_refl].
  eapply evolves_trans; [apply evolves_clear|].
  apply evolving_for_each. intros [name p].
  apply evolving_bind; [apply evolving_get_self|].
  intros v. apply evolving_setitem.
Qed.

Lemma evolves_exec o s : evolves s (exec defuzz interp_membership trimf o s).
Proof.
  destruct o; cbn [exec].
  - apply evolving_new_term.
  - apply evolving_set_membership_value.
  - apply evolving_setitem.
  - apply evolving_getitem.
  - apply evolving_not_getitem.
  - apply evolving_crisp_value.
  - apply evolving_crisp_value_set.
  - apply evolving_automf.
Qed.

Lemma evolves_exec_all os s :
  evolves s (exec_all defuzz interp_membership trimf os s).
Proof.
  revert s. induction os as [|o os IH]; intros s; [apply evolves_refl|].
  cbn [exec_all foldl]. eapply evolves_trans; [apply evolves_exec|apply IH].
Qed.

End CrispValue.

(** ** Registration: which error *)

Lemma check_out_of_range v t x :
  _crisp_value_accessed v = false ->
  length (mf t) = length (universe v) ->
  x ∈ mf t -> x < lower_bound \/ upper_bound < x ->
  check v t = Some OutOfRange.
Proof.
  intros Hl Hlen Hx Hout.
  destruct (check v t) as [e|] eqn:Hc.
  - revert Hc. unfold check. rewrite Hl. rewrite decide_True by done.
    destruct (mf t) as [|y ys]; [by apply elem_of_nil in Hx|].
    cbn [np_max np_min]. repeat case_decide; congruence.
  - apply check_None in Hc as (_ & _ & _ & Hr).
    unfold in_range in Hr. rewrite Forall_forall in Hr.
    destruct (Hr x Hx) as [H1 H2].
    destruct Hout as [Hlt|Hlt]; by apply Qclt_not_le in Hlt.
Qed.

Section Registration.

Variable defuzz : list Qc -> list Qc -> string -> result Qc.
Variable interp_membership : list Qc -> list Qc -> Qc -> Qc.
Variable trimf : list Qc -> abc -> list Qc.

Lemma fan_out_length f items h : length (fan_out f items h) = length h.
Proof.
  revert h. induction items as [|e items IH]; intros h; [done|].
  cbn [fan_out]. rewrite IH.
  case_match; [apply length_insert|done].
Qed.

Lemma fan_out_lookup f items h a t :
  (forall u, f (f u) = f u) ->
  h !! a = Some t ->
  fan_out f items h !! a = Some (if decide (a ∈ items.*2) then f t else t).
Proof.
  intros Hf. revert h t. induction items as [|[l b] items IH]; intros h t Ha.
  - cbn. rewrite decide_False by apply not_elem_of_nil. done.
  - cbn [fan_out snd].
    destruct (decide (b = a)) as [->|Hne].
    + rewrite Ha. rewrite (IH _ (f t)).
      2:{ apply list_lookup_insert_eq. by eapply lookup_lt_Some. }
      rewrite Hf. cbn [fmap list_fmap snd].
      rewrite (decide_True (P := a ∈ a :: items.*2)); [|apply list_elem_of_here].
      by case_decide.
    + rewrite (IH _ t).
      2:{ destruct (h !! b) as [tb|]; [|done].
          by rewrite list_lookup_insert_ne. }
      f_equal. cbn [fmap list_fmap snd].
      destruct (decide (a ∈ items.*2)) as [Hin|Hin].
      * rewrite decide_True; [done|by apply list_elem_of_further].
      * rewrite decide_False; [done|]. by intros [->|?]%elem_of_cons.
Qed.

(** The loop of the setter on a store whose entries all refer to term
    objects. *)
Lemma for_each_store (g : FuzzyVariableTerm -> FuzzyVariableTerm) items h v :
  Forall (fun e : string * nat => is_Some (h !! e.2)) items ->
  for_each items (fun '(_, adj) => t <~ deref adj ;; assign adj (g t))
           (mkStore h v)
  = (Ok tt, mkStore (fan_out g items h) v).
Proof.
  revert h. induction items as [|[l a] items IH]; intros h Hall; [done|].
  inversion Hall as [|? ? [t Ha] Hrest]; subst. cbn [snd] in Ha.
  cbn [for_each fan_out snd].
  unfold bind at 1. unfold bind at 1. unfold deref at 1. cbn [heap].
  rewrite Ha. unfold assign at 1. cbn [heap self].
  apply IH. eapply Forall_impl; [exact Hrest|].
  intros e He. by rewrite list_lookup_insert_is_Some.
Qed.

Lemma wf_refs s :
  wf s -> Forall (fun e : string * nat => is_Some (heap s !! e.2)) (terms (self s)).
Proof.
  intros Hwf. eapply Forall_impl; [exact Hwf|].
  intros e (t & Ha & _). by exists t.
Qed.

(** The write, step by step. *)
Lemma crisp_value_set_eval x s :
  Forall (fun e : string * nat => is_Some (heap s !! e.2)) (terms (self s)) ->
  crisp_value_set interp_membership x s =
    if decide (length (terms (self s)) = 0%nat) then (Err NoTerms, s)
    else (Ok tt,
          mkStore (fan_out (fun t => with_membership
                              (Some (interp_membership (universe (self s)) (mf t) x)) t)
                           (terms (self s)) (heap s))
                  (with_accessed true (self s))).
Proof.
  intros Hall. unfold crisp_value_set. unfold bind at 1. unfold get_self at 1.
  case_decide; [done|]. unfold bind at 1.
  destruct s as [h v]. cbn [heap self] in *.
  rewrite (for_each_store
             (fun t => with_membership
                         (Some (interp_membership (universe v) (mf t) x)) t)
             (terms v) h v Hall).
  done.
Qed.

Lemma crisp_value_set_locks x s u s' :
  crisp_value_set interp_membership x s = (Ok u, s') ->
  _crisp_value_accessed (self s') = true.
Proof.
  unfold crisp_value_set. unfold bind at 1. unfold get_self at 1.
  case_decide; [done|]. unfold bind at 1.
  destruct (for_each _ _ s) as [[[]|e] s1]; [|done].
  unfold_m. intros Heq. by simplify_eq/=.
Qed.

Lemma crisp_value_locks s x s' :
  crisp_value defuzz s = (Ok x, s') ->
  _crisp_value_accessed (self s') = true.
Proof.
  rewrite crisp_value_eval. destruct (_find_crisp_value s).1 as [r|e]; [|done].
  case_decide; [done|]. by intros [= _ <-].
Qed.

(** C2 (as amended): once a crisp-value read or write has returned, and
    whatever is done with the Variable afterwards, every registration
    fails and changes neither the Variable (terms mapping, lock flag) nor
    any existing term object (parents, degrees). The error is the
    StateError for a raw curve and for a pre-built Term that passes the
    label and parent validation; a pre-built Term with another label or
    with a parent fails that validation first, with ValidationError. *)
Theorem setitem_after_crisp_value (s0 s : store) (os : list op)
    (key : string) (it : item) :
  (exists x, crisp_value defuzz s0 = (Ok x, s))
  \/ (exists x, crisp_value_set interp_membership x s0 = (Ok tt, s)) ->
  let s1 := exec_all defuzz interp_membership trimf os s in
  exists e s',
    setitem key it s1 = (Err e, s')
    /\ self s' = self s1
    /\ heap s1 `prefix_of` heap s'
    /\ ((exists a t h, presents s1 key it a t h) ->
        e = Locked /\ kind_of e = StateError)
    /\ (forall a t, it = TermObj a -> heap s1 !! a = Some t ->
          label t <> key \/ parent_variable t <> None ->
          kind_of e = ValidationError /\ s' = s1).
Proof.
  intros Hlocked s1.
  assert (_crisp_value_accessed (self s1) = true) as Hl.
  { destruct (evolves_exec_all defuzz interp_membership trimf os s)
      as (_ & _ & Hmono & _).
    apply Hmono. destruct Hlocked as [[x Hx]|[x Hx]].
    - by eapply crisp_value_locks.
    - by eapply crisp_value_set_locks. }
  destruct (setitem_cases s1 key it)
    as [(a & -> & Ha & Heq)|[(a & t & -> & Ha & Hbad & Heq)|(a & t & h & Hp)]].
  - exists NullReference, s1. split; [done|]. split; [done|]. split; [done|].
    split.
    + intros (a' & t' & h' & Hp). inversion Hp; congruence.
    + intros a' t' [= <-] Ha'. congruence.
  - eexists _, s1. split; [exact Heq|]. split; [done|]. split; [done|]. split.
    + intros (a' & t' & h' & Hp). inversion Hp; subst.
      destruct Hbad; congruence.
    + intros a' t' [= <-] Ha' _. split; [by case_decide|done].
  - destruct (presents_lookup _ _ _ _ _ _ Hp) as [_ Hpre].
    exists Locked, (mkStore h (self s1)).
    split; [|split; [done|split; [done|split; [done|]]]].
    + rewrite (setitem_presents _ _ _ _ _ _ Hp). unfold check. by rewrite Hl.
    + intros a' t' -> Ha' Hbad. inversion Hp; subst.
      destruct Hbad; congruence.
Qed.

Lemma od_get_set {V} k (v : V) d : od_get k (od_set k v d) = Some v.
Proof.
  induction d as [|[k' v'] d IH]; simpl.
  - by rewrite decide_True.
  - case_decide as Hk; simpl; [by rewrite decide_True|by rewrite decide_False].
Qed.

(** C3 (as amended): a registration that raises has changed neither the
    Variable nor any existing term object, and one that returns has both
    bound the term's parent and inserted it; a crisp-value write that
    raises has changed nothing; a crisp-value read that raises has changed
    nothing when the error comes from the aggregation or from the test for
    a defined degree, and when the error comes from the defuzzification
    itself the locked flag is already set and nothing else has changed.
    The read clause gives the store after each of these errors. *)
Theorem errors_leave_no_partial_mutation (s : store) :
  (forall key it r s', setitem key it s = (r, s') ->
     match r with
     | Err _ => self s' = self s /\ heap s `prefix_of` heap s'
     | Ok _ => exists a t, od_get key (terms (self s')) = Some a
                 /\ heap s' !! a = Some t
                 /\ parent_variable t = Some (_id (self s))
     end)
  /\ (forall x e s', wf s ->
        crisp_value_set interp_membership x s = (Err e, s') -> s' = s)
  /\ (forall e s', crisp_value defuzz s = (Err e, s') ->
        match (_find_crisp_value s).1 with
        | Err e0 => e = e0 /\ s' = s
        | Ok r =>
            if decide (length r.2 = 0%nat) then e = NoMemberships /\ s' = s
            else defuzz (universe (self s)) r.1 (defuzzify_method (self s))
                 = Err e
                 /\ s' = mkStore (heap s) (with_accessed true (self s))
        end).
Proof.
  split; [|split].
  - intros key it r s' Heq.
    destruct (setitem_cases s key it)
      as [(a & _ & _ & Hs)|[(a & t & _ & _ & _ & Hs)|(a & t & h & Hp)]].
    + rewrite Hs in Heq. by simplify_eq.
    + rewrite Hs in Heq. by simplify_eq.
    + rewrite (setitem_presents _ _ _ _ _ _ Hp) in Heq.
      destruct (presents_lookup _ _ _ _ _ _ Hp) as [Ha Hpre].
      destruct (check (self s) t) as [e|]; simplify_eq; [done|].
      exists a, (with_parent (Some (_id (self s))) t).
      cbn [self heap with_terms terms]. split; [apply od_get_set|].
      split; [|done]. apply list_lookup_insert_eq. by eapply lookup_lt_Some.
  - intros x e s' Hwf. rewrite crisp_value_set_eval by by apply wf_refs.
    case_decide; intros Heq; by simplify_eq.
  - intros e s'. rewrite crisp_value_eval.
    destruct (_find_crisp_value s).1 as [r|e'] eqn:Hr.
    + case_decide; intros Heq; by simplify_eq.
    + intros Heq. by simplify_eq.
Qed.

End Registration.

(** *** Registration on closed stores *)

Lemma od_get_elem {V} k (d : list (string * V)) v :
  od_get k d = Some v -> (k, v) ∈ d.
Proof.
  induction d as [|[k' v'] d IH]; simpl; [done|].
  case_decide; intros Heq.
  - simplify_eq. apply list_elem_of_here.
  - by apply list_elem_of_further, IH.
Qed.

(** ** Registration over floating-point numbers *)

Ltac float_cases :=
  repeat match goal with
         | x : IEEE.float |- _ => destruct x
         end;
  cbn [IEEE.lt IEEE.le IEEE.max2 IEEE.min2] in *;
  try done.

Lemma ieee_max2_cases x y : IEEE.max2 x y = x \/ IEEE.max2 x y = y.
Proof. float_cases; try (by left); try (by right). case_match; auto. Qed.

Lemma ieee_min2_cases x y : IEEE.min2 x y = x \/ IEEE.min2 x y = y.
Proof. float_cases; try (by left); try (by right). case_match; auto. Qed.

Lemma ieee_max2_not_nan x y :
  x <> IEEE.NaN -> y <> IEEE.NaN -> IEEE.max2 x y <> IEEE.NaN.
Proof. intros Hx Hy. destruct (ieee_max2_cases x y) as [-> | ->]; done. Qed.

Lemma ieee_min2_not_nan x y :
  x <> IEEE.NaN -> y <> IEEE.NaN -> IEEE.min2 x y <> IEEE.NaN.
Proof. intros Hx Hy. destruct (ieee_min2_cases x y) as [-> | ->]; done. Qed.

Lemma ieee_le_refl x : x <> IEEE.NaN -> IEEE.le x x = true.
Proof. intros Hx. float_cases. apply bool_decide_eq_true, Qcle_refl. Qed.

Lemma ieee_le_total x y :
  x <> IEEE.NaN -> y <> IEEE.NaN -> IEEE.le x y = false -> IEEE.le y x = true.
Proof.
  intros Hx Hy. float_cases. intros Hle%bool_decide_eq_false.
  apply bool_decide_eq_true. by apply Qclt_le_weak, Qcnot_le_lt.
Qed.

Lemma ieee_le_trans x y z :
  IEEE.le x y = true -> IEEE.le y z = true -> IEEE.le x z = true.
Proof.
  float_cases. intros H1%bool_decide_eq_true H2%bool_decide_eq_true.
  apply bool_decide_eq_true. by eapply Qcle_trans.
Qed.

Lemma ieee_lt_le_trans x y z :
  IEEE.lt x y = true -> IEEE.le y z = true -> IEEE.lt x z = true.
Proof.
  float_cases. intros H1%bool_decide_eq_true H2%bool_decide_eq_true.
  apply bool_decide_eq_true. by eapply Qclt_le_trans.
Qed.

Lemma ieee_le_lt_trans x y z :
  IEEE.le x y = true -> IEEE.lt y z = true -> IEEE.lt x z = true.
Proof.
  float_cases. intros H1%bool_decide_eq_true H2%bool_decide_eq_true.
  apply bool_decide_eq_true. by eapply Qcle_lt_trans.
Qed.

Lemma ieee_max2_ge x y :
  x <> IEEE.NaN -> y <> IEEE.NaN ->
  IEEE.le x (IEEE.max2 x y) = true /\ IEEE.le y (IEEE.max2 x y) = true.
Proof.
  intros Hx Hy.
  assert (IEEE.max2 x y = if IEEE.le x y then y else x) as ->
    by (by destruct x, y).
  destruct (IEEE.le x y) eqn:Hle.
  - split; [done|by apply ieee_le_refl].
  - split; [by apply ieee_le_refl|by apply ieee_le_total].
Qed.

Lemma ieee_min2_le x y :
  x <> IEEE.NaN -> y <> IEEE.NaN ->
  IEEE.le (IEEE.min2 x y) x = true /\ IEEE.le (IEEE.min2 x y) y = true.
Proof.
  intros Hx Hy.
  assert (IEEE.min2 x y = if IEEE.le x y then x else y) as ->
    by (by destruct x, y).
  destruct (IEEE.le x y) eqn:Hle.
  - split; [by apply ieee_le_refl|done].
  - split; [by apply ieee_le_total|by apply ieee_le_refl].
Qed.

Lemma ieee_foldl_max2_nan xs : foldl IEEE.max2 IEEE.NaN xs = IEEE.NaN.
Proof. induction xs as [|z xs IH]; [done|]. exact IH. Qed.

Lemma ieee_foldl_min2_nan xs : foldl IEEE.min2 IEEE.NaN xs = IEEE.NaN.
Proof. induction xs as [|z xs IH]; [done|]. exact IH. Qed.

(** The maximum of an array: NaN as soon as the array holds one, and
    otherwise one of its elements, above all of them. *)
Lemma ieee_foldl_max2 xs :
  forall x,
  (IEEE.NaN ∈ x :: xs -> foldl IEEE.max2 x xs = IEEE.NaN)
  /\ (IEEE.NaN ∉ x :: xs ->
      foldl IEEE.max2 x xs ∈ x :: xs
      /\ forall y, y ∈ x :: xs -> IEEE.le y (foldl IEEE.max2 x xs) = true).
Proof.
  induction xs as [|z xs IH]; intros x.
  - split.
    + by intros ->%list_elem_of_singleton.
    + intros Hx. split; [apply list_elem_of_here|].
      intros y ->%list_elem_of_singleton. apply ieee_le_refl.
      cbn [foldl]. intros ->. apply Hx, list_elem_of_here.
  - cbn [foldl]. destruct (IH (IEEE.max2 x z)) as [IHnan IHfin]. split.
    + intros [<-|[<-|Hin]%elem_of_cons]%elem_of_cons.
      * apply ieee_foldl_max2_nan.
      * destruct x; apply ieee_foldl_max2_nan.
      * apply IHnan. by apply list_elem_of_further.
    + intros Hnot.
      apply not_elem_of_cons in Hnot as [Hx Hnot].
      apply not_elem_of_cons in Hnot as [Hz Hnot].
      destruct IHfin as [Hin Hge].
      { apply not_elem_of_cons. split; [|done].
        intros Heq. by apply (ieee_max2_not_nan x z). }
      destruct (ieee_max2_ge x z) as [Hgx Hgz]; [done..|].
      split.
      * apply elem_of_cons in Hin as [Heq|Hin].
        -- rewrite Heq. destruct (ieee_max2_cases x z) as [-> | ->].
           ++ apply list_elem_of_here.
           ++ apply list_elem_of_further, list_elem_of_here.
        -- by do 2 apply list_elem_of_further.
      * intros y [->|[->|Hy]%elem_of_cons]%elem_of_cons.
        -- eapply ieee_le_trans; [exact Hgx|]. apply Hge, list_elem_of_here.
        -- eapply ieee_le_trans; [exact Hgz|]. apply Hge, list_elem_of_here.
        -- by apply Hge, list_elem_of_further.
Qed.

Lemma ieee_foldl_min2 xs :
  forall x,
  (IEEE.NaN ∈ x :: xs -> foldl IEEE.min2 x xs = IEEE.NaN)
  /\ (IEEE.NaN ∉ x :: xs ->
      foldl IEEE.min2 x xs ∈ x :: xs
      /\ forall y, y ∈ x :: xs -> IEEE.le (foldl IEEE.min2 x xs) y = true).
Proof.
  induction xs as [|z xs IH]; intros x.
  - split.
    + by intros ->%list_elem_of_singleton.
    + intros Hx. split; [apply list_elem_of_here|].
      intros y ->%list_elem_of_singleton. apply ieee_le_refl.
      cbn [foldl]. intros ->. apply Hx, list_elem_of_here.
  - cbn [foldl]. destruct (IH (IEEE.min2 x z)) as [IHnan IHfin]. split.
    + intros [<-|[<-|Hin]%elem_of_cons]%elem_of_cons.
      * apply ieee_foldl_min2_nan.
      * destruct x; apply ieee_foldl_min2_nan.
      * apply IHnan. by apply list_elem_of_further.
    + intros Hnot.
      apply not_elem_of_cons in Hnot as [Hx Hnot].
      apply not_elem_of_cons in Hnot as [Hz Hnot].
      destruct IHfin as [Hin Hge].
      { apply not_elem_of_cons. split; [|done].
        intros Heq. by apply (ieee_min2_not_nan x z). }
      destruct (ieee_min2_le x z) as [Hgx Hgz]; [done..|].
      split.
      * apply elem_of_cons in Hin as [Heq|Hin].
        -- rewrite Heq. destruct (ieee_min2_cases x z) as [-> | ->].
           ++ apply list_elem_of_here.
           ++ apply list_elem_of_further, list_elem_of_here.
        -- by do 2 apply list_elem_of_further.
      * intros y [->|[->|Hy]%elem_of_cons]%elem_of_cons.
        -- eapply ieee_le_trans; [|exact Hgx]. apply Hge, list_elem_of_here.
        -- eapply ieee_le_trans; [|exact Hgz]. apply Hge, list_elem_of_here.
        -- by apply Hge, list_elem_of_further.
Qed.

Lemma ieee_within x :
  x <> IEEE.NaN ->
  IEEE.lt (IEEE.Fin upper_bound) x = false /\ IEEE.lt x (IEEE.Fin lower_bound) = false
  <-> IEEE.within x.
Proof.
  intros Hx. destruct x as [q| | |]; cbn [IEEE.lt IEEE.within]; try naive_solver.
  rewrite !bool_decide_eq_false. split.
  - intros [H1 H2]. split; by apply Qcnot_lt_le.
  - intros [H1 H2]. split; by apply Qcle_not_lt.
Qed.

(** The test of l.170, on the samples: the extrema are within the bounds
    exactly when the curve holds a NaN or has all its samples in range. *)
Lemma ieee_range_test (c : list IEEE.float) (mx mn : IEEE.float) :
  IEEE.np_max c = Ok mx -> IEEE.np_min c = Ok mn ->
  (IEEE.lt (IEEE.Fin upper_bound) mx = false
   /\ IEEE.lt mn (IEEE.Fin lower_bound) = false)
  <-> IEEE.passes c.
Proof.
  destruct c as [|x xs]; [done|]. cbn [IEEE.np_max IEEE.np_min].
  intros [= <-] [= <-].
  destruct (ieee_foldl_max2 xs x) as [Hmaxnan Hmax].
  destruct (ieee_foldl_min2 xs x) as [Hminnan Hmin].
  unfold IEEE.passes.
  destruct (decide (IEEE.NaN ∈ x :: xs)) as [Hnan|Hnan].
  - rewrite (Hmaxnan Hnan), (Hminnan Hnan). split; [by left|done].
  - destruct (Hmax Hnan) as [Emax Gmax]. destruct (Hmin Hnan) as [Emin Gmin].
    split.
    + intros [H1 H2]. right. rewrite Forall_forall. intros y Hy.
      apply ieee_within; [by intros ->|]. split.
      * destruct (IEEE.lt (IEEE.Fin upper_bound) y) eqn:Hlt; [|done].
        rewrite <- H1. symmetry.
        eapply ieee_lt_le_trans; [exact Hlt|by apply Gmax].
      * destruct (IEEE.lt y (IEEE.Fin lower_bound)) eqn:Hlt; [|done].
        rewrite <- H2. symmetry.
        eapply ieee_le_lt_trans; [by apply Gmin|exact Hlt].
    + intros [Hin|Hall]; [done|]. rewrite Forall_forall in Hall. split.
      * apply (ieee_within (foldl IEEE.max2 x xs)); [by intros Heq; rewrite Heq in Emax|].
        by apply Hall.
      * apply (ieee_within (foldl IEEE.min2 x xs)); [by intros Heq; rewrite Heq in Emin|].
        by apply Hall.
Qed.

Lemma ieee_presents_lookup s key it a t h :
  IEEE.presents s key it a t h ->
  h !! a = Some t /\ forall b u, IEEE.heap s !! b = Some u -> h !! b = Some u.
Proof.
  intros [c|a' t' Ha Hl Hp].
  - split.
    + by rewrite lookup_app_r, Nat.sub_diag.
    + intros b u Hb. by apply lookup_app_l_Some.
  - done.
Qed.

Lemma ieee_setitem_presents s key it a t h :
  IEEE.presents s key it a t h ->
  IEEE.setitem key it s =
    match IEEE.check (IEEE.self s) t with
    | Some e => (Err e, IEEE.mkStore h (IEEE.self s))
    | None =>
        (Ok tt,
         IEEE.mkStore (<[a := IEEE.with_parent (Some (IEEE._id (IEEE.self s))) t]> h)
           (IEEE.with_terms (od_set key a (IEEE.terms (IEEE.self s))) (IEEE.self s)))
    end.
Proof.
  intros Hp. pose proof (ieee_presents_lookup _ _ _ _ _ _ Hp) as [Hlook _].
  unfold IEEE.setitem, IEEE.check. destruct Hp as [c|a t Ha Hl Hpar].
  - cbn [IEEE.new_term IEEE.heap IEEE.self].
    destruct (IEEE._crisp_value_accessed (IEEE.self s)); [done|].
    rewrite Hlook. cbn [IEEE.mf].
    case_decide; [|done].
    destruct (IEEE.np_max c) as [mx|e]; [|done].
    destruct (IEEE.lt (IEEE.Fin upper_bound) mx); [done|].
    destruct (IEEE.np_min c) as [mn|e]; [|done].
    by destruct (IEEE.lt mn (IEEE.Fin lower_bound)).
  - rewrite Ha. rewrite decide_True by done. rewrite Hpar.
    destruct s as [h v]. cbn [IEEE.heap IEEE.self] in *.
    destruct (IEEE._crisp_value_accessed v); [done|].
    rewrite Ha. case_decide; [|done].
    destruct (IEEE.np_max (IEEE.mf t)) as [mx|e]; [|done].
    destruct (IEEE.lt (IEEE.Fin upper_bound) mx); [done|].
    destruct (IEEE.np_min (IEEE.mf t)) as [mn|e]; [|done].
    by destruct (IEEE.lt mn (IEEE.Fin lower_bound)).
Qed.

Lemma ieee_setitem_invalid s key a t :
  IEEE.heap s !! a = Some t ->
  IEEE.label t <> key \/ IEEE.parent_variable t <> None ->
  IEEE.setitem key (IEEE.TermObj a) s =
    (Err (if decide (IEEE.label t = key) then AlreadyBound else LabelMismatch), s).
Proof.
  intros Ha Hbad. unfold IEEE.setitem. rewrite Ha.
  case_decide; [|done]. destruct (IEEE.parent_variable t); [done|naive_solver].
Qed.

(** Every way a registration can evaluate. *)
Lemma ieee_setitem_cases s key it :
  (exists a, it = IEEE.TermObj a /\ IEEE.heap s !! a = None
     /\ IEEE.setitem key it s = (Err NullReference, s))
  \/ (exists a t, it = IEEE.TermObj a /\ IEEE.heap s !! a = Some t
       /\ (IEEE.label t <> key \/ IEEE.parent_variable t <> None)
       /\ IEEE.setitem key it s =
            (Err (if decide (IEEE.label t = key) then AlreadyBound
                  else LabelMismatch), s))
  \/ (exists a t h, IEEE.presents s key it a t h).
Proof.
  destruct it as [c|a].
  - right; right. eexists _, _, _. constructor.
  - destruct (IEEE.heap s !! a) as [t|] eqn:Ha.
    + destruct (decide (IEEE.label t = key)) as [Hl|Hl].
      * destruct (IEEE.parent_variable t) as [p|] eqn:Hp.
        -- right; left. exists a, t. split; [done|]. split; [done|].
           split; [right; congruence|].
           apply ieee_setitem_invalid; [done|right; congruence].
        -- right; right. exists a, t, (IEEE.heap s). by constructor.
      * right; left. exists a, t. split; [done|]. split; [done|].
        split; [by left|]. apply ieee_setitem_invalid; [done|by left].
    + left. exists a. split; [done|]. split; [done|].
      unfold IEEE.setitem. by rewrite Ha.
Qed.

Lemma ieee_check_None v t :
  IEEE.check v t = None <->
  IEEE._crisp_value_accessed v = false
  /\ length (IEEE.mf t) = length (IEEE.universe v)
  /\ IEEE.mf t <> [] /\ IEEE.passes (IEEE.mf t).
Proof.
  unfold IEEE.check. destruct (IEEE._crisp_value_accessed v); [naive_solver|].
  case_decide as Hlen; [|naive_solver].
  destruct (IEEE.mf t) as [|x xs] eqn:Hmf; [naive_solver|].
  pose proof (ieee_range_test (x :: xs) _ _ eq_refl eq_refl) as Hr.
  cbn [IEEE.np_max IEEE.np_min].
  destruct (IEEE.lt (IEEE.Fin upper_bound) (foldl IEEE.max2 x xs)) eqn:H1;
    [naive_solver|].
  destruct (IEEE.lt (foldl IEEE.min2 x xs) (IEEE.Fin lower_bound)) eqn:H2;
    naive_solver.
Qed.







(** *** The finite numbers *)

Lemma ieee_foldl_max2_fin xs :
  forall x, foldl IEEE.max2 (IEEE.Fin x) (IEEE.Fin <$> xs)
            = IEEE.Fin (foldl Qcmax x xs).
Proof.
  induction xs as [|z xs IH]; intros x; [done|].
  cbn [fmap list_fmap foldl]. rewrite <- IH. f_equal.
  unfold Qcmax. cbn [IEEE.max2 IEEE.le]. by case_decide; case_bool_decide.
Qed.

Lemma ieee_foldl_min2_fin xs :
  forall x, foldl IEEE.min2 (IEEE.Fin x) (IEEE.Fin <$> xs)
            = IEEE.Fin (foldl Qcmin x xs).
Proof.
  induction xs as [|z xs IH]; intros x; [done|].
  cbn [fmap list_fmap foldl]. rewrite <- IH. f_equal.
  unfold Qcmin. cbn [IEEE.min2 IEEE.le]. by case_decide; case_bool_decide.
Qed.

Lemma ieee_check_of v t : IEEE.check (of_var v) (of_term t) = check v t.
Proof.
  unfold IEEE.check, check, of_var, of_term.
  cbn [IEEE._crisp_value_accessed IEEE.mf IEEE.universe].
  destruct (_crisp_value_accessed v); [done|]. rewrite !length_fmap.
  case_decide; [|done]. destruct (mf t) as [|x xs]; [done|].
  cbn [fmap list_fmap IEEE.np_max IEEE.np_min np_max np_min].
  rewrite ieee_foldl_max2_fin, ieee_foldl_min2_fin. cbn [IEEE.lt].
  by repeat (case_decide; case_bool_decide; try done).
Qed.

(** On finite numbers the registration over floats is [setitem]: the same
    result, and the same store. *)
Lemma setitem_of_store (s : store) (key : string) (it : item) :
  IEEE.setitem key (of_item it) (of_store s)
  = ((setitem key it s).1, of_store (setitem key it s).2).
Proof.
  destruct (setitem_cases s key it)
    as [(a & -> & Ha & ->)|[(a & t & -> & Ha & Hbad & ->)|(a & t & h & Hp)]].
  - unfold IEEE.setitem, of_item, of_store. cbn [IEEE.heap].
    by rewrite list_lookup_fmap, Ha.
  - cbn [of_item fst snd].
    rewrite (ieee_setitem_invalid (of_store s) key a (of_term t)).
    + done.
    + unfold of_store. cbn [IEEE.heap]. by rewrite list_lookup_fmap, Ha.
    + cbn. destruct Hbad; [by left|by right].
  - rewrite (setitem_presents _ _ _ _ _ _ Hp).
    assert (IEEE.presents (of_store s) key (of_item it) a (of_term t)
                          (of_term <$> h)) as Hp'.
    { destruct Hp as [c|a t Ha Hl Hpar]; cbn [of_item].
      - rewrite fmap_app.
        replace (length (heap s)) with (length (IEEE.heap (of_store s)))
          by (unfold of_store; cbn; apply length_fmap).
        apply (IEEE.presents_curve (of_store s) key (IEEE.Fin <$> c)).
      - apply IEEE.presents_term; [|done|done].
        unfold of_store. cbn [IEEE.heap]. by rewrite list_lookup_fmap, Ha. }
    rewrite (ieee_setitem_presents _ _ _ _ _ _ Hp').
    change (IEEE.self (of_store s)) with (of_var (self s)).
    rewrite ieee_check_of. destruct (check (self s) t) as [e|]; [done|].
    cbn [fst snd]. unfold of_store. cbn [heap self].
    by rewrite list_fmap_insert.
Qed.

Lemma setitem_after_crisp_value_witness :
  crisp_value_set linear_interp 1 abc_store = (Ok tt, written_store)
  /\ exists e s',
       setitem "d" (Curve [0; 0; 0])
         (exec_all defuzz_spec linear_interp trimf_spec
            [SetMembership 0 (Some 1); ReadCrisp] written_store)
       = (Err e, s')
       /\ e = Locked.
Proof.
  assert (crisp_value_set linear_interp 1 abc_store = (Ok tt, written_store))
    as Hw by by_compute.
  split; [exact Hw|].
  destruct (setitem_after_crisp_value defuzz_spec linear_interp trimf_spec
              abc_store written_store [SetMembership 0 (Some 1); ReadCrisp]
              "d" (Curve [0; 0; 0]) (or_intror (ex_intro _ 1 Hw)))
    as (e & s' & Heq & _ & _ & Hst & _).
  exists e, s'. split; [exact Heq|].
  apply Hst. eexists _, _, _. apply presents_curve.
Defined.

(** C2, counterexample: after a crisp-value write, the registration of a
    pre-built Term under a key that is not its label fails, but not with a
    StateError. *)
Lemma setitem_locked_not_state_error :
  crisp_value_set linear_interp 1 abc_store = (Ok tt, written_store)
  /\ written_detached = exec defuzz_spec linear_interp trimf_spec
                          (NewTerm "hi" [0; 0; 1]) written_store
  /\ exists e, (setitem "lo" (TermObj 3) written_detached).1 = Err e
               /\ kind_of e <> StateError.
Proof.
  split; [by_compute|]. split; [reflexivity|].
  exists LabelMismatch. split; [by_compute|discriminate].
Qed.

Lemma errors_leave_no_partial_mutation_witness :
  (exists a t, od_get "lo" (terms (self (setitem "lo" (Curve [1; qc 1 2; 0]) s0).2)) = Some a
               /\ heap (setitem "lo" (Curve [1; qc 1 2; 0]) s0).2 !! a = Some t
               /\ parent_variable t = Some 7%nat)
  /\ (crisp_value defuzz_spec s0).2 = s0.
Proof.
  destruct (errors_leave_no_partial_mutation defuzz_spec linear_interp s0)
    as (Hset & _ & Hread).
  split.
  - apply (Hset "lo" (Curve [1; qc 1 2; 0]) (Ok tt)
             (setitem "lo" (Curve [1; qc 1 2; 0]) s0).2).
    by_compute.
  - assert (crisp_value defuzz_spec s0
            = (Err NoTerms, (crisp_value defuzz_spec s0).2)) as Heq
      by by_compute.
    pose proof (Hread NoTerms (crisp_value defuzz_spec s0).2 Heq) as Hr.
    hnf in Hr. exact (proj2 Hr).
Defined.

(** C3, counterexample: the only curve is identically zero and has a
    degree, so the centroid defuzzification raises; the read raises and
    has set the locked flag, which was not set before. *)
Lemma crisp_value_error_sets_lock :
  _crisp_value_accessed (self zero_store) = false
  /\ (crisp_value defuzz_spec zero_store).1 = Err ZeroArea
  /\ kind_of ZeroArea = DegenerateResultError
  /\ _crisp_value_accessed (self (crisp_value defuzz_spec zero_store).2) = true.
Proof. repeat split; by_compute. Qed.

(** ** Aggregation *)

Lemma od_set_not_nil {V} k (v : V) d : od_set k v d <> [].
Proof. destruct d as [|[k' v'] d]; simpl; [done|by case_decide]. Qed.

Lemma find_loop_eval s items :
  forall out cuts,
  Forall (fun e : string * nat =>
            exists t, heap s !! e.2 = Some t /\ length (mf t) = length out) items ->
  exists cuts',
    find_loop items out cuts s
    = (Ok (foldl (zip_with Qcmax) out (rows_of (heap s) items), cuts'), s)
    /\ (cuts' = [] <-> cuts = [] /\ rows_of (heap s) items = []).
Proof.
  induction items as [|[lbl a] items IH]; intros out cuts Hall.
  - exists cuts. split; [done|]. by split; [|intros [? _]].
  - inversion Hall as [|? ? (t & Ha & Hlen) Hrest]; subst. cbn [snd] in Ha.
    cbn [find_loop]. unfold bind at 1. unfold deref at 1. rewrite Ha.
    unfold rows_of. cbn [omap list_omap snd]. rewrite Ha.
    destruct (membership_value t) as [cut|]; cbn [fmap option_fmap option_map].
    + unfold bind at 1. unfold lift at 1. unfold np_maximum, np_minimum.
      rewrite decide_True by (by rewrite length_map).
      destruct (IH (zip_with Qcmax out (map (Qcmin cut) (mf t)))
                   (od_set lbl (map (Qcmin cut) (mf t)) cuts)) as (cuts' & Heq & Hnil).
      { eapply Forall_impl; [exact Hrest|]. intros e (t' & Ha' & Hlen').
        exists t'. split; [done|].
        rewrite length_zip_with, length_map. lia. }
      exists cuts'. split; [exact Heq|]. split.
      * intros [Hc _]%Hnil. by apply od_set_not_nil in Hc.
      * by intros [_ ?].
    + apply IH. exact Hrest.
Qed.

Lemma foldl_zip_max_length rows out :
  Forall (fun r : list Qc => length r = length out) rows ->
  length (foldl (zip_with Qcmax) out rows) = length out.
Proof.
  revert out. induction rows as [|r rows IH]; intros out Hall; [done|].
  inversion Hall as [|? ? Hr Hrest]; subst. cbn [foldl].
  rewrite IH; [rewrite length_zip_with; lia|].
  eapply Forall_impl; [exact Hrest|]. intros r' Hr'. cbv beta in Hr'.
  rewrite length_zip_with. lia.
Qed.

Lemma foldl_zip_max_lookup rows out i o :
  Forall (fun r : list Qc => length r = length out) rows ->
  out !! i = Some o ->
  foldl (zip_with Qcmax) out rows !! i
  = Some (foldl Qcmax o ((fun r => nth i r 0) <$> rows)).
Proof.
  revert out o. induction rows as [|r rows IH]; intros out o Hall Ho; [done|].
  inversion Hall as [|? ? Hr Hrest]; subst. cbn [foldl fmap list_fmap].
  destruct (lookup_lt_is_Some_2 r i) as [x Hx].
  { rewrite Hr. by eapply lookup_lt_Some. }
  rewrite (nth_lookup_Some _ _ _ _ Hx).
  apply IH.
  - eapply Forall_impl; [exact Hrest|]. intros r' Hr'. cbv beta in Hr'.
    rewrite length_zip_with. lia.
  - rewrite lookup_zip_with. rewrite Ho, Hx. done.
Qed.

Lemma rows_of_lengths s :
  wf s -> Forall (fun r : list Qc => length r = length (universe (self s))) (cut_rows s).
Proof.
  unfold wf, cut_rows. generalize (terms (self s)) as items.
  induction items as [|e items IH]; intros Hwf; [constructor|].
  inversion Hwf as [|? ? (t & Ha & Hlen & _) Hrest]; subst.
  unfold rows_of. cbn [omap list_omap]. rewrite Ha.
  destruct (membership_value t) as [d|]; cbn [fmap option_fmap option_map].
  - constructor; [by rewrite length_map|by apply IH].
  - by apply IH.
Qed.

Lemma cut_rows_nil s : wf s -> cut_rows s = [] <-> ~ has_degree s.
Proof.
  unfold wf, cut_rows, has_degree. generalize (terms (self s)) as items.
  induction items as [|e items IH]; intros Hwf.
  - split; [|done]. intros _ (e & t & d & He & _). by apply elem_of_nil in He.
  - inversion Hwf as [|? ? (t & Ha & _) Hrest]; subst.
    unfold rows_of. cbn [omap list_omap]. rewrite Ha.
    destruct (membership_value t) as [d|] eqn:Hd;
      cbn [fmap option_fmap option_map].
    + split; [done|]. intros Hno. exfalso. apply Hno.
      exists e, t, d. split; [apply list_elem_of_here|done].
    + fold (rows_of (heap s) items). rewrite (IH Hrest). split.
      * intros Hno (e' & t' & d' & [->|He']%elem_of_cons & Ha' & Hd').
        -- congruence.
        -- apply Hno. by exists e', t', d'.
      * intros Hno (e' & t' & d' & He' & Ha' & Hd'). apply Hno.
        exists e', t', d'. split; [by apply list_elem_of_further|done].
Qed.

(** The aggregation of a store that satisfies the invariant. *)
Lemma find_crisp_value_eval s :
  wf s -> terms (self s) <> [] ->
  exists cuts,
    (_find_crisp_value s).1
    = Ok (foldl (zip_with Qcmax) (np_zeros_like (universe (self s))) (cut_rows s),
          cuts)
    /\ (cuts = [] <-> cut_rows s = []).
Proof.
  intros Hwf Hne. unfold _find_crisp_value, bind, get_self.
  rewrite decide_False.
  2:{ unfold od_keys. rewrite length_fmap. by destruct (terms (self s)). }
  destruct (find_loop_eval s (terms (self s))
              (np_zeros_like (universe (self s))) []) as (cuts & Heq & Hnil).
  { eapply Forall_impl; [exact Hwf|]. intros e (t & Ha & Hlen & _).
    exists t. split; [done|]. unfold np_zeros_like. by rewrite length_map. }
  exists cuts. rewrite Heq. split; [done|]. rewrite Hnil. naive_solver.
Qed.

Lemma has_degree_terms s : has_degree s -> terms (self s) <> [].
Proof.
  intros (e & t & d & He & _) Hnil. rewrite Hnil in He.
  by apply elem_of_nil in He.
Qed.

Section Defuzzification.

Variable defuzz : list Qc -> list Qc -> string -> result Qc.

(** The read of a store in which some term has a degree: [defuzz] is
    applied to the aggregated curve, and only the lock flag changes. *)
Lemma crisp_value_with_degree s :
  wf s -> has_degree s ->
  exists cuts,
    (_find_crisp_value s).1
    = Ok (foldl (zip_with Qcmax) (np_zeros_like (universe (self s))) (cut_rows s),
          cuts)
    /\ crisp_value defuzz s
       = (defuzz (universe (self s))
                 (foldl (zip_with Qcmax) (np_zeros_like (universe (self s)))
                        (cut_rows s))
                 (defuzzify_method (self s)),
          mkStore (heap s) (with_accessed true (self s))).
Proof.
  intros Hwf Hdeg.
  destruct (find_crisp_value_eval s Hwf (has_degree_terms s Hdeg))
    as (cuts & Heq & Hnil).
  exists cuts. split; [exact Heq|]. rewrite crisp_value_eval, Heq. cbn [fst snd].
  rewrite decide_False; [done|].
  intros Hlen. apply nil_length_inv in Hlen. apply Hnil in Hlen.
  by apply (cut_rows_nil s Hwf) in Hlen.
Qed.

(** C1 (as amended): when the aggregated crisp value is read, the curve
    handed to the defuzzification has the universe's length and equals, at
    every universe sample, the maximum of 0 and of the cut values
    min(degree, curve) of exactly those terms whose degree is defined: it
    starts from the zero curve, so it is never below 0, and it is the
    maximum of the cut values alone wherever one of them is not negative;
    terms with unset degree contribute nothing. *)
Theorem aggregated_curve (s : store) :
  wf s -> has_degree s ->
  exists agg cuts,
    (_find_crisp_value s).1 = Ok (agg, cuts)
    /\ crisp_value defuzz s
       = (defuzz (universe (self s)) agg (defuzzify_method (self s)),
          mkStore (heap s) (with_accessed true (self s)))
    /\ length agg = length (universe (self s))
    /\ forall i, (i < length (universe (self s)))%nat ->
         exists x, agg !! i = Some x
           /\ x = foldl Qcmax 0 (cut_column s i)
           /\ Forall (fun y => y <= x) (0 :: cut_column s i)
           /\ x ∈ 0 :: cut_column s i
           /\ ((exists y, y ∈ cut_column s i /\ 0 <= y) ->
               x ∈ cut_column s i).
Proof.
  intros Hwf Hdeg.
  destruct (crisp_value_with_degree s Hwf Hdeg) as (cuts & Hfind & Hread).
  pose proof (rows_of_lengths s Hwf) as Hrows.
  assert (Forall (fun r : list Qc =>
                    length r = length (np_zeros_like (universe (self s))))
                 (cut_rows s)) as Hrows'.
  { unfold np_zeros_like. by rewrite length_map. }
  eexists _, cuts. split; [exact Hfind|]. split; [exact Hread|]. split.
  - rewrite foldl_zip_max_length by done. unfold np_zeros_like. by rewrite length_map.
  - intros i Hi. eexists. split; [|split; [reflexivity|split; [|split]]].
    + apply foldl_zip_max_lookup; [done|].
      unfold np_zeros_like. rewrite list_lookup_fmap.
      destruct (lookup_lt_is_Some_2 (universe (self s)) i Hi) as [u ->]. done.
    + apply foldl_max_bounds.
    + apply foldl_max_elem.
    + intros (y & Hy & Hpos).
      pose proof (foldl_max_elem (cut_column s i) 0) as [Hx|Hx]%elem_of_cons;
        [|done].
      pose proof (foldl_max_bounds (cut_column s i) 0) as Hb.
      rewrite Forall_forall in Hb.
      assert (y <= foldl Qcmax 0 (cut_column s i)) as Hle
        by (by apply Hb, list_elem_of_further).
      rewrite Hx in Hle |- *.
      by rewrite <- (Qcle_antisym _ _ Hle Hpos).
Qed.

(** C8 (as amended): reading the aggregated crisp value fails with
    StateError, and changes nothing, when no registered term has a defined
    degree (in particular when no term is registered); otherwise the read
    returns what the defuzzification of the aggregated curve returns, a
    scalar or its error, and in both cases leaves the term set and every
    term object, with its curve and degree, unchanged. *)
Theorem crisp_value_read (s : store) :
  wf s ->
  (~ has_degree s ->
     exists e, crisp_value defuzz s = (Err e, s) /\ kind_of e = StateError)
  /\ (has_degree s ->
      exists agg cuts s',
        (_find_crisp_value s).1 = Ok (agg, cuts)
        /\ crisp_value defuzz s
           = (defuzz (universe (self s)) agg (defuzzify_method (self s)), s')
        /\ terms (self s') = terms (self s)
        /\ heap s' = heap s).
Proof.
  intros Hwf. split.
  - intros Hno. rewrite crisp_value_eval.
    destruct (decide (terms (self s) = [])) as [Hnil|Hne].
    + unfold _find_crisp_value, bind, get_self. rewrite Hnil.
      rewrite decide_True by done. by exists NoTerms.
    + destruct (find_crisp_value_eval s Hwf Hne) as (cuts & -> & Hcuts).
      cbn [fst snd]. apply (cut_rows_nil s Hwf) in Hno. apply Hcuts in Hno.
      subst cuts. rewrite decide_True by done. by exists NoMemberships.
  - intros Hdeg.
    destruct (crisp_value_with_degree s Hwf Hdeg) as (cuts & Hfind & Hread).
    eexists _, cuts, _. split; [exact Hfind|]. split; [exact Hread|]. done.
Qed.

End Defuzzification.

Lemma wf_tiny_store : wf tiny_store.
Proof.
  apply (evolves_exec_all defuzz_spec linear_interp trimf_spec _ s0).
  constructor.
Qed.

Lemma has_degree_tiny_store : has_degree tiny_store.
Proof.
  exists ("t", 0%nat), (mkTerm "t" [qc (-1) 2000000; qc 1 2; 1] (Some 7%nat) (Some 1)), 1.
  split; [by_compute|]. split; by_compute.
Qed.

Lemma aggregated_curve_witness :
  exists agg cuts,
    (_find_crisp_value tiny_store).1 = Ok (agg, cuts)
    /\ agg !! 1%nat = Some (foldl Qcmax 0 (cut_column tiny_store 1)).
Proof.
  destruct (aggregated_curve defuzz_spec tiny_store wf_tiny_store
              has_degree_tiny_store) as (agg & cuts & Hfind & _ & _ & Hat).
  exists agg, cuts. split; [exact Hfind|].
  destruct (Hat 1%nat) as (x & Hx & -> & _); [simpl; lia|exact Hx].
Defined.

(** C1, counterexample: the curve [-1/2000000, 1/2, 1] is accepted by the
    registration; with degree 1 its cut curve is the only one, so the
    maximum over the terms with a defined degree is -1/2000000 at the
    first sample, but the aggregated curve is 0 there. *)
Lemma zero_floor_under_negative_cut :
  (setitem "t" (Curve [qc (-1) 2000000; qc 1 2; 1]) s0).1 = Ok tt
  /\ cut_rows tiny_store = [[qc (-1) 2000000; qc 1 2; 1]]
  /\ (_find_crisp_value tiny_store).1
     = Ok ([0; qc 1 2; 1], [("t", [qc (-1) 2000000; qc 1 2; 1])])
  /\ 0 <> qc (-1) 2000000.
Proof. repeat split; by_compute. Qed.

Lemma wf_zero_store : wf zero_store.
Proof.
  constructor; [|constructor]. eexists. split; [reflexivity|].
  split; [reflexivity|]. split; [done|].
  repeat constructor; by_compute.
Qed.

Lemma has_degree_zero_store : has_degree zero_store.
Proof.
  exists ("z", 0%nat), (mkTerm "z" [0; 0; 0] (Some 7%nat) (Some 1)), 1.
  split; [by_compute|]. split; by_compute.
Qed.

Lemma crisp_value_read_witness :
  (exists e, crisp_value defuzz_spec abc_store = (Err e, abc_store)
             /\ kind_of e = StateError)
  /\ heap (crisp_value defuzz_spec tiny_store).2 = heap tiny_store.
Proof.
  split.
  - assert (wf abc_store) as Hwf.
    { apply (evolves_exec_all defuzz_spec linear_interp trimf_spec
               [SetItem "a" (Curve [0; 0; 0]); SetItem "b" (Curve [0; 1; 0]);
                SetItem "c" (Curve [1; 1; 1])] s0).
      constructor. }
    apply (crisp_value_read defuzz_spec abc_store Hwf).
    intros (e & t & d & He & Ha & Hd).
    repeat (apply elem_of_cons in He as [->|He]; [cbn in Ha; by simplify_eq/=|]).
    by apply elem_of_nil in He.
  - destruct (crisp_value_read defuzz_spec tiny_store wf_tiny_store) as [_ Hok].
    destruct (Hok has_degree_tiny_store) as (agg & cuts & s' & _ & Heq & _ & Hheap).
    rewrite Heq. exact Hheap.
Defined.

(** C8, counterexample: a term has a defined degree, and the read returns
    no scalar: the only curve is identically zero and the centroid
    defuzzification raises its degenerate-result error. *)
Lemma read_with_degree_may_raise :
  has_degree zero_store
  /\ (crisp_value defuzz_spec zero_store).1 = Err ZeroArea.
Proof. split; [exact has_degree_zero_store|by_compute]. Qed.

(** ** Negation *)

Lemma Qc_neg_range (x : Qc) :
  lower_bound <= x /\ x <= upper_bound ->
  lower_bound <= 1 - x /\ 1 - x <= upper_bound.
Proof.
  unfold lower_bound, upper_bound, qc. intros [H1 H2].
  split.
  - apply Qcle_minus_iff. apply Qcle_minus_iff in H2.
    replace (1 - x + - (0 - Q2Qc (1 # 1000000))) with (1 + Q2Qc (1 # 1000000) + - x) by ring.
    done.
  - apply Qcle_minus_iff. apply Qcle_minus_iff in H1.
    replace (1 + Q2Qc (1 # 1000000) + - (1 - x)) with (x + - (0 - Q2Qc (1 # 1000000))) by ring.
    done.
Qed.

Lemma in_range_neg c : in_range c -> in_range (map (fun x => 1 - x) c).
Proof.
  unfold in_range. intros H. apply Forall_fmap.
  eapply Forall_impl; [exact H|]. intros x Hx. by apply Qc_neg_range.
Qed.

Lemma od_get_mem {V} k (d : list (string * V)) :
  is_Some (od_get k d) <-> k ∈ od_keys d.
Proof.
  unfold od_keys. induction d as [|[k' v] d IH]; simpl.
  - split; [by intros [? ?]|by intros ?%elem_of_nil].
  - case_decide as Hk.
    + subst. split; [intros _; apply list_elem_of_here|by eexists].
    + rewrite IH. split; [by apply list_elem_of_further|].
      by intros [?|?]%elem_of_cons.
Qed.

Lemma wf_lookup s e :
  wf s -> e ∈ terms (self s) ->
  exists t, heap s !! e.2 = Some t
    /\ length (mf t) = length (universe (self s))
    /\ mf t <> [] /\ in_range (mf t).
Proof. unfold wf. rewrite Forall_forall. auto. Qed.

Lemma lookup_fresh {A} (h : list A) (x : A) : (h ++ [x]) !! length h = Some x.
Proof. rewrite lookup_app_r by lia. by rewrite Nat.sub_diag. Qed.

Lemma insert_fresh {A} (h : list A) (x y : A) :
  <[length h := y]> (h ++ [x]) = h ++ [y].
Proof. rewrite insert_app_r_alt by lia. by rewrite Nat.sub_diag. Qed.

(** A second access finds the derived term in the mapping (l.99-100). *)
Lemma not_getitem_cached s key neg :
  od_get ("NOT-" +:+ key) (terms (self s)) = Some neg ->
  not_getitem key s = (Ok neg, s).
Proof.
  intros Hget. unfold not_getitem. unfold bind at 1. unfold get_self at 1.
  assert (od_mem ("NOT-" +:+ key) (terms (self s)) = true) as ->.
  { unfold od_mem. apply bool_decide_eq_true. apply od_get_mem. by eexists. }
  unfold getitem, bind, get_self. by rewrite Hget.
Qed.

(** C4 (as amended): on an unlocked Variable, for a label L with a
    registered term and with no term yet registered under "NOT-L",
    accessing not_[L] returns a term object labeled "NOT-L", bound to the
    Variable and registered under "NOT-L", whose curve is 1 minus the
    curve of L at every sample and whose degree is 1 minus the degree of
    L when that is set, and unset otherwise; a second access returns the
    same object and changes nothing. *)
Theorem not_getitem_derives (s : store) (key : string) (pos : nat)
    (posterm : FuzzyVariableTerm) :
  wf s ->
  _crisp_value_accessed (self s) = false ->
  od_get key (terms (self s)) = Some pos ->
  heap s !! pos = Some posterm ->
  od_get ("NOT-" +:+ key) (terms (self s)) = None ->
  exists neg s',
    not_getitem key s = (Ok neg, s')
    /\ heap s' !! neg
       = Some (mkTerm ("NOT-" +:+ key) (map (fun x => 1 - x) (mf posterm))
                      (Some (_id (self s)))
                      ((fun d => 1 - d) <$> membership_value posterm))
    /\ od_get ("NOT-" +:+ key) (terms (self s')) = Some neg
    /\ not_getitem key s' = (Ok neg, s').
Proof.
  intros Hwf Hl Hpos Hposterm Hfresh.
  destruct (wf_lookup s (key, pos) Hwf (od_get_elem _ _ _ Hpos))
    as (t & Ht & Hlen & Hne & Hr).
  cbn [snd] in Ht. simplify_eq.
  set (lbl := "NOT-" +:+ key) in *.
  set (negterm := mkTerm lbl (map (fun x => 1 - x) (mf posterm)) None
                    ((fun d => 1 - d) <$> membership_value posterm)).
  assert (od_mem lbl (terms (self s)) = false) as Hmem.
  { unfold od_mem. apply bool_decide_eq_false. rewrite <- od_get_mem.
    rewrite Hfresh. by intros [? ?]. }
  set (s1 := mkStore (heap s ++ [negterm]) (self s)).
  assert (presents s1 lbl (TermObj (length (heap s))) (length (heap s))
                   negterm (heap s1)) as Hp.
  { constructor; [apply lookup_fresh|done..]. }
  assert (check (self s1) negterm = None) as Hc.
  { apply check_None. cbn [self s1 negterm mf]. rewrite length_map.
    split; [done|]. split; [done|]. split; [by destruct (mf posterm)|].
    by apply in_range_neg. }
  pose proof (setitem_presents _ _ _ _ _ _ Hp) as Hset. rewrite Hc in Hset.
  exists (length (heap s)). eexists. split; [|split; [|split]].
  - unfold not_getitem. fold lbl. unfold bind at 1. unfold get_self at 1.
    rewrite Hmem. unfold bind at 1. unfold getitem at 1.
    unfold bind at 1. unfold get_self at 1. rewrite Hpos. unfold ret at 1.
    unfold bind at 1. unfold deref at 1. rewrite Hposterm.
    unfold bind at 1. unfold new_term at 1. cbn [heap self].
    unfold bind at 1.
    assert (match membership_value posterm with
            | Some d => set_membership_value (length (heap s)) (Some (1 - d))
            | None => ret tt
            end (mkStore (heap s ++ [mkTerm lbl (map (fun x => 1 - x) (mf posterm))
                                            None None]) (self s))
            = (Ok tt, s1)) as ->.
    { unfold s1, negterm. destruct (membership_value posterm) as [d|]; [|done].
      unfold set_membership_value, bind, deref, assign. cbn [heap self].
      rewrite lookup_fresh. cbn [heap self]. by rewrite insert_fresh. }
    unfold bind at 1. rewrite Hset. reflexivity.
  - cbn [heap s1]. rewrite list_lookup_insert_eq; [done|].
    rewrite length_app. simpl. lia.
  - cbn [self with_terms terms]. apply od_get_set.
  - apply not_getitem_cached. cbn [self with_terms terms]. apply od_get_set.
Qed.

(** ** Interpolation at a sample *)

Lemma interp_from_at_sample xs :
  forall ys i x y,
  StronglySorted Qclt xs ->
  xs !! i = Some x -> ys !! i = Some y ->
  interp_from xs ys x = y.
Proof.
  induction xs as [|x0 xs' IH]; intros ys i x y Hs Hx Hy; [done|].
  destruct ys as [|y0 ys']; [done|].
  apply StronglySorted_inv in Hs as [Hs' Hall].
  destruct i as [|j]; simpl in Hx, Hy.
  - simplify_eq. cbn [interp_from].
    destruct xs' as [|x1 xs'']; [done|]. destruct ys' as [|y1 ys'']; [done|].
    rewrite decide_True by (by inversion Hall). ring.
  - cbn [interp_from].
    destruct xs' as [|x1 xs'']; [done|]. destruct ys' as [|y1 ys'']; [done|].
    rewrite decide_False; [by eapply IH|].
    destruct j as [|j']; simpl in Hx.
    + simplify_eq. apply Qcle_not_lt, Qcle_refl.
    + apply StronglySorted_inv in Hs' as [_ Hall'].
      rewrite Forall_forall in Hall'.
      apply Qcle_not_lt, Qclt_le_weak, Hall'.
      by eapply list_elem_of_lookup_2.
Qed.

Lemma linear_interp_at_sample xs ys i x y :
  StronglySorted Qclt xs ->
  xs !! i = Some x -> ys !! i = Some y ->
  linear_interp xs ys x = y.
Proof.
  intros Hs Hx Hy. unfold linear_interp.
  destruct xs as [|x0 xs']; [done|]. destruct ys as [|y0 ys']; [done|].
  destruct i as [|j]; simpl in Hx, Hy.
  - simplify_eq. by rewrite decide_True by apply Qcle_refl.
  - rewrite decide_False; [by eapply (interp_from_at_sample _ _ (S j))|].
    apply StronglySorted_inv in Hs as [_ Hall]. rewrite Forall_forall in Hall.
    apply Qclt_not_le, Hall. by eapply list_elem_of_lookup_2.
Qed.

Lemma linear_interp_below xs ys x0 y0 x :
  xs !! 0%nat = Some x0 -> ys !! 0%nat = Some y0 -> x <= x0 ->
  linear_interp xs ys x = y0.
Proof.
  destruct xs as [|x0' xs]; [done|]. destruct ys as [|y0' ys]; [done|].
  intros [= ->] [= ->] Hle. unfold linear_interp. by rewrite decide_True.
Qed.

Lemma interp_from_above xs :
  forall ys x,
  xs <> [] -> length xs = length ys -> Forall (fun u => u < x) xs ->
  Some (interp_from xs ys x) = last ys.
Proof.
  induction xs as [|x0 xs' IH]; intros ys x Hne Hlen Hall; [done|].
  destruct ys as [|y0 ys']; [done|].
  apply Forall_cons in Hall as [_ Hall]. simpl in Hlen.
  destruct xs' as [|x1 xs'']; destruct ys' as [|y1 ys'']; try done.
  change (interp_from (x0 :: x1 :: xs'') (y0 :: y1 :: ys'') x)
    with (if decide (x < x1)
          then y0 + (x - x0) * ((y1 - y0) / (x1 - x0))
          else interp_from (x1 :: xs'') (y1 :: ys'') x).
  rewrite decide_False.
  2:{ apply Qcle_not_lt, Qclt_le_weak. by apply Forall_cons in Hall as [? _]. }
  rewrite (IH (y1 :: ys'') x); [done|done|simpl in *; lia|done].
Qed.

Lemma linear_interp_above xs ys x :
  xs <> [] -> length xs = length ys -> Forall (fun u => u < x) xs ->
  Some (linear_interp xs ys x) = last ys.
Proof.
  intros Hne Hlen Hall. unfold linear_interp.
  destruct xs as [|x0 xs']; [done|]. destruct ys as [|y0 ys']; [done|].
  rewrite decide_False; [by apply interp_from_above|].
  apply Qclt_not_le. by apply Forall_cons in Hall as [? _].
Qed.

(** ** The write against a primitive that may raise *)

Section RaisingPrimitive.

Variable interp : list Qc -> list Qc -> Qc -> result Qc.

(** The loop of l.195-197 when every call of the primitive returns. *)
Lemma for_each_raising_returns (u : list Qc) (x : Qc) items :
  forall h v,
  Forall (fun e : string * nat =>
            exists t, h !! e.2 = Some t /\ exists q, interp u (mf t) x = Ok q)
         items ->
  for_each items (fun '(_, adj) =>
                    t <~ deref adj ;;
                    d <~ lift (interp u (mf t) x) ;;
                    assign adj (with_membership (Some d) t))
           (mkStore h v)
  = (Ok tt,
     mkStore (fan_out (fun t => with_membership
                                  (Some (value_of (interp u (mf t) x))) t)
                      items h) v).
Proof.
  induction items as [|[l a] items IH]; intros h v Hall; [done|].
  apply Forall_cons in Hall as [(t & Ha & q & Hq) Hrest]. cbn [snd] in Ha.
  cbn [for_each fan_out snd].
  unfold bind at 1. unfold bind at 1. unfold deref at 1. cbn [heap].
  rewrite Ha. unfold bind at 1. unfold lift at 1. rewrite Hq.
  unfold assign at 1. cbn [heap self value_of].
  apply IH. eapply Forall_impl; [exact Hrest|].
  intros e (t' & Ha' & q' & Hq'). cbv beta.
  destruct (decide (e.2 = a)) as [->|Hne].
  - simplify_eq. exists (with_membership (Some q) t). split.
    + apply list_lookup_insert_eq. by eapply lookup_lt_Some.
    + by exists q.
  - exists t'. split; [by rewrite list_lookup_insert_ne|by exists q'].
Qed.

(** The loop of l.195-197 when a call of the primitive raises: the error
    is one the primitive raised on a registered curve, and the loop has
    written to term objects only. *)
Lemma for_each_raising_raises (u : list Qc) (x : Qc) items :
  forall h v,
  Forall (fun e : string * nat => is_Some (h !! e.2)) items ->
  Exists (fun e : string * nat =>
            exists t, h !! e.2 = Some t /\ exists err, interp u (mf t) x = Err err)
         items ->
  exists err h',
    for_each items (fun '(_, adj) =>
                      t <~ deref adj ;;
                      d <~ lift (interp u (mf t) x) ;;
                      assign adj (with_membership (Some d) t))
             (mkStore h v)
    = (Err err, mkStore h' v)
    /\ exists e t, e ∈ items /\ h !! e.2 = Some t
                   /\ interp u (mf t) x = Err err.
Proof.
  induction items as [|[l a] items IH]; intros h v Hall Hex.
  { by apply Exists_nil in Hex. }
  apply Forall_cons in Hall as [[t Ha] Hrest]. cbn [snd] in Ha.
  cbn [for_each].
  unfold bind at 1. unfold bind at 1. unfold deref at 1. cbn [heap].
  rewrite Ha. unfold bind at 1. unfold lift at 1.
  destruct (interp u (mf t) x) as [q|err] eqn:Hq.
  - unfold assign at 1. cbn [heap self].
    assert (forall e : string * nat,
              forall t', <[a := with_membership (Some q) t]> h !! e.2 = Some t' ->
              exists t'', h !! e.2 = Some t'' /\ mf t'' = mf t') as Hback.
    { intros e t' He. destruct (decide (e.2 = a)) as [Heq|Hne].
      - rewrite Heq in *. rewrite list_lookup_insert_eq in He
          by (by eapply lookup_lt_Some).
        simplify_eq. by exists t.
      - rewrite list_lookup_insert_ne in He by done. by exists t'. }
    destruct (IH (<[a := with_membership (Some q) t]> h) v) as
      (err & h' & Heq & e & t' & He & Ha' & Herr).
    + eapply Forall_impl; [exact Hrest|].
      intros e He. by rewrite list_lookup_insert_is_Some.
    + apply Exists_cons in Hex as [(t' & Ha' & err & Herr)|Hex].
      { cbn [snd] in Ha'. rewrite Ha in Ha'. injection Ha' as <-. congruence. }
      eapply Exists_impl; [exact Hex|].
      intros e (t' & Ha' & err & Herr). cbv beta.
      destruct (decide (e.2 = a)) as [Heq|Hne].
      * rewrite Heq, Ha in Ha'. injection Ha' as <-. congruence.
      * exists t'. split; [by rewrite list_lookup_insert_ne|by exists err].
    + exists err, h'. split; [exact Heq|].
      destruct (Hback e t' Ha') as (t'' & Ha'' & Hmf).
      exists e, t''. split; [by apply list_elem_of_further|].
      split; [done|]. by rewrite Hmf.
  - exists err, h. split; [done|].
    exists (l, a), t. split; [apply list_elem_of_here|done].
Qed.

Lemma crisp_value_set_raising_eval x s :
  crisp_value_set_raising interp x s =
    if decide (length (terms (self s)) = 0%nat) then (Err NoTerms, s)
    else match for_each (terms (self s))
                 (fun '(_, adj) =>
                    t <~ deref adj ;;
                    d <~ lift (interp (universe (self s)) (mf t) x) ;;
                    assign adj (with_membership (Some d) t)) s with
         | (Ok _, s1) => (Ok tt, mkStore (heap s1) (with_accessed true (self s1)))
         | (Err e, s1) => (Err e, s1)
         end.
Proof.
  unfold crisp_value_set_raising. unfold bind at 1. unfold get_self at 1.
  case_decide; [done|]. unfold bind at 1.
  destruct (for_each _ _ s) as [[[]|e] s1]; [|done].
  unfold bind at 1. unfold get_self at 1. done.
Qed.

End RaisingPrimitive.

(** A primitive that always returns makes the two readings of the setter
    one. *)
Lemma crisp_value_set_raising_total (f : list Qc -> list Qc -> Qc -> Qc) x s :
  Forall (fun e : string * nat => is_Some (heap s !! e.2)) (terms (self s)) ->
  crisp_value_set_raising (fun u m y => Ok (f u m y)) x s
  = crisp_value_set f x s.
Proof.
  intros Hall. rewrite crisp_value_set_raising_eval.
  rewrite (crisp_value_set_eval f x s Hall).
  case_decide; [done|]. destruct s as [h v]. cbn [heap self] in *.
  rewrite (for_each_raising_returns (fun u m y => Ok (f u m y))).
  - done.
  - eapply Forall_impl; [exact Hall|].
    intros e [t Ht]. exists t. split; [done|]. by eexists.
Qed.

(** C5 (as amended): on a Variable built by the methods, with no
    registered term the write [crisp_value = x] fails with StateError and
    changes nothing.  With at least one registered term the write calls the
    interpolation primitive on the universe, each registered curve and x:
    when every call returns, the write returns, keeps the terms, sets the
    locked flag and sets the degree of every registered term to the number
    returned for its curve; when a call raises, the write raises an error
    the primitive raised on a registered curve and the Variable itself
    (its terms, its flag) is as before.  With the primitive of section 4.4
    (piecewise-linear, clamped; not under src/) the write returns for every
    x; an x at or below the first sample gives the first curve value, an x
    above every sample gives the last curve value, and when the universe is
    strictly increasing and x is its sample of index i the degree is the
    curve's sample of index i. *)
Theorem crisp_value_write
    (interp : list Qc -> list Qc -> Qc -> result Qc) (s : store) (x : Qc) :
  wf s ->
  (terms (self s) = [] ->
     exists e, crisp_value_set_raising interp x s = (Err e, s)
               /\ kind_of e = StateError)
  /\ (terms (self s) <> [] ->
      (forall e t, e ∈ terms (self s) -> heap s !! e.2 = Some t ->
                   exists q, interp (universe (self s)) (mf t) x = Ok q) ->
      exists s',
        crisp_value_set_raising interp x s = (Ok tt, s')
        /\ terms (self s') = terms (self s)
        /\ _crisp_value_accessed (self s') = true
        /\ forall e t, e ∈ terms (self s) -> heap s !! e.2 = Some t ->
             exists q, interp (universe (self s)) (mf t) x = Ok q
                       /\ heap s' !! e.2 = Some (with_membership (Some q) t))
  /\ (forall e t err, e ∈ terms (self s) -> heap s !! e.2 = Some t ->
                      interp (universe (self s)) (mf t) x = Err err ->
      exists err' s',
        crisp_value_set_raising interp x s = (Err err', s')
        /\ self s' = self s
        /\ exists e' t', e' ∈ terms (self s) /\ heap s !! e'.2 = Some t'
             /\ interp (universe (self s)) (mf t') x = Err err')
  /\ (terms (self s) <> [] ->
      exists s',
        crisp_value_set_raising (fun u m y => Ok (linear_interp u m y)) x s
        = (Ok tt, s')
        /\ crisp_value_set linear_interp x s = (Ok tt, s')
        /\ forall e t, e ∈ terms (self s) -> heap s !! e.2 = Some t ->
             heap s' !! e.2
             = Some (with_membership
                       (Some (linear_interp (universe (self s)) (mf t) x)) t)
             /\ (forall x0 y0,
                   universe (self s) !! 0%nat = Some x0 ->
                   mf t !! 0%nat = Some y0 -> x <= x0 ->
                   linear_interp (universe (self s)) (mf t) x = y0)
             /\ (Forall (fun u => u < x) (universe (self s)) ->
                   Some (linear_interp (universe (self s)) (mf t) x)
                   = last (mf t))
             /\ (forall i y,
                   StronglySorted Qclt (universe (self s)) ->
                   universe (self s) !! i = Some x -> mf t !! i = Some y ->
                   linear_interp (universe (self s)) (mf t) x = y)).
Proof.
  intros Hwf. pose proof (wf_refs s Hwf) as Hrefs.
  assert (forall e t, e ∈ terms (self s) -> heap s !! e.2 = Some t ->
            length (mf t) = length (universe (self s)) /\ mf t <> []) as Hshape.
  { intros e t He Ha. unfold wf in Hwf. rewrite Forall_forall in Hwf.
    destruct (Hwf e He) as (t' & Ha' & Hlen & Hne & _). by simplify_eq. }
  split; [|split; [|split]].
  - intros Hnil. rewrite crisp_value_set_raising_eval, Hnil.
    rewrite decide_True by done. by exists NoTerms.
  - intros Hne Hret. rewrite crisp_value_set_raising_eval.
    rewrite decide_False by (by destruct (terms (self s))).
    destruct s as [h v]. cbn [heap self] in *.
    rewrite (for_each_raising_returns interp).
    2:{ rewrite Forall_forall. intros e He.
        rewrite Forall_forall in Hrefs. destruct (Hrefs e He) as [t Ht].
        exists t. split; [done|]. by eapply Hret. }
    eexists. split; [reflexivity|]. split; [done|]. split; [done|].
    intros e t He Ha. destruct (Hret e t He Ha) as [q Hq].
    exists q. split; [done|]. cbn [heap].
    rewrite (fan_out_lookup _ _ _ _ t); [|done|done].
    rewrite decide_True by (by apply list_elem_of_fmap_2).
    by rewrite Hq.
  - intros e t err He Ha Herr. rewrite crisp_value_set_raising_eval.
    rewrite decide_False by (by destruct (terms (self s)); [inversion He|]).
    destruct s as [h v]. cbn [heap self] in *.
    destruct (for_each_raising_raises interp (universe v) x (terms v) h v Hrefs)
      as (err' & h' & Heq & e' & t' & He' & Ha' & Herr').
    { apply Exists_exists. exists e. split; [done|].
      exists t. split; [done|]. by exists err. }
    rewrite Heq. exists err', (mkStore h' v). split; [done|]. split; [done|].
    by exists e', t'.
  - intros Hne. rewrite (crisp_value_set_raising_total linear_interp x s Hrefs).
    rewrite (crisp_value_set_eval linear_interp x s Hrefs).
    rewrite decide_False by (by destruct (terms (self s))).
    eexists. split; [reflexivity|]. split; [reflexivity|].
    intros e t He Ha. split; [|split; [|split]].
    + cbn [heap]. rewrite (fan_out_lookup _ _ _ _ t); [|done|done].
      rewrite decide_True; [done|]. by apply list_elem_of_fmap_2.
    + intros x0 y0 Hx0 Hy0 Hle. by eapply linear_interp_below.
    + intros Hall. destruct (Hshape e t He Ha) as [Hlen Hmf].
      apply linear_interp_above; [|done|done].
      intros Hnil. rewrite Hnil in Hlen. by destruct (mf t).
    + intros i y Hs Hx Hy. by eapply linear_interp_at_sample.
Qed.

Lemma wf_abc_store : wf abc_store.
Proof.
  apply (evolves_exec_all defuzz_spec linear_interp trimf_spec
           [SetItem "a" (Curve [0; 0; 0]); SetItem "b" (Curve [0; 1; 0]);
            SetItem "c" (Curve [1; 1; 1])] s0).
  constructor.
Qed.

Lemma not_getitem_derives_witness :
  exists neg s',
    not_getitem "c" abc_store = (Ok neg, s')
    /\ heap s' !! neg = Some (mkTerm "NOT-c" [0; 0; 0] (Some 7%nat) None)
    /\ not_getitem "c" s' = (Ok neg, s').
Proof.
  destruct (not_getitem_derives abc_store "c" 2
              (mkTerm "c" [1; 1; 1] (Some 7%nat) None) wf_abc_store)
    as (neg & s' & H1 & H2 & _ & H4); [reflexivity..|].
  exists neg, s'. split; [exact H1|]. split; [|exact H4].
  rewrite H2. by_compute.
Defined.

(** C4, counterexample: on a locked Variable the access to not_["a"]
    raises the StateError of the registration; and when the caller has
    registered a curve under "NOT-a", the access returns that term, whose
    curve is not 1 minus the curve of "a". *)
Lemma not_getitem_locked_or_shadowed :
  od_get "a" (terms (self written_store)) = Some 0%nat
  /\ (not_getitem "a" written_store).1 = Err Locked
  /\ (not_getitem "a" shadow_store).1 = Ok 1%nat
  /\ mf <$> heap (not_getitem "a" shadow_store).2 !! 1%nat = Some [0; 0; 0]
  /\ mf <$> heap shadow_store !! 0%nat = Some [0; 0; 0].
Proof. repeat split; by_compute. Qed.

Lemma crisp_value_write_witness :
  (exists e, crisp_value_set_raising (fun u m y => Ok (linear_interp u m y))
               (qc 1 2) s0 = (Err e, s0)
             /\ kind_of e = StateError)
  /\ exists s',
       crisp_value_set linear_interp 1 abc_store = (Ok tt, s')
       /\ heap s' !! 1%nat
          = Some (mkTerm "b" [0; 1; 0] (Some 7%nat)
                         (Some (linear_interp u3 [0; 1; 0] 1)))
       /\ linear_interp u3 [0; 1; 0] 1 = 1.
Proof.
  split.
  - apply (crisp_value_write (fun u m y => Ok (linear_interp u m y)) s0 (qc 1 2));
      [constructor|reflexivity].
  - destruct (crisp_value_write (fun u m y => Ok (linear_interp u m y))
                abc_store 1 wf_abc_store) as (_ & _ & _ & Hok).
    destruct Hok as (s' & _ & Heq & Hdeg); [done|].
    exists s'. split; [exact Heq|].
    destruct (Hdeg ("b", 1%nat) (mkTerm "b" [0; 1; 0] (Some 7%nat) None))
      as (Hb & _ & _ & Hat); [by_compute|reflexivity|].
    split; [exact Hb|]. apply (Hat 1%nat 1).
    + repeat constructor; by_compute.
    + reflexivity.
    + reflexivity.
Defined.

(** C5, counterexample: the constructor accepts a universe with a repeated
    sample; on the universe 0, 1, 1, 2 with the curve 0, 3/10, 7/10, 1 the
    write of x = 1, the sample of index 1, returns and sets the degree to
    7/10, not to the curve's sample of index 1, which is 3/10. *)
Lemma crisp_value_write_repeated_sample :
  universe (self dup_store) !! 1%nat = Some 1
  /\ mf <$> heap dup_store !! 0%nat = Some [0; qc 3 10; qc 7 10; 1]
  /\ od_get "ramp" (terms (self dup_store)) = Some 0%nat
  /\ (crisp_value_set linear_interp 1 dup_store).1 = Ok tt
  /\ membership_value
       <$> heap (crisp_value_set linear_interp 1 dup_store).2 !! 0%nat
     = Some (Some (qc 7 10))
  /\ qc 7 10 <> qc 3 10.
Proof. repeat split; by_compute. Qed.

(** ** automf on a locked variable *)

Lemma automf_names_ok args ns number :
  automf_names args = Ok (ns, number) -> ns <> [] /\ (0 < number)%Z.
Proof.
  unfold automf_names. destruct (names args) as [l|].
  - case_decide as Hodd; [|done]. intros [= <- <-].
    destruct l; [done|]. split; [done|]. simpl. lia.
  - case_decide as Hin; [|done]. intros [= <- <-].
    split; [|repeat (apply elem_of_cons in Hin as [->|Hin]; [lia|]);
             by apply elem_of_nil in Hin].
    repeat (apply elem_of_cons in Hin as [->|Hin];
            [by repeat case_decide|]).
    by apply elem_of_nil in Hin.
Qed.

Lemma automf_abcs_not_nil lo hi number :
  (0 < number)%Z -> automf_abcs lo hi number <> [].
Proof.
  intros Hpos. unfold automf_abcs.
  destruct (Z.to_nat number) as [|n] eqn:Hn; [lia|].
  cbn [replicate]. unfold np_linspace.
  destruct n as [|n]; [done|]. done.
Qed.

Lemma wf_universe_not_nil s : wf s -> terms (self s) <> [] -> universe (self s) <> [].
Proof.
  unfold wf. destruct (terms (self s)) as [|e d]; [done|].
  intros Hwf _ Hnil. inversion Hwf as [|? ? (t & _ & Hlen & Hne & _) _]; subst.
  rewrite Hnil in Hlen. by destruct (mf t).
Qed.

Section Automf.

Variable trimf : list Qc -> abc -> list Qc.

(** C10 (as amended): on a locked Variable with at least one registered
    term, a call of automf whose arguments pass its own checks (l.275-282:
    no names and a number among 3, 5, 7, or an odd number of names) first
    replaces the term mapping by an empty one and then fails, with the
    StateError of the registration of the first generated term; after the
    error the Variable has no terms, and no term object was modified.  A
    call those checks refuse raises their ValueError before the clearing and
    changes nothing. *)
Theorem automf_locked_loses_terms (s : store) (args : automf_args) :
  wf s ->
  _crisp_value_accessed (self s) = true ->
  terms (self s) <> [] ->
  match automf_names args with
  | Ok _ =>
      exists e s',
        automf trimf args s = (Err e, s')
        /\ e = Locked /\ kind_of e = StateError
        /\ terms (self s') = []
        /\ heap s `prefix_of` heap s'
  | Err e0 =>
      automf trimf args s = (Err e0, s) /\ kind_of e0 = ConfigError
  end.
Proof.
  intros Hwf Hl Hne. rewrite automf_eval.
  destruct (automf_names args) as [nn|e0] eqn:Hnames.
  2:{ split; [done|]. unfold automf_names in Hnames.
      destruct (names args); case_decide; by simplify_eq. }
  pose proof (wf_universe_not_nil s Hwf Hne) as Hu.
  destruct (universe (self s)) as [|u0 us] eqn:Hue; [done|].
  cbn [np_min np_max]. destruct nn as [ns number].
  destruct (automf_names_ok _ _ _ Hnames) as [Hns Hpos]. cbn [fst snd].
  pose proof (automf_abcs_not_nil (foldl Qcmin u0 us) (foldl Qcmax u0 us)
                number Hpos) as Habcs.
  destruct (automf_abcs _ _ number) as [|p abcs]; [done|].
  assert ((if invert args then reverse ns else ns) <> []) as Hns'.
  { destruct (invert args); [|done]. intros Hrev.
    apply (f_equal length) in Hrev. rewrite length_reverse in Hrev.
    by destruct ns. }
  destruct (if invert args then reverse ns else ns) as [|name rest]; [done|].
  cbn [zip zip_with for_each]. unfold bind at 1. unfold bind at 1.
  unfold get_self at 1. cbn [self with_terms universe]. rewrite Hue.
  rewrite (setitem_presents _ _ _ _ _ _
             (presents_curve (mkStore (heap s) (with_terms [] (self s))) name
                             (trimf (u0 :: us) p))).
  unfold check. cbn [self with_terms _crisp_value_accessed]. rewrite Hl.
  eexists _, _. split; [reflexivity|]. split; [done|]. split; [done|].
  split; [done|]. cbn [heap]. by apply prefix_app_r.
Qed.

End Automf.

Lemma automf_locked_loses_terms_witness :
  terms (self written_store) = [("a", 0%nat); ("b", 1%nat); ("c", 2%nat)]
  /\ exists s',
       automf trimf_spec (mkArgs 5 "quality" None false) written_store
       = (Err Locked, s')
       /\ terms (self s') = [].
Proof.
  split; [reflexivity|].
  destruct (automf_locked_loses_terms trimf_spec written_store
              (mkArgs 5 "quality" None false))
    as (e & s' & Heq & -> & _ & Hterms & _).
  - apply (evolves_exec defuzz_spec linear_interp trimf_spec (WriteCrisp 1) abc_store).
    exact wf_abc_store.
  - reflexivity.
  - discriminate.
  - exists s'. split; [exact Heq|exact Hterms].
Defined.

(** C10, counterexample: the argument checks of automf (l.275-282) come
    before the clearing of l.320: on a locked Variable with three terms, a
    call with number = 4, or with two names, raises their ValueError and
    leaves the three terms in place. *)
Lemma automf_refused_keeps_terms :
  _crisp_value_accessed (self written_store) = true
  /\ terms (self written_store) = [("a", 0%nat); ("b", 1%nat); ("c", 2%nat)]
  /\ automf trimf_spec (mkArgs 4 "quality" None false) written_store
     = (Err BadNumber, written_store)
  /\ automf trimf_spec (mkArgs 3 "quality" (Some ["lo"; "hi"]) false)
       written_store
     = (Err EvenNames, written_store).
Proof. repeat split; by_compute. Qed.

(** * Further properties of the methods *)

(** ** Every method is a sequence of elementary changes *)

Lemma mutating_ret {A} (a : A) : mutating (ret a).
Proof. intros s. apply mut_refl. Qed.

Lemma mutating_raise {A} e : mutating (@raise A e).
Proof. intros s. apply mut_refl. Qed.

Lemma mutating_get_self : mutating get_self.
Proof. intros s. apply mut_refl. Qed.

Lemma mutating_deref a : mutating (deref a).
Proof. intros s. unfold deref. case_match; apply mut_refl. Qed.

Lemma mutating_bind {A B} (m : M A) (k : A -> M B) :
  mutating m -> (forall a, mutating (k a)) -> mutating (bind m k).
Proof.
  intros Hm Hk s. unfold bind. specialize (Hm s).
  destruct (m s) as [[a|e] s1]; [|done].
  eapply mut_trans; [exact Hm|apply Hk].
Qed.

Lemma mutating_for_each {A} (l : list A) (body : A -> M unit) :
  (forall x, mutating (body x)) -> mutating (for_each l body).
Proof.
  intros Hb. induction l as [|x l IH]; [apply mutating_ret|].
  apply mutating_bind; [apply Hb|done].
Qed.

Lemma mutating_new_term lbl c : mutating (new_term lbl c).
Proof. intros s. apply mut_alloc. Qed.

Lemma mutating_store_membership adj (f : FuzzyVariableTerm -> option Qc) :
  mutating (t <~ deref adj ;; assign adj (with_membership (f t) t)).
Proof.
  intros s. unfold bind, deref, assign.
  destruct (heap s !! adj) as [t|] eqn:Ha; [|apply mut_refl].
  by apply mut_degree.
Qed.

Lemma mutating_set_membership_value a d : mutating (set_membership_value a d).
Proof. apply (mutating_store_membership a (fun _ => d)). Qed.

Lemma mutating_getitem key : mutating (getitem key).
Proof.
  intros s. unfold getitem, bind, get_self. repeat case_match; apply mut_refl.
Qed.

Lemma mutating_setitem key it : mutating (setitem key it).
Proof.
  intros s.
  destruct (setitem_cases s key it)
    as [(a & _ & _ & ->)|[(a & t & _ & _ & _ & ->)|(a & t & h & Hp)]];
    [apply mut_refl..|].
  rewrite (setitem_presents _ _ _ _ _ _ Hp).
  destruct Hp as [c|a t Ha Hl Hpar].
  - eapply mut_trans; [apply (mut_alloc s key c)|].
    destruct (check (self s) _) as [e|] eqn:Hc; [apply mut_refl|].
    apply (mut_register (mkStore (heap s ++ [mkTerm key c None None]) (self s))
                        (length (heap s)) (mkTerm key c None None));
      [apply lookup_fresh|done|done].
  - destruct (check (self s) t) as [e|] eqn:Hc.
    + destruct s; apply mut_refl.
    + rewrite <- Hl. by apply mut_register.
Qed.

Section Programs.

Variable defuzz : list Qc -> list Qc -> string -> result Qc.
Variable interp_membership : list Qc -> list Qc -> Qc -> Qc.
Variable trimf : list Qc -> abc -> list Qc.

Lemma mutating_crisp_value : mutating (crisp_value defuzz).
Proof.
  intros s. rewrite crisp_value_eval.
  destruct (_find_crisp_value s).1 as [r|e]; [|apply mut_refl].
  case_decide; [apply mut_refl|apply mut_lock].
Qed.

Lemma mutating_crisp_value_set x : mutating (crisp_value_set interp_membership x).
Proof.
  unfold crisp_value_set. apply mutating_bind; [apply mutating_get_self|].
  intros v. case_decide; [apply mutating_raise|].
  apply mutating_bind; [|intros _ s; apply mut_lock].
  apply mutating_for_each. intros [lbl adj].
  apply (mutating_store_membership adj
           (fun t => Some (interp_membership (universe v) (mf t) x))).
Qed.

Lemma mutating_not_getitem key : mutating (not_getitem key).
Proof.
  unfold not_getitem. apply mutating_bind; [apply mutating_get_self|].
  intros v. case_match; [apply mutating_getitem|].
  apply mutating_bind; [apply mutating_getitem|]. intros pos.
  apply mutating_bind; [apply mutating_deref|]. intros posterm.
  apply mutating_bind; [apply mutating_new_term|]. intros negterm.
  apply mutating_bind.
  { case_match; [apply mutating_set_membership_value|apply mutating_ret]. }
  intros _. apply mutating_bind; [apply mutating_setitem|].
  intros _. apply mutating_ret.
Qed.

Lemma mutating_automf args : mutating (automf trimf args).
Proof.
  intros s. rewrite automf_eval.
  destruct (automf_names args) as [nn|e]; [|apply mut_refl].
  destruct (np_min (universe (self s))) as [lo|e]; [|apply mut_refl].
  destruct (np_max (universe (self s))) as [hi|e]; [|apply mut_refl].
  eapply mut_trans; [apply mut_clear|].
  apply mutating_for_each. intros [name p].
  apply mutating_bind; [apply mutating_get_self|].
  intros v. apply mutating_setitem.
Qed.

Lemma mutates_exec o s : mutates s (exec defuzz interp_membership trimf o s).
Proof.
  destruct o; cbn [exec].
  - apply mutating_new_term.
  - apply mutating_set_membership_value.
  - apply mutating_setitem.
  - apply mutating_getitem.
  - apply mutating_not_getitem.
  - apply mutating_crisp_value.
  - apply mutating_crisp_value_set.
  - apply mutating_automf.
Qed.

Lemma mutates_exec_all os s :
  mutates s (exec_all defuzz interp_membership trimf os s).
Proof.
  revert s. induction os as [|o os IH]; intros s; [apply mut_refl|].
  cbn [exec_all foldl]. eapply mut_trans; [apply mutates_exec|apply IH].
Qed.

End Programs.

(** ** What the elementary changes keep *)

Lemma mutates_fields s s' :
  mutates s s' ->
  universe (self s') = universe (self s)
  /\ var_label (self s') = var_label (self s)
  /\ defuzzify_method (self s') = defuzzify_method (self s)
  /\ _id (self s') = _id (self s)
  /\ __name__ (self s') = __name__ (self s)
  /\ (_crisp_value_accessed (self s) = true ->
      _crisp_value_accessed (self s') = true).
Proof.
  induction 1 as [s|s1 s2 s3 _ IH1 _ IH2|s lbl c|s a t d Ha|s a t Ha Hp Hc|s|s];
    try done.
  destruct IH1 as (U1 & L1 & D1 & I1 & N1 & A1).
  destruct IH2 as (U2 & L2 & D2 & I2 & N2 & A2).
  repeat split; try congruence. auto.
Qed.

Lemma mutates_objects s s' :
  mutates s s' ->
  forall a t, heap s !! a = Some t ->
    exists t', heap s' !! a = Some t'
      /\ label t' = label t /\ mf t' = mf t
      /\ (forall p, parent_variable t = Some p -> parent_variable t' = Some p).
Proof.
  induction 1 as [s|s1 s2 s3 _ IH1 _ IH2|s lbl c|s b u d Hb|s b u Hb Hp Hc|s|s];
    intros a t Ha; cbn [heap].
  - by exists t.
  - destruct (IH1 a t Ha) as (t2 & H2 & Hl2 & Hm2 & Hp2).
    destruct (IH2 a t2 H2) as (t3 & H3 & Hl3 & Hm3 & Hp3).
    exists t3. split; [done|]. split; [congruence|]. split; [congruence|]. auto.
  - exists t. split; [|done]. by apply lookup_app_l_Some.
  - destruct (decide (b = a)) as [->|Hne].
    + assert (t = u) as -> by congruence. exists (with_membership d u).
      split; [|done]. apply list_lookup_insert_eq. by eapply lookup_lt_Some.
    + exists t. by rewrite list_lookup_insert_ne.
  - destruct (decide (b = a)) as [->|Hne].
    + assert (t = u) as -> by congruence.
      exists (with_parent (Some (_id (self s))) u).
      split; [apply list_lookup_insert_eq; by eapply lookup_lt_Some|].
      split; [done|]. split; [done|]. intros p Hp'. congruence.
    + exists t. by rewrite list_lookup_insert_ne.
  - by exists t.
  - by exists t.
Qed.

(** *** The ordered mapping *)

Lemma od_keys_set {V} k (v : V) d x :
  x ∈ (od_set k v d).*1 <-> x = k \/ x ∈ d.*1.
Proof.
  induction d as [|[k' v'] d IH]; simpl.
  - rewrite list_elem_of_singleton. split; [auto|]. intros [?|?%elem_of_nil]; done.
  - case_decide as Hk; simpl; rewrite !elem_of_cons.
    + subst. tauto.
    + rewrite IH. tauto.
Qed.

Lemma od_vals_set {V} k (v : V) d x :
  x ∈ (od_set k v d).*2 -> x = v \/ x ∈ d.*2.
Proof.
  induction d as [|[k' v'] d IH]; simpl.
  - rewrite list_elem_of_singleton. auto.
  - case_decide as Hk; simpl; rewrite !elem_of_cons.
    + tauto.
    + intros [?|?%IH]; tauto.
Qed.

Lemma od_set_NoDup_keys {V} k (v : V) d :
  NoDup d.*1 -> NoDup (od_set k v d).*1.
Proof.
  induction d as [|[k' v'] d IH]; simpl; intros Hnd.
  - apply NoDup_singleton.
  - apply NoDup_cons in Hnd as [Hnotin Hnd].
    case_decide as Hk; simpl.
    + subst. by apply NoDup_cons.
    + apply NoDup_cons. split; [|by apply IH].
      rewrite od_keys_set. intros [?|?]; [congruence|done].
Qed.

Lemma od_set_NoDup_vals {V} k (v : V) d :
  NoDup d.*2 -> v ∉ d.*2 -> NoDup (od_set k v d).*2.
Proof.
  induction d as [|[k' v'] d IH]; simpl; intros Hnd Hv.
  - apply NoDup_singleton.
  - apply NoDup_cons in Hnd as [Hnotin Hnd].
    apply not_elem_of_cons in Hv as [Hne Hv].
    case_decide as Hk; simpl.
    + by apply NoDup_cons.
    + apply NoDup_cons. split; [|by apply IH].
      intros [?|?]%od_vals_set; [congruence|done].
Qed.

(** A key that is present keeps its place; a new key goes to the end. *)
Lemma od_set_keys {V} k (v : V) d :
  od_keys (od_set k v d)
  = if decide (k ∈ od_keys d) then od_keys d else od_keys d ++ [k].
Proof.
  unfold od_keys. induction d as [|[k' v'] d IH]; cbn [od_set fmap list_fmap fst].
  - rewrite decide_False; [done|apply not_elem_of_nil].
  - destruct (decide (k' = k)) as [Hk|Hk]; cbn [fmap list_fmap fst].
    + subst. rewrite decide_True; [done|apply list_elem_of_here].
    + rewrite IH. destruct (decide (k ∈ d.*1)) as [Hin|Hin].
      * rewrite decide_True; [done|by apply list_elem_of_further].
      * rewrite decide_False; [done|].
        intros [?|?]%elem_of_cons; [congruence|done].
Qed.

Lemma od_get_set_ne {V} k k' (v : V) d :
  k' <> k -> od_get k' (od_set k v d) = od_get k' d.
Proof.
  intros Hne. induction d as [|[k0 v0] d IH]; simpl.
  - by rewrite decide_False.
  - case_decide as Hk; simpl.
    + subst. by rewrite !decide_False.
    + case_decide; [done|apply IH].
Qed.

Lemma mutates_bound s s' : mutates s s' -> bound s -> bound s'.
Proof.
  induction 1 as [s|s1 s2 s3 _ IH1 _ IH2|s lbl c|s b u d Hb|s b u Hb Hp Hc|s|s];
    try (by auto).
  - intros (Hent & Hk & Hv). split; [|done].
    intros k a Hin. destruct (Hent k a Hin) as (t & Ha & Hl & Hpar).
    exists t. split; [|done]. cbn [heap]. by apply lookup_app_l_Some.
  - intros (Hent & Hk & Hv). split; [|done].
    intros k a Hin. destruct (Hent k a Hin) as (t & Ha & Hl & Hpar).
    cbn [heap self]. destruct (decide (b = a)) as [->|Hne].
    + assert (t = u) as -> by congruence. exists (with_membership d u).
      split; [|done]. apply list_lookup_insert_eq. by eapply lookup_lt_Some.
    + exists t. by rewrite list_lookup_insert_ne.
  - intros (Hent & Hk & Hv).
    assert (b ∉ (terms (self s)).*2) as Hfresh.
    { intros Hin. apply list_elem_of_fmap in Hin as ([k a] & -> & Hin).
      destruct (Hent k a Hin) as (t & Ha & _ & Hpar). cbn [snd] in Hb.
      congruence. }
    split; [|split].
    + intros k a Hin. cbn [self with_terms terms heap _id] in *.
      apply od_set_elem in Hin as [Heq|Hin].
      * simplify_eq. exists (with_parent (Some (_id (self s))) u).
        split; [|done]. apply list_lookup_insert_eq. by eapply lookup_lt_Some.
      * destruct (Hent k a Hin) as (t & Ha & Hl & Hpar).
        exists t. split; [|done]. rewrite list_lookup_insert_ne; [done|].
        intros ->. apply Hfresh. apply list_elem_of_fmap. by exists (k, a).
    + cbn [self with_terms terms]. by apply od_set_NoDup_keys.
    + cbn [self with_terms terms]. by apply od_set_NoDup_vals.
  - intros (Hent & Hk & Hv). split; [|split]; cbn [self with_terms terms].
    + intros k a ?%elem_of_nil. done.
    + apply NoDup_nil_2.
    + apply NoDup_nil_2.
Qed.

Lemma bound_empty s : terms (self s) = [] -> bound s.
Proof.
  intros Hnil. unfold bound. rewrite Hnil. split; [|split].
  - intros k a ?%elem_of_nil. done.
  - apply NoDup_nil_2.
  - apply NoDup_nil_2.
Qed.

(** ** Registration and lookup *)

(** X1: a registration returns exactly when the item passes all the checks
    of l.147-172: a raw curve on an unlocked Variable, of the universe's
    length, not empty, and which holds a NaN or has all its samples in
    [0 - 1e-6, 1 + 1e-6] (the test of l.170 is false on a NaN); a pre-built
    Term that moreover carries the key as its label and has no parent.  The
    store it leaves has the object, bound to the Variable, under the
    key. *)
Theorem setitem_returns_iff (s s' : IEEE.store) (key : string) :
  (forall c,
     IEEE.setitem key (IEEE.Curve c) s = (Ok tt, s') <->
     IEEE._crisp_value_accessed (IEEE.self s) = false
     /\ length c = length (IEEE.universe (IEEE.self s)) /\ c <> []
     /\ (IEEE.NaN ∈ c \/ Forall IEEE.within c)
     /\ s' = IEEE.mkStore
               (IEEE.heap s
                ++ [IEEE.mkTerm key c (Some (IEEE._id (IEEE.self s))) None])
               (IEEE.with_terms
                  (od_set key (length (IEEE.heap s)) (IEEE.terms (IEEE.self s)))
                  (IEEE.self s)))
  /\ (forall a,
        IEEE.setitem key (IEEE.TermObj a) s = (Ok tt, s') <->
        exists t, IEEE.heap s !! a = Some t
          /\ IEEE.label t = key /\ IEEE.parent_variable t = None
          /\ IEEE._crisp_value_accessed (IEEE.self s) = false
          /\ length (IEEE.mf t) = length (IEEE.universe (IEEE.self s))
          /\ IEEE.mf t <> []
          /\ (IEEE.NaN ∈ IEEE.mf t \/ Forall IEEE.within (IEEE.mf t))
          /\ s' = IEEE.mkStore
                    (<[a := IEEE.with_parent (Some (IEEE._id (IEEE.self s))) t]>
                       (IEEE.heap s))
                    (IEEE.with_terms (od_set key a (IEEE.terms (IEEE.self s)))
                                     (IEEE.self s))).
Proof.
  split.
  - intros c.
    rewrite (ieee_setitem_presents _ _ _ _ _ _ (IEEE.presents_curve s key c)).
    destruct (IEEE.check (IEEE.self s) (IEEE.mkTerm key c None None))
      as [e|] eqn:Hc.
    + split; [done|]. intros (Hl & Hlen & Hne & Hr & _).
      assert (IEEE.check (IEEE.self s) (IEEE.mkTerm key c None None) = None)
        as Hc' by (by apply ieee_check_None).
      congruence.
    + apply ieee_check_None in Hc as (Hl & Hlen & Hne & Hr). cbn [IEEE.mf] in *.
      rewrite insert_fresh.
      cbn [IEEE.with_parent IEEE.label IEEE.mf IEEE.membership_value].
      split; [intros [= <-]; done|]. by intros (_ & _ & _ & _ & ->).
  - intros a. split.
    + intros Heq.
      destruct (ieee_setitem_cases s key (IEEE.TermObj a))
        as [(a' & _ & _ & Hs)|[(a' & t & _ & _ & _ & Hs)|(a' & t & h & Hp)]];
        [congruence..|].
      rewrite (ieee_setitem_presents _ _ _ _ _ _ Hp) in Heq.
      inversion Hp as [|? ? Ha Hl Hpar]; subst.
      destruct (IEEE.check (IEEE.self s) t) as [e|] eqn:Hc; [done|].
      apply ieee_check_None in Hc as (Hlock & Hlen & Hne & Hr).
      exists t. by simplify_eq.
    + intros (t & Ha & Hl & Hpar & Hlock & Hlen & Hne & Hr & ->).
      rewrite (ieee_setitem_presents _ _ _ _ _ _
                 (IEEE.presents_term s key a t Ha Hl Hpar)).
      assert (IEEE.check (IEEE.self s) t = None) as ->
        by (by apply ieee_check_None).
      done.
Qed.

(** X2: after a registration has returned, the lookup of the key returns
    the registered object, which carries the key as its label, is bound to
    this Variable and, for a raw curve, holds that curve and no degree; the
    lookup of every other label answers as before. *)
Theorem getitem_after_setitem (s s' : store) (key : string) (it : item) :
  setitem key it s = (Ok tt, s') ->
  exists a t,
    getitem key s' = (Ok a, s')
    /\ heap s' !! a = Some t
    /\ label t = key
    /\ parent_variable t = Some (_id (self s))
    /\ (forall c, it = Curve c -> mf t = c /\ membership_value t = None)
    /\ (forall a0, it = TermObj a0 -> a = a0)
    /\ (forall k, k <> key ->
          od_get k (terms (self s')) = od_get k (terms (self s))).
Proof.
  intros Heq.
  destruct (setitem_cases s key it)
    as [(a' & _ & _ & Hs)|[(a' & t & _ & _ & _ & Hs)|(a & t & h & Hp)]];
    [congruence..|].
  rewrite (setitem_presents _ _ _ _ _ _ Hp) in Heq.
  destruct (presents_lookup _ _ _ _ _ _ Hp) as [Ha _].
  destruct (check (self s) t) as [e|] eqn:Hc; [done|]. simplify_eq.
  exists a, (with_parent (Some (_id (self s))) t).
  split; [|split; [|split; [|split; [done|split; [|split]]]]].
  - unfold getitem, bind, get_self. cbn [self with_terms terms].
    by rewrite od_get_set.
  - cbn [heap]. apply list_lookup_insert_eq. by eapply lookup_lt_Some.
  - cbn [with_parent label]. by destruct Hp.
  - intros c ->. by inversion Hp; subst.
  - intros a0 ->. by inversion Hp.
  - intros k Hk. cbn [self with_terms terms]. by apply od_get_set_ne.
Qed.

(** X3: a registration that returns keeps the order of the labels: a label
    that was registered stays at its place (its object is replaced), a new
    label is appended after all the others. *)
Theorem setitem_keeps_order (s s' : store) (key : string) (it : item) :
  setitem key it s = (Ok tt, s') ->
  od_keys (terms (self s'))
  = if decide (key ∈ od_keys (terms (self s)))
    then od_keys (terms (self s))
    else od_keys (terms (self s)) ++ [key].
Proof.
  intros Heq.
  destruct (setitem_cases s key it)
    as [(a' & _ & _ & Hs)|[(a' & t & _ & _ & _ & Hs)|(a & t & h & Hp)]];
    [congruence..|].
  rewrite (setitem_presents _ _ _ _ _ _ Hp) in Heq.
  destruct (check (self s) t) as [e|] eqn:Hc; [done|]. simplify_eq.
  cbn [self with_terms terms]. apply od_set_keys.
Qed.

Lemma getitem_after_setitem_witness :
  exists a t,
    getitem "lo" (setitem "lo" (Curve [1; qc 1 2; 0]) abc_store).2
    = (Ok a, (setitem "lo" (Curve [1; qc 1 2; 0]) abc_store).2)
    /\ heap (setitem "lo" (Curve [1; qc 1 2; 0]) abc_store).2 !! a = Some t
    /\ mf t = [1; qc 1 2; 0].
Proof.
  destruct (getitem_after_setitem abc_store
              (setitem "lo" (Curve [1; qc 1 2; 0]) abc_store).2 "lo"
              (Curve [1; qc 1 2; 0])) as (a & t & Hget & Ha & _ & _ & Hc & _).
  - by_compute.
  - exists a, t. split; [exact Hget|]. split; [exact Ha|].
    by destruct (Hc _ eq_refl).
Defined.

Lemma setitem_keeps_order_witness :
  od_keys (terms (self (setitem "b" (Curve [1; 1; 0]) abc_store).2))
  = ["a"; "b"; "c"]
  /\ od_keys (terms (self (setitem "d" (Curve [1; 1; 0]) abc_store).2))
     = ["a"; "b"; "c"; "d"].
Proof.
  split.
  - rewrite (setitem_keeps_order abc_store _ "b" (Curve [1; 1; 0]));
      [reflexivity|by_compute].
  - rewrite (setitem_keeps_order abc_store _ "d" (Curve [1; 1; 0]));
      [reflexivity|by_compute].
Defined.

Lemma registered_object_bound s s1 key it a :
  setitem key it s = (Ok tt, s1) ->
  od_get key (terms (self s1)) = Some a ->
  exists t, heap s1 !! a = Some t
    /\ parent_variable t = Some (_id (self s)).
Proof.
  intros Heq Hget.
  destruct (setitem_cases s key it)
    as [(a' & _ & _ & Hs)|[(a' & t & _ & _ & _ & Hs)|(a0 & t & h & Hp)]];
    [congruence..|].
  rewrite (setitem_presents _ _ _ _ _ _ Hp) in Heq.
  destruct (presents_lookup _ _ _ _ _ _ Hp) as [Ha _].
  destruct (check (self s) t) as [e|] eqn:Hc; [done|]. simplify_eq.
  cbn [self with_terms terms heap] in *. rewrite od_get_set in Hget.
  simplify_eq. exists (with_parent (Some (_id (self s))) t).
  split; [|done]. apply list_lookup_insert_eq. by eapply lookup_lt_Some.
Qed.

(** ** Properties of every program *)

Lemma mutates_empty_universe s s' :
  mutates s s' -> universe (self s) = [] -> terms (self s) = [] ->
  terms (self s') = [].
Proof.
  induction 1 as [s|s1 s2 s3 H12 IH1 _ IH2|s lbl c|s a t d Ha|s a t Ha Hp Hc|s|s];
    try (by auto).
  - intros Hu Hnil. apply IH2; [|by apply IH1].
    destruct (mutates_fields _ _ H12) as [Hu12 _]. by rewrite Hu12.
  - intros Hu _. apply check_None in Hc as (_ & Hlen & Hne & _).
    rewrite Hu in Hlen. by destruct (mf t).
Qed.

Lemma mutates_locked_terms s s' :
  mutates s s' -> _crisp_value_accessed (self s) = true ->
  terms (self s') = terms (self s) \/ terms (self s') = [].
Proof.
  induction 1 as [s|s1 s2 s3 H12 IH1 _ IH2|s lbl c|s a t d Ha|s a t Ha Hp Hc|s|s];
    try (by auto).
  - intros Hl.
    destruct (mutates_fields _ _ H12) as (_ & _ & _ & _ & _ & Hmono).
    destruct (IH2 (Hmono Hl)) as [-> | ->]; [by apply IH1|by right].
  - intros Hl. apply check_None in Hc as (Hl' & _). congruence.
Qed.

Section EveryProgram.

Variable defuzz : list Qc -> list Qc -> string -> result Qc.
Variable interp_membership : list Qc -> list Qc -> Qc -> Qc.
Variable trimf : list Qc -> abc -> list Qc.

(** X4: a Variable built on an empty universe can never hold a term:
    whatever is done with it, its term mapping stays empty (a curve of
    length zero has the right length, but NumPy has no maximum for it, and
    automf has no limits to take). *)
Theorem empty_universe_never_has_terms (s : store) (os : list op) :
  universe (self s) = [] -> terms (self s) = [] ->
  terms (self (exec_all defuzz interp_membership trimf os s)) = []
  /\ (forall key it, exists e,
        (setitem key it (exec_all defuzz interp_membership trimf os s)).1
        = Err e)
  /\ (forall args, exists e,
        (automf trimf args (exec_all defuzz interp_membership trimf os s)).1
        = Err e).
Proof.
  intros Hu Hnil.
  pose proof (mutates_exec_all defuzz interp_membership trimf os s) as Hm.
  destruct (mutates_fields _ _ Hm) as (Hu' & _). rewrite Hu in Hu'.
  split; [by eapply mutates_empty_universe|]. split.
  - intros key it.
    destruct (setitem key it (exec_all defuzz interp_membership trimf os s))
      as [[[]|e] s'] eqn:Heq; [|by exists e].
    pose proof (mutating_setitem key it
                  (exec_all defuzz interp_membership trimf os s)) as Hstep.
    rewrite Heq in Hstep. cbn [snd] in Hstep.
    pose proof (mutates_empty_universe _ _ Hstep Hu'
                  (mutates_empty_universe _ _ Hm Hu Hnil)) as Hnone.
    destruct (setitem_cases (exec_all defuzz interp_membership trimf os s) key it)
      as [(a' & _ & _ & Hs)|[(a' & t & _ & _ & _ & Hs)|(a & t & h & Hp)]];
      [congruence..|].
    rewrite (setitem_presents _ _ _ _ _ _ Hp) in Heq.
    destruct (check (self (exec_all defuzz interp_membership trimf os s)) t)
      as [e|] eqn:Hc; [done|].
    simplify_eq. cbn [self with_terms terms] in Hnone.
    by apply od_set_not_nil in Hnone.
  - intros args. rewrite automf_eval.
    destruct (automf_names args) as [nn|e]; [|by exists e].
    rewrite Hu'. by exists ZeroSizeReduction.
Qed.

(** X5: no method ever changes the universe, the label, the
    defuzzification method, the identity or the class name of a Variable,
    and none ever resets the lock. *)
Theorem programs_keep_fields (s : store) (os : list op) :
  universe (self (exec_all defuzz interp_membership trimf os s)) = universe (self s)
  /\ var_label (self (exec_all defuzz interp_membership trimf os s)) = var_label (self s)
  /\ defuzzify_method (self (exec_all defuzz interp_membership trimf os s))
     = defuzzify_method (self s)
  /\ _id (self (exec_all defuzz interp_membership trimf os s)) = _id (self s)
  /\ __name__ (self (exec_all defuzz interp_membership trimf os s)) = __name__ (self s)
  /\ (_crisp_value_accessed (self s) = true ->
      _crisp_value_accessed (self (exec_all defuzz interp_membership trimf os s)) = true).
Proof. apply mutates_fields, mutates_exec_all. Qed.

(** X6: no method ever removes a term object, changes its label or its
    curve, or changes or clears a parent that is set: a term that has been
    bound stays bound to the same Variable, also when its label is later
    overwritten or the mapping is cleared by automf. *)
Theorem programs_keep_objects (s : store) (os : list op) (a : nat)
    (t : FuzzyVariableTerm) :
  heap s !! a = Some t ->
  exists t', heap (exec_all defuzz interp_membership trimf os s) !! a = Some t'
    /\ label t' = label t /\ mf t' = mf t
    /\ (forall p, parent_variable t = Some p -> parent_variable t' = Some p).
Proof. apply mutates_objects, mutates_exec_all. Qed.

(** X7: in every store reached from a Variable without terms, the term
    mapping is consistent: each label refers to a term object that carries
    this label and is bound to this Variable, no label occurs twice and no
    object is registered under two labels. *)
Theorem programs_keep_terms_bound (s : store) (os : list op) :
  terms (self s) = [] ->
  (forall k a, (k, a) ∈ terms (self (exec_all defuzz interp_membership trimf os s)) ->
     exists t, heap (exec_all defuzz interp_membership trimf os s) !! a = Some t
               /\ label t = k
               /\ parent_variable t = Some (_id (self s)))
  /\ NoDup (od_keys (terms (self (exec_all defuzz interp_membership trimf os s))))
  /\ NoDup (terms (self (exec_all defuzz interp_membership trimf os s))).*2.
Proof.
  intros Hnil.
  pose proof (mutates_exec_all defuzz interp_membership trimf os s) as Hm.
  destruct (mutates_bound _ _ Hm (bound_empty s Hnil)) as (Hent & Hk & Hv).
  destruct (mutates_fields _ _ Hm) as (_ & _ & _ & Hid & _).
  split; [|done]. intros k a Hin.
  destruct (Hent k a Hin) as (t & Ha & Hl & Hp). exists t. by rewrite <- Hid.
Qed.

(** X8: a term object can be registered once only: after a registration
    has returned, and whatever is done afterwards (also clearing the
    mapping with automf), every registration of the same object, under any
    key, fails the validation of l.148-151 and changes nothing. *)
Theorem registered_object_is_refused (s s1 : store) (key : string) (it : item)
    (a : nat) (os : list op) (key' : string) :
  setitem key it s = (Ok tt, s1) ->
  od_get key (terms (self s1)) = Some a ->
  exists e,
    setitem key' (TermObj a) (exec_all defuzz interp_membership trimf os s1)
    = (Err e, exec_all defuzz interp_membership trimf os s1)
    /\ kind_of e = ValidationError.
Proof.
  intros Hset Hget.
  destruct (registered_object_bound s s1 key it a Hset Hget) as (t & Ha & Hp).
  destruct (mutates_objects _ _ (mutates_exec_all defuzz interp_membership
                                   trimf os s1) a t Ha)
    as (t' & Ha' & _ & _ & Hp').
  specialize (Hp' _ Hp).
  rewrite (setitem_invalid _ key' a t' Ha'); [|right; congruence].
  eexists. split; [reflexivity|]. by case_decide.
Qed.

(** X9: in every store reached from a Variable without terms, every
    registered curve has exactly as many samples as the universe, and at
    least one. *)
Theorem programs_keep_shape (s : store) (os : list op) (lbl : string)
    (t : FuzzyVariableTerm) :
  terms (self s) = [] ->
  registered (exec_all defuzz interp_membership trimf os s) lbl t ->
  length (mf t) = length (universe (self s)) /\ mf t <> [].
Proof.
  intros Hnil (a & Hget & Ha).
  destruct (evolves_exec_all defuzz interp_membership trimf os s)
    as (_ & Hu & _ & Hwf).
  assert (wf s) as Hwf0 by (unfold wf; rewrite Hnil; constructor).
  destruct (wf_lookup _ (lbl, a) (Hwf Hwf0) (od_get_elem _ _ _ Hget))
    as (t' & Ha' & Hlen & Hne & _).
  cbn [snd] in Ha'. simplify_eq. by rewrite <- Hu.
Qed.

(** X10: a locked Variable never gains or replaces a term: whatever is
    done with it, its term mapping is as it was, or empty (automf clears it
    before its registrations fail). *)
Theorem locked_terms_frozen_or_cleared (s : store) (os : list op) :
  _crisp_value_accessed (self s) = true ->
  terms (self (exec_all defuzz interp_membership trimf os s)) = terms (self s)
  \/ terms (self (exec_all defuzz interp_membership trimf os s)) = [].
Proof. apply mutates_locked_terms, mutates_exec_all. Qed.

End EveryProgram.

(** ** Reads and writes of the crisp value, composed *)

Lemma find_loop_heap items out cuts s s' :
  heap s = heap s' ->
  (find_loop items out cuts s).1 = (find_loop items out cuts s').1.
Proof.
  intros Hh. revert out cuts.
  induction items as [|[lbl a] items IH]; intros out cuts; [done|].
  cbn [find_loop]. unfold bind, deref, lift. rewrite <- Hh.
  destruct (heap s !! a) as [t|]; [|done].
  destruct (membership_value t) as [cut|]; [|apply IH].
  destruct (np_maximum out (np_minimum cut (mf t))); [apply IH|done].
Qed.

Lemma find_crisp_value_lock s :
  (_find_crisp_value (mkStore (heap s) (with_accessed true (self s)))).1
  = (_find_crisp_value s).1.
Proof.
  unfold _find_crisp_value, bind, get_self. cbn [self with_accessed terms universe].
  case_decide; [done|]. by apply find_loop_heap.
Qed.

Section Composition.

Variable defuzz : list Qc -> list Qc -> string -> result Qc.
Variable interp_membership : list Qc -> list Qc -> Qc -> Qc.

(** X11: reading the crisp value is repeatable: a second read, right
    after a first one, returns or raises exactly what the first did and
    changes nothing any more. *)
Theorem crisp_value_twice (s : store) :
  crisp_value defuzz (crisp_value defuzz s).2
  = ((crisp_value defuzz s).1, (crisp_value defuzz s).2).
Proof.
  rewrite (crisp_value_eval defuzz s).
  destruct (_find_crisp_value s).1 as [r|e] eqn:Hr; cbn [fst snd].
  - case_decide as Hlen; cbn [fst snd].
    + rewrite crisp_value_eval, Hr. by rewrite decide_True.
    + rewrite crisp_value_eval, find_crisp_value_lock, Hr.
      by rewrite decide_False.
  - by rewrite crisp_value_eval, Hr.
Qed.

Lemma fan_out_refs f items h :
  Forall (fun e : string * nat => is_Some (h !! e.2)) items ->
  Forall (fun e : string * nat => is_Some (fan_out f items h !! e.2)) items.
Proof.
  intros Hall. eapply Forall_impl; [exact Hall|].
  intros e He. apply lookup_lt_is_Some.
  rewrite fan_out_length. by apply lookup_lt_is_Some.
Qed.

Lemma fan_out_twice f g items h :
  (forall u, g (g u) = g u) -> (forall u, f (f u) = f u) ->
  (forall u, g (f u) = g u) ->
  fan_out g items (fan_out f items h) = fan_out g items h.
Proof.
  intros Hg Hf Hgf. apply list_eq. intros a.
  destruct (h !! a) as [t|] eqn:Ha.
  - rewrite (fan_out_lookup g items h a t Hg Ha).
    pose proof (fan_out_lookup f items h a t Hf Ha) as Hfa.
    rewrite (fan_out_lookup g items _ a _ Hg Hfa).
    case_decide; [by rewrite Hgf|done].
  - apply lookup_ge_None in Ha.
    rewrite (proj2 (lookup_ge_None _ _)) by (by rewrite !fan_out_length).
    by rewrite (proj2 (lookup_ge_None _ _)) by (by rewrite !fan_out_length).
Qed.

(** X12: the last write wins: a write of y after a write of x leaves
    exactly the store that the write of y alone leaves (each degree depends
    on the term's own curve only), and writing the same value twice is
    writing it once. *)
Theorem crisp_value_set_overrides (s : store) (x y : Qc) :
  wf s ->
  crisp_value_set interp_membership y (crisp_value_set interp_membership x s).2
  = crisp_value_set interp_membership y s.
Proof.
  intros Hwf. pose proof (wf_refs s Hwf) as Hrefs.
  rewrite (crisp_value_set_eval interp_membership x s Hrefs).
  rewrite (crisp_value_set_eval interp_membership y s Hrefs).
  case_decide as Hnil; cbn [snd].
  - rewrite (crisp_value_set_eval interp_membership y s Hrefs).
    by rewrite decide_True.
  - rewrite crisp_value_set_eval by (by apply fan_out_refs).
    cbn [heap self with_accessed terms universe]. rewrite decide_False by done.
    by rewrite fan_out_twice.
Qed.

(** X13: after a write of the crisp value has returned, every registered
    term has a degree, so a read does not fail for want of memberships: it
    hands the aggregated curve to the defuzzification and changes nothing
    (the Variable is locked already). *)
Theorem crisp_value_after_set (s s1 : store) (x : Qc) :
  wf s ->
  crisp_value_set interp_membership x s = (Ok tt, s1) ->
  has_degree s1
  /\ crisp_value defuzz s1
     = (defuzz (universe (self s1))
               (foldl (zip_with Qcmax) (np_zeros_like (universe (self s1)))
                      (cut_rows s1))
               (defuzzify_method (self s1)),
        s1).
Proof.
  intros Hwf Hset.
  assert (wf s1) as Hwf1.
  { pose proof (evolving_crisp_value_set interp_membership x s) as (_ & _ & _ & H).
    rewrite Hset in H. by apply H. }
  rewrite (crisp_value_set_eval interp_membership x s (wf_refs s Hwf)) in Hset.
  case_decide as Hnil; [done|]. simplify_eq.
  assert (has_degree
            (mkStore (fan_out (fun t => with_membership
                                 (Some (interp_membership (universe (self s)) (mf t) x)) t)
                              (terms (self s)) (heap s))
                     (with_accessed true (self s)))) as Hdeg.
  { destruct (terms (self s)) as [|e items] eqn:Hterms; [done|].
    destruct (wf_lookup s e Hwf) as (t & Ha & _);
      [rewrite Hterms; apply list_elem_of_here|].
    eexists e, _, _. cbn [heap self with_accessed terms].
    split; [rewrite Hterms; apply list_elem_of_here|].
    split.
    - rewrite <- Hterms. rewrite (fan_out_lookup _ _ _ _ t); [|done|done].
      rewrite decide_True; [done|].
      apply list_elem_of_fmap_2. rewrite Hterms. apply list_elem_of_here.
    - done. }
  split; [exact Hdeg|].
  destruct (crisp_value_with_degree defuzz _ Hwf1 Hdeg) as (cuts & _ & ->).
  done.
Qed.

End Composition.

Lemma crisp_value_set_overrides_witness :
  crisp_value_set linear_interp (qc 1 2) written_store
  = crisp_value_set linear_interp (qc 1 2) abc_store.
Proof.
  apply (crisp_value_set_overrides linear_interp abc_store 1 (qc 1 2)).
  exact wf_abc_store.
Defined.

Lemma crisp_value_after_set_witness :
  has_degree written_store
  /\ (crisp_value defuzz_spec written_store).2 = written_store.
Proof.
  destruct (crisp_value_after_set defuzz_spec linear_interp abc_store
              written_store 1 wf_abc_store) as [Hdeg Hread].
  - by_compute.
  - split; [exact Hdeg|]. by rewrite Hread.
Defined.

(** ** The properties of every program, on closed programs *)

Lemma empty_universe_never_has_terms_witness :
  terms (self (exec_all defuzz_spec linear_interp trimf_spec
                 [SetItem "a" (Curve []); Automf (mkArgs 3 "quality" None false)]
                 empty_store)) = [].
Proof.
  apply (empty_universe_never_has_terms defuzz_spec linear_interp trimf_spec
           empty_store); reflexivity.
Defined.

Lemma programs_keep_objects_witness :
  exists t', heap (exec_all defuzz_spec linear_interp trimf_spec session abc_store)
               !! 1%nat = Some t'
    /\ label t' = "b" /\ mf t' = [0; 1; 0]
    /\ parent_variable t' = Some 7%nat.
Proof.
  destruct (programs_keep_objects defuzz_spec linear_interp trimf_spec abc_store
              session 1 (mkTerm "b" [0; 1; 0] (Some 7%nat) None) eq_refl)
    as (t' & Ha & Hl & Hm & Hp).
  exists t'. split; [exact Ha|]. split; [exact Hl|]. split; [exact Hm|].
  by apply Hp.
Defined.

Lemma programs_keep_terms_bound_witness :
  NoDup (od_keys (terms (self (exec_all defuzz_spec linear_interp trimf_spec
                                 session s0))))
  /\ NoDup (terms (self (exec_all defuzz_spec linear_interp trimf_spec
                           session s0))).*2.
Proof.
  apply (programs_keep_terms_bound defuzz_spec linear_interp trimf_spec s0 session).
  reflexivity.
Defined.

Lemma registered_object_is_refused_witness :
  exists e,
    setitem "d" (TermObj 3)
      (exec_all defuzz_spec linear_interp trimf_spec
         [Automf (mkArgs 3 "quality" None false)]
         (setitem "d" (Curve [1; 1; 0]) abc_store).2)
    = (Err e,
       exec_all defuzz_spec linear_interp trimf_spec
         [Automf (mkArgs 3 "quality" None false)]
         (setitem "d" (Curve [1; 1; 0]) abc_store).2)
    /\ kind_of e = ValidationError.
Proof.
  apply (registered_object_is_refused defuzz_spec linear_interp trimf_spec
           abc_store (setitem "d" (Curve [1; 1; 0]) abc_store).2 "d"
           (Curve [1; 1; 0]) 3 [Automf (mkArgs 3 "quality" None false)] "d").
  - by_compute.
  - by_compute.
Defined.

Lemma programs_keep_shape_witness :
  length [0; qc 1 2; 1] = length u3 /\ [0; qc 1 2; 1] <> [].
Proof.
  apply (programs_keep_shape defuzz_spec linear_interp trimf_spec s0
           [SetItem "lo" (Curve [1; qc 1 2; 0]); SetItem "hi" (Curve [0; qc 1 2; 1])]
           "hi" (mkTerm "hi" [0; qc 1 2; 1] (Some 7%nat) None)).
  - reflexivity.
  - exists 1%nat. split; by_compute.
Defined.

Lemma locked_terms_frozen_or_cleared_witness :
  terms (self (exec_all defuzz_spec linear_interp trimf_spec
                 [SetItem "d" (Curve [1; 1; 0]); NotGetItem "a"] written_store))
  = terms (self written_store)
  \/ terms (self (exec_all defuzz_spec linear_interp trimf_spec
                    [SetItem "d" (Curve [1; 1; 0]); NotGetItem "a"] written_store))
     = [].
Proof.
  apply (locked_terms_frozen_or_cleared defuzz_spec linear_interp trimf_spec
           written_store).
  reflexivity.
Defined.

(** ** automf *)

Lemma np_linspace_length lo hi n : length (np_linspace lo hi n) = n.
Proof.
  unfold np_linspace. destruct n as [|[|n]]; [done..|].
  by rewrite length_map, length_seq.
Qed.

Lemma automf_abcs_length lo hi number :
  length (automf_abcs lo hi number) = Z.to_nat number.
Proof.
  unfold automf_abcs.
  rewrite length_zip_with, np_linspace_length, length_replicate. lia.
Qed.

Lemma automf_names_length args ns number :
  automf_names args = Ok (ns, number) -> length ns = Z.to_nat number.
Proof.
  unfold automf_names. destruct (names args) as [l|].
  - case_decide; [|done]. intros [= <- <-]. lia.
  - case_decide as Hin; [|done]. intros [= <- <-].
    repeat (apply elem_of_cons in Hin as [->|Hin];
            [by repeat case_decide|]).
    by apply elem_of_nil in Hin.
Qed.

Section AutomfRuns.

Variable trimf : list Qc -> abc -> list Qc.

(** X15: automf checks its arguments before it touches the Variable: an
    even number of names (also none at all) and, without names, a number
    other than 3, 5 and 7 are refused with a ConfigError, and the store,
    with all the registered terms, is exactly as before. *)
Theorem automf_refuses_arguments (s : store) (args : automf_args) :
  (forall l, names args = Some l -> (Z.of_nat (length l) `mod` 2 <> 1)%Z ->
     automf trimf args s = (Err EvenNames, s)
     /\ kind_of EvenNames = ConfigError)
  /\ (names args = None -> number args ∉ [3; 5; 7]%Z ->
      automf trimf args s = (Err BadNumber, s)
      /\ kind_of BadNumber = ConfigError).
Proof.
  split.
  - intros l Hl Heven. split; [|done].
    rewrite automf_eval. unfold automf_names. rewrite Hl.
    by rewrite decide_False.
  - intros Hnone Hnum. split; [|done].
    rewrite automf_eval. unfold automf_names. rewrite Hnone.
    by rewrite decide_False.
Qed.

(** The loop of l.323-324 on an unlocked variable, for new labels. *)
Lemma automf_loop (u : list Qc) (l : list (string * abc)) :
  u <> [] ->
  (forall p, length (trimf u p) = length u /\ in_range (trimf u p)) ->
  forall s,
  _crisp_value_accessed (self s) = false ->
  universe (self s) = u ->
  NoDup (od_keys (terms (self s)) ++ l.*1) ->
  exists s',
    for_each l (fun '(name, abc) =>
                  v <~ get_self ;;
                  setitem name (Curve (trimf (universe v) abc))) s
    = (Ok tt, s')
    /\ od_keys (terms (self s')) = od_keys (terms (self s)) ++ l.*1
    /\ heap s `prefix_of` heap s'
    /\ _crisp_value_accessed (self s') = false.
Proof.
  intros Hu Htrimf. induction l as [|[name p] l IH]; intros s Hl Hus Hnd.
  - exists s. split; [done|]. split; [by rewrite app_nil_r|done].
  - cbn [for_each]. unfold bind at 1. unfold bind at 1. unfold get_self at 1.
    rewrite Hus.
    rewrite (setitem_presents _ _ _ _ _ _ (presents_curve s name (trimf u p))).
    destruct (Htrimf p) as [Hlen Hr].
    assert (check (self s) (mkTerm name (trimf u p) None None) = None) as ->.
    { apply check_None. cbn [mf]. rewrite Hus.
      split; [done|]. split; [done|]. split; [|done].
      intros Hnil. rewrite Hnil in Hlen. by destruct u. }
    rewrite insert_fresh.
    cbn [fmap list_fmap fst] in Hnd.
    assert (name ∉ od_keys (terms (self s))) as Hfresh.
    { apply NoDup_app in Hnd as (_ & Hdisj & _). intros Hin.
      apply (Hdisj name Hin). apply list_elem_of_here. }
    destruct (IH (mkStore (heap s ++ [with_parent (Some (_id (self s)))
                                        (mkTerm name (trimf u p) None None)])
                          (with_terms (od_set name (length (heap s))
                                         (terms (self s))) (self s))))
      as (s' & Heq & Hkeys & Hpre & Hl'); [done|done|..].
    { cbn [self with_terms terms]. rewrite od_set_keys.
      rewrite decide_False by done. by rewrite <- app_assoc. }
    exists s'. split; [exact Heq|]. split; [|split; [|done]].
    + rewrite Hkeys. cbn [self with_terms terms]. rewrite od_set_keys.
      rewrite decide_False by done. by rewrite <- app_assoc.
    + etrans; [|exact Hpre]. cbn [heap]. by apply prefix_app_r.
Qed.

(** X16: on an unlocked Variable with a universe of at least one sample,
    and with a curve builder that returns curves of the universe's length
    with samples in range, a call of automf whose names are accepted and
    distinct returns; afterwards the Variable has exactly these names as
    labels, in this order (reversed with invert), whatever terms it had
    before; no existing term object is modified and the Variable is still
    unlocked. *)
Theorem automf_populates (s : store) (args : automf_args) (ns : list string)
    (number : Z) :
  _crisp_value_accessed (self s) = false ->
  universe (self s) <> [] ->
  (forall p, length (trimf (universe (self s)) p) = length (universe (self s))
             /\ in_range (trimf (universe (self s)) p)) ->
  automf_names args = Ok (ns, number) ->
  NoDup ns ->
  exists s',
    automf trimf args s = (Ok tt, s')
    /\ od_keys (terms (self s')) = (if invert args then reverse ns else ns)
    /\ heap s `prefix_of` heap s'
    /\ _crisp_value_accessed (self s') = false.
Proof.
  intros Hl Hu Htrimf Hnames Hnd. rewrite automf_eval, Hnames.
  destruct (universe (self s)) as [|u0 us] eqn:Hue; [done|].
  cbn [np_min np_max fst snd].
  set (ns' := if invert args then reverse ns else ns).
  assert (NoDup ns') as Hnd'.
  { unfold ns'. destruct (invert args); [|done].
    by rewrite reverse_Permutation. }
  assert (length ns' = Z.to_nat number) as Hlen.
  { unfold ns'. destruct (invert args); rewrite ?length_reverse;
      by eapply automf_names_length. }
  destruct (automf_loop (u0 :: us)
              (zip ns' (automf_abcs (foldl Qcmin u0 us) (foldl Qcmax u0 us) number))
              ltac:(done) Htrimf
              (mkStore (heap s) (with_terms [] (self s))))
    as (s' & Heq & Hkeys & Hpre & Hl'); [done|done|..].
  { cbn [self with_terms terms od_keys fmap list_fmap app].
    rewrite fst_zip; [done|]. rewrite automf_abcs_length. lia. }
  exists s'. split; [exact Heq|]. split; [|done].
  rewrite Hkeys. cbn [self with_terms terms od_keys fmap list_fmap app].
  apply fst_zip. rewrite automf_abcs_length. lia.
Qed.

End AutomfRuns.

(** X17: without names, automf uses its standard names: as many as the
    number asked (3, 5 or 7), all different, taken in order from the seven
    quality names when the variable type is "quality" in any letter case
    and from the seven quantity names for every other variable type, with
    "average" always in the middle. *)
Theorem automf_standard_names (args : automf_args) (ns : list string) (n : Z) :
  names args = None ->
  automf_names args = Ok (ns, n) ->
  n = number args
  /\ n ∈ [3; 5; 7]%Z
  /\ length ns = Z.to_nat n
  /\ NoDup ns
  /\ ns !! (Z.to_nat n / 2)%nat = Some "average"
  /\ ns `sublist_of` (if decide (lower (variable_type args) = "quality")
                      then quality_names else quant_names).
Proof.
  intros Hnone. unfold automf_names. rewrite Hnone.
  case_decide as Hin; [|done]. intros [= <- <-].
  split; [done|]. split; [done|].
  destruct (decide (lower (variable_type args) = "quality")) as [Hq|Hq];
    repeat (apply elem_of_cons in Hin as [->|Hin];
            [split; [reflexivity|]; split; [by_compute|];
             split; [reflexivity|];
             match goal with
             | |- ?l `sublist_of` ?k =>
                 let l' := eval vm_compute in l in
                 let k' := eval vm_compute in k in
                 change (l' `sublist_of` k')
             end;
             repeat first [apply sublist_nil | apply sublist_skip
                          | apply sublist_cons]|]);
    by apply elem_of_nil in Hin.
Qed.

Lemma flat_curve_ok (u : list Qc) (p : abc) :
  length (flat_curve u p) = length u /\ in_range (flat_curve u p).
Proof.
  unfold flat_curve. split; [by rewrite length_map|].
  apply Forall_fmap, Forall_true. intros x. split; by_compute.
Qed.

Lemma automf_refuses_arguments_witness :
  automf trimf_spec (mkArgs 5 "quality" (Some ["cold"; "hot"]) false) written_store
  = (Err EvenNames, written_store)
  /\ automf trimf_spec (mkArgs 4 "quality" None false) written_store
     = (Err BadNumber, written_store).
Proof.
  split.
  - destruct (automf_refuses_arguments trimf_spec written_store
                (mkArgs 5 "quality" (Some ["cold"; "hot"]) false)) as [Heven _].
    apply (Heven ["cold"; "hot"]); [reflexivity|by_compute].
  - destruct (automf_refuses_arguments trimf_spec written_store
                (mkArgs 4 "quality" None false)) as [_ Hnum].
    apply Hnum; [reflexivity|by_compute].
Defined.

Lemma automf_populates_witness :
  exists s',
    automf flat_curve (mkArgs 3 "quality" None true) abc_store = (Ok tt, s')
    /\ od_keys (terms (self s')) = ["good"; "average"; "poor"].
Proof.
  destruct (automf_populates flat_curve abc_store
              (mkArgs 3 "quality" None true) ["poor"; "average"; "good"] 3)
    as (s' & Heq & Hkeys & _).
  - reflexivity.
  - discriminate.
  - intros p. apply flat_curve_ok.
  - reflexivity.
  - by_compute.
  - exists s'. split; [exact Heq|exact Hkeys].
Defined.

Lemma automf_standard_names_witness :
  ["lower"; "low"; "average"; "high"; "higher"] !! 2%nat = Some "average"
  /\ NoDup ["lower"; "low"; "average"; "high"; "higher"].
Proof.
  destruct (automf_standard_names (mkArgs 5 "Quantity" None false)
              ["lower"; "low"; "average"; "high"; "higher"] 5 eq_refl eq_refl)
    as (_ & _ & _ & Hnd & Hmid & _).
  split; [exact Hmid|exact Hnd].
Defined.

(** ** Negation and full labels *)

(** X18: the negation of a label that is not registered (and whose
    "NOT-" label is not registered either) fails exactly as the lookup of
    the label does: with the lookup error of [__getitem__] and its message
    on a Variable that has a [__name__], with the AttributeError of l.138
    on one that has none; no term object is created and nothing changes. *)
Theorem not_getitem_unknown_label (s : store) (key : string) :
  od_get key (terms (self s)) = None ->
  od_get ("NOT-" +:+ key) (terms (self s)) = None ->
  not_getitem key s = getitem key s
  /\ exists e,
       not_getitem key s = (Err e, s)
       /\ e = match __name__ (self s) with
              | Some name => NoSuchTerm (missing_message key name (self s))
              | None => MissingName
              end
       /\ kind_of e = match __name__ (self s) with
                      | Some _ => LookupError
                      | None => AttributeError
                      end.
Proof.
  intros Hkey Hneg.
  assert (getitem key s
          = (Err match __name__ (self s) with
                 | Some name => NoSuchTerm (missing_message key name (self s))
                 | None => MissingName
                 end, s)) as Hget.
  { unfold getitem, bind, get_self, raise. rewrite Hkey.
    by destruct (__name__ (self s)). }
  assert (not_getitem key s = getitem key s) as Hnot.
  { unfold not_getitem. unfold bind at 1. unfold get_self at 1.
    assert (od_mem ("NOT-" +:+ key) (terms (self s)) = false) as ->.
    { unfold od_mem. apply bool_decide_eq_false. rewrite <- od_get_mem.
      rewrite Hneg. by intros [? ?]. }
    unfold bind at 1. by rewrite Hget. }
  split; [exact Hnot|]. eexists. split; [by rewrite Hnot, Hget|].
  split; [done|]. by destruct (__name__ (self s)).
Qed.

Lemma not_getitem_registers s key neg s1 :
  not_getitem key s = (Ok neg, s1) ->
  od_get ("NOT-" +:+ key) (terms (self s1)) = Some neg.
Proof.
  unfold not_getitem. unfold bind at 1. unfold get_self at 1.
  destruct (od_mem ("NOT-" +:+ key) (terms (self s))) eqn:Hmem.
  - unfold getitem, bind, get_self, ret, raise.
    destruct (od_get ("NOT-" +:+ key) (terms (self s))) as [a|] eqn:Hget;
      [|by destruct (__name__ (self s))].
    intros Heq. by simplify_eq.
  - unfold bind at 1.
    destruct (getitem key s) as [[pos|e] sa]; [|done].
    unfold bind at 1. destruct (deref pos sa) as [[posterm|e] sb]; [|done].
    unfold bind at 1.
    destruct (new_term _ _ sb) as [[negterm|e] sc]; [|done].
    unfold bind at 1.
    destruct (match membership_value posterm with
              | Some d => set_membership_value negterm (Some (1 - d))
              | None => ret tt
              end sc) as [[[]|e] sd]; [|done].
    unfold bind at 1.
    destruct (setitem ("NOT-" +:+ key) (TermObj negterm) sd) as [[[]|e] se] eqn:Hset;
      [|done].
    unfold ret. intros Heq. simplify_eq.
    destruct (setitem_cases sd ("NOT-" +:+ key) (TermObj neg))
      as [(a' & _ & _ & Hs)|[(a' & t & _ & _ & _ & Hs)|(a & t & h & Hp)]];
      [congruence..|].
    rewrite (setitem_presents _ _ _ _ _ _ Hp) in Hset.
    destruct (check (self sd) t) as [e|]; [done|]. simplify_eq.
    cbn [self with_terms terms]. rewrite od_get_set. by inversion Hp.
Qed.

Section NegationAndWrite.

Variable interp_membership : list Qc -> list Qc -> Qc -> Qc.

Lemma for_each_keeps_self {A} (l : list A) (body : A -> M unit) :
  (forall x s, self (body x s).2 = self s) ->
  forall s, self (for_each l body s).2 = self s.
Proof.
  intros Hb. induction l as [|x l IH]; intros s; [done|].
  cbn [for_each]. unfold bind. specialize (Hb x s).
  destruct (body x s) as [[[]|e] s1]; cbn [snd] in *; [|done].
  by rewrite IH.
Qed.

Lemma crisp_value_set_keeps_terms x s :
  terms (self (crisp_value_set interp_membership x s).2) = terms (self s).
Proof.
  unfold crisp_value_set. unfold bind at 1. unfold get_self at 1.
  case_decide; [done|]. unfold bind at 1.
  pose proof (for_each_keeps_self (terms (self s))
                (fun '(_, adj) =>
                   t <~ deref adj ;;
                   assign adj (with_membership
                                 (Some (interp_membership (universe (self s))
                                                          (mf t) x)) t))) as Hself.
  destruct (for_each _ _ s) as [[[]|e] s1] eqn:Hloop.
  - unfold_m. cbn [snd self with_accessed terms].
    rewrite <- (Hself ltac:(intros [k a] s2; unfold bind, deref, assign;
                             by destruct (heap s2 !! a)) s).
    by rewrite Hloop.
  - cbn [snd].
    rewrite <- (Hself ltac:(intros [k a] s2; unfold bind, deref, assign;
                             by destruct (heap s2 !! a)) s).
    by rewrite Hloop.
Qed.

(** X19: a negated term that has been derived stays available after the
    Variable is locked: after a crisp-value write, the same access returns
    the same term object and changes nothing, although a new derivation
    would be refused. *)
Theorem not_getitem_after_write (s s1 : store) (key : string) (neg : nat)
    (x : Qc) :
  not_getitem key s = (Ok neg, s1) ->
  not_getitem key (crisp_value_set interp_membership x s1).2
  = (Ok neg, (crisp_value_set interp_membership x s1).2).
Proof.
  intros Hnot. apply not_getitem_cached.
  rewrite crisp_value_set_keeps_terms. by eapply not_getitem_registers.
Qed.

End NegationAndWrite.

(** X20: in every store reached from a Variable without terms, the full
    label of every registered term is the Variable's label followed by the
    term's key in square brackets; a term object that was just constructed
    has no full label (l.36 raises) until it is registered. *)
Theorem full_label_of_registered
    (defuzz : list Qc -> list Qc -> string -> result Qc)
    (interp_membership : list Qc -> list Qc -> Qc -> Qc)
    (trimf : list Qc -> abc -> list Qc)
    (label_of : nat -> string) (s : store) (os : list op) :
  label_of (_id (self s)) = var_label (self s) ->
  terms (self s) = [] ->
  (forall lbl t,
     registered (exec_all defuzz interp_membership trimf os s) lbl t ->
     full_label label_of t
     = Some (var_label (self s) +:+ "[" +:+ lbl +:+ "]"))
  /\ (forall lbl c, exists t,
        heap (new_term lbl c s).2 !! length (heap s) = Some t
        /\ full_label label_of t = None).
Proof.
  intros Hself Hnil. split.
  - intros lbl t (a & Hget & Ha).
    pose proof (mutates_exec_all defuzz interp_membership trimf os s) as Hm.
    destruct (mutates_bound _ _ Hm (bound_empty s Hnil)) as (Hent & _).
    destruct (mutates_fields _ _ Hm) as (_ & _ & _ & Hid & _).
    destruct (Hent lbl a (od_get_elem _ _ _ Hget)) as (t' & Ha' & Hl & Hp).
    simplify_eq. unfold full_label. rewrite Hp. by rewrite Hid, Hself.
  - intros lbl c. eexists. split; [apply lookup_fresh|done].
Qed.

Lemma not_getitem_unknown_label_witness :
  od_get "zz" (terms (self abc_store)) = None
  /\ od_get ("NOT-" +:+ "zz") (terms (self abc_store)) = None
  /\ exists e, not_getitem "zz" abc_store = (Err e, abc_store)
       /\ kind_of e = LookupError.
Proof.
  split; [reflexivity|]. split; [reflexivity|].
  destruct (not_getitem_unknown_label abc_store "zz" eq_refl eq_refl)
    as (_ & e & Heq & _ & Hk).
  exists e. split; [exact Heq|exact Hk].
Defined.

Lemma not_getitem_after_write_witness :
  not_getitem "a" (crisp_value_set linear_interp 1 (not_getitem "a" abc_store).2).2
  = (Ok 3%nat, (crisp_value_set linear_interp 1 (not_getitem "a" abc_store).2).2).
Proof.
  apply (not_getitem_after_write linear_interp abc_store). by_compute.
Defined.

Lemma full_label_of_registered_witness :
  full_label (fun _ => "tip") (mkTerm "hi" [0; qc 1 2; 1] (Some 7%nat) None)
  = Some "tip[hi]".
Proof.
  destruct (full_label_of_registered defuzz_spec linear_interp trimf_spec
              (fun _ => "tip") s0
              [SetItem "lo" (Curve [1; qc 1 2; 0]); SetItem "hi" (Curve [0; qc 1 2; 1])]
              eq_refl eq_refl) as [Hreg _].
  apply (Hreg "hi"). exists 1%nat. split; by_compute.
Defined.

(** ** What sets the lock *)

Lemma keeps_lock_bind {A B} (m : M A) (k : A -> M B) :
  keeps_lock m -> (forall a, keeps_lock (k a)) -> keeps_lock (bind m k).
Proof.
  intros Hm Hk s. unfold bind. specialize (Hm s).
  destruct (m s) as [[a|e] s1]; cbn [snd] in *; [|done].
  by rewrite Hk.
Qed.

Lemma keeps_lock_for_each {A} (l : list A) (body : A -> M unit) :
  (forall x, keeps_lock (body x)) -> keeps_lock (for_each l body).
Proof.
  intros Hb. induction l as [|x l IH]; [done|].
  apply keeps_lock_bind; [apply Hb|done].
Qed.

Lemma keeps_lock_getitem key : keeps_lock (getitem key).
Proof. intros s. unfold getitem, bind, get_self. by repeat case_match. Qed.

Lemma keeps_lock_deref a : keeps_lock (deref a).
Proof. intros s. unfold deref. by case_match. Qed.

Lemma keeps_lock_set_membership_value a d : keeps_lock (set_membership_value a d).
Proof.
  intros s. unfold set_membership_value, bind, deref, assign.
  by destruct (heap s !! a).
Qed.

Lemma keeps_lock_setitem key it : keeps_lock (setitem key it).
Proof.
  intros s.
  destruct (setitem_cases s key it)
    as [(a & _ & _ & ->)|[(a & t & _ & _ & _ & ->)|(a & t & h & Hp)]];
    [done..|].
  rewrite (setitem_presents _ _ _ _ _ _ Hp). by destruct (check (self s) t).
Qed.

Lemma keeps_lock_not_getitem key : keeps_lock (not_getitem key).
Proof.
  unfold not_getitem. apply keeps_lock_bind; [done|].
  intros v. case_match; [apply keeps_lock_getitem|].
  apply keeps_lock_bind; [apply keeps_lock_getitem|]. intros pos.
  apply keeps_lock_bind; [apply keeps_lock_deref|]. intros posterm.
  apply keeps_lock_bind; [done|]. intros negterm.
  apply keeps_lock_bind.
  { case_match; [apply keeps_lock_set_membership_value|done]. }
  intros _. apply keeps_lock_bind; [apply keeps_lock_setitem|done].
Qed.

Lemma keeps_lock_automf trimf args : keeps_lock (automf trimf args).
Proof.
  intros s. rewrite automf_eval.
  destruct (automf_names args) as [nn|e]; [|done].
  destruct (np_min (universe (self s))) as [lo|e]; [|done].
  destruct (np_max (universe (self s))) as [hi|e]; [|done].
  rewrite keeps_lock_for_each; [done|].
  intros [name p]. apply keeps_lock_bind; [done|].
  intros v. apply keeps_lock_setitem.
Qed.

(** X21: the lock is set by the accesses to the crisp value and by
    nothing else: a program without reads and writes of the crisp value
    (registrations, lookups, negations, degrees written by the rule
    engine, automf) leaves the lock flag as it found it, so an unlocked
    Variable stays open for registration. *)
Theorem only_crisp_value_locks
    (defuzz : list Qc -> list Qc -> string -> result Qc)
    (interp_membership : list Qc -> list Qc -> Qc -> Qc)
    (trimf : list Qc -> abc -> list Qc) (s : store) (os : list op) :
  Forall (fun o => locking o = false) os ->
  _crisp_value_accessed (self (exec_all defuzz interp_membership trimf os s))
  = _crisp_value_accessed (self s).
Proof.
  revert s. induction os as [|o os IH]; intros s Hall; [done|].
  inversion Hall as [|? ? Ho Hrest]; subst. cbn [exec_all foldl].
  fold (exec_all defuzz interp_membership trimf os
          (exec defuzz interp_membership trimf o s)).
  rewrite IH by done. destruct o; try done; cbn [exec].
  - apply keeps_lock_set_membership_value.
  - apply keeps_lock_setitem.
  - apply keeps_lock_getitem.
  - apply keeps_lock_not_getitem.
  - apply keeps_lock_automf.
Qed.

Lemma only_crisp_value_locks_witness :
  _crisp_value_accessed
    (self (exec_all defuzz_spec linear_interp trimf_spec
             [SetItem "lo" (Curve [1; qc 1 2; 0]); NotGetItem "lo";
              SetMembership 0 (Some 1); GetItem "hi";
              Automf (mkArgs 3 "quality" None false)] s0))
  = false.
Proof.
  rewrite (only_crisp_value_locks defuzz_spec linear_interp trimf_spec s0);
    [reflexivity|].
  repeat constructor.
Defined.

(** ** The order of the terms *)

Lemma Qcmax_swap (o x y : Qc) : Qcmax (Qcmax o x) y = Qcmax (Qcmax o y) x.
Proof.
  unfold Qcmax. repeat case_decide; try done;
    repeat match goal with
           | H : ~ (_ <= _) |- _ => apply Qcnot_le_lt, Qclt_le_weak in H
           end;
    try (apply Qcle_antisym; eauto using Qcle_trans);
    exfalso;
    repeat match goal with
           | H : ~ (_ <= _) |- _ => revert H
           end; eauto using Qcle_trans.
Qed.

Lemma foldl_max_Permutation (l l' : list Qc) :
  l ≡ₚ l' -> forall o, foldl Qcmax o l = foldl Qcmax o l'.
Proof.
  induction 1 as [|x l l' _ IH|x y l|l1 l2 l3 _ IH1 _ IH2]; intros o.
  - done.
  - cbn [foldl]. apply IH.
  - cbn [foldl]. by rewrite Qcmax_swap.
  - by rewrite IH1.
Qed.

Lemma aggregate_Permutation (rows rows' : list (list Qc)) (out : list Qc) :
  rows ≡ₚ rows' ->
  Forall (fun r : list Qc => length r = length out) rows ->
  foldl (zip_with Qcmax) out rows = foldl (zip_with Qcmax) out rows'.
Proof.
  intros Hperm Hrows.
  assert (Forall (fun r : list Qc => length r = length out) rows') as Hrows'
    by (by rewrite <- Hperm).
  apply list_eq. intros i.
  destruct (out !! i) as [o|] eqn:Ho.
  - rewrite (foldl_zip_max_lookup rows out i o Hrows Ho).
    rewrite (foldl_zip_max_lookup rows' out i o Hrows' Ho).
    f_equal. apply foldl_max_Permutation. by rewrite Hperm.
  - apply lookup_ge_None in Ho.
    rewrite (proj2 (lookup_ge_None _ _))
      by (by rewrite foldl_zip_max_length).
    by rewrite (proj2 (lookup_ge_None _ _))
      by (by rewrite foldl_zip_max_length).
Qed.

(** X22: the aggregated curve does not depend on the order in which the
    terms were registered: two Variables over the same universe and the
    same term objects, with the same entries in another order, aggregate
    to the same curve. *)
Theorem aggregation_ignores_order (s s' : store) :
  wf s -> terms (self s) <> [] ->
  heap s' = heap s ->
  universe (self s') = universe (self s) ->
  terms (self s') ≡ₚ terms (self s) ->
  exists agg cuts cuts',
    (_find_crisp_value s).1 = Ok (agg, cuts)
    /\ (_find_crisp_value s').1 = Ok (agg, cuts').
Proof.
  intros Hwf Hne Hheap Hu Hperm.
  assert (wf s') as Hwf'.
  { unfold wf in *. rewrite Hperm, Hheap, Hu. exact Hwf. }
  assert (terms (self s') <> []) as Hne'.
  { intros Hnil. rewrite Hnil in Hperm. symmetry in Hperm.
    by apply Permutation_nil_r in Hperm. }
  destruct (find_crisp_value_eval s Hwf Hne) as (cuts & Heq & _).
  destruct (find_crisp_value_eval s' Hwf' Hne') as (cuts' & Heq' & _).
  eexists _, cuts, cuts'. split; [exact Heq|]. rewrite Heq'.
  do 2 f_equal. rewrite Hu. apply aggregate_Permutation.
  - unfold cut_rows, rows_of. by rewrite Hperm, Hheap.
  - pose proof (rows_of_lengths s' Hwf') as Hrows.
    unfold np_zeros_like. rewrite length_map. by rewrite <- Hu.
Qed.

Lemma aggregation_ignores_order_witness :
  exists agg cuts cuts',
    (_find_crisp_value written_store).1 = Ok (agg, cuts)
    /\ (_find_crisp_value
          (mkStore (heap written_store)
                   (with_terms [("c", 2%nat); ("a", 0%nat); ("b", 1%nat)]
                               (self written_store)))).1
       = Ok (agg, cuts').
Proof.
  apply aggregation_ignores_order.
  - apply (evolves_exec defuzz_spec linear_interp trimf_spec (WriteCrisp 1) abc_store).
    exact wf_abc_store.
  - discriminate.
  - reflexivity.
  - reflexivity.
  - change [("c", 2%nat); ("a", 0%nat); ("b", 1%nat)]
      with ([("c", 2%nat)] ++ [("a", 0%nat); ("b", 1%nat)]).
    change (terms (self written_store))
      with ([("a", 0%nat); ("b", 1%nat)] ++ [("c", 2%nat)]).
    apply Permutation_app_comm.
Defined.
